(** * Directory-Analyzer: a shallow embedding of [analyzeDir.cpp]

    The program walks the current working directory once, depth first, and
    returns a [Results] record.  The embedding follows the source function by
    function.  The file system, the text of the files and the answers of the
    external [identify] command are the input: a tree of [node]s.  The three
    process-wide hash tables are a record of finite maps threaded through
    every call, and a call either returns or ends the process
    ([print_error]). *)

From Stdlib Require Import ZArith Lia Ascii.
From Stdlib Require String.
From stdpp Require Import base option list gmap strings sorting pretty.

Local Open Scope Z_scope.

(** ** Machine integers

    [int] is 32 bits and [long] is 64 bits (LP64).  Values are kept in [Z];
    every arithmetic result is brought back into range by [wrap], the
    two's-complement result the compiled program produces. *)

Definition wrap (bits z : Z) : Z :=
  (z + 2 ^ (bits - 1)) mod 2 ^ bits - 2 ^ (bits - 1).

Definition to_int (z : Z) : Z := wrap 32 z.
Definition to_long (z : Z) : Z := wrap 64 z.

Definition INT_MAX : Z := 2 ^ 31 - 1.
Definition INT_MIN : Z := - 2 ^ 31.
Definition LONG_MAX : Z := 2 ^ 63 - 1.
Definition LONG_MIN : Z := - 2 ^ 63.

(** ** Constants of the source *)

Definition CURRENT_DIRECTORY : string := ".".
Definition PREVIOUS_DIRECTORY : string := "..".
Definition PATH_SEPARATOR : ascii := "/"%char.
Definition NO_PATH : string := "".

Definition SYSCALL_SUCCESS : Z := 0.
Definition SYSCALL_FAILED : Z := -1.

Definition DEFAULT_LARGEST_SIZE : Z := -1.
Definition MIN_WORD_SIZE : Z := 5.

(** ** Characters and strings ("C" locale) *)

Definition isupper (c : ascii) : bool :=
  (65 <=? N_of_ascii c)%N && (N_of_ascii c <=? 90)%N.

Definition islower (c : ascii) : bool :=
  (97 <=? N_of_ascii c)%N && (N_of_ascii c <=? 122)%N.

Definition isalpha (c : ascii) : bool := isupper c || islower c.

Definition tolower (c : ascii) : ascii :=
  if isupper c then ascii_of_N (N_of_ascii c + 32) else c.

Definition isspace (c : ascii) : bool :=
  (N_of_ascii c =? 32)%N || ((9 <=? N_of_ascii c)%N && (N_of_ascii c <=? 13)%N).

Definition isdigit (c : ascii) : bool :=
  (48 <=? N_of_ascii c)%N && (N_of_ascii c <=? 57)%N.

(** [s.push_back(c)] *)
Definition push_back (s : string) (c : ascii) : string :=
  s +:+ String c "".

(** [s.substr(pos)], for [pos <= s.size()] *)
Fixpoint substr (pos : nat) (s : string) : string :=
  match pos, s with
  | O, _ => s
  | S pos', String _ s' => substr pos' s'
  | S _, EmptyString => EmptyString
  end.

(** [str1 + PATH_SEPARATOR + str2] *)
Definition join_path (dir_path entry_name : string) : string :=
  dir_path +:+ String PATH_SEPARATOR entry_name.

Definition ends_with (str suffix : string) : bool :=
  if (String.length str <? String.length suffix)%nat then false
  else String.eqb
         (substr (String.length str - String.length suffix) str) suffix.

Definition clean_path (path : string) : string :=
  if String.prefix (CURRENT_DIRECTORY +:+ String PATH_SEPARATOR "") path
  then substr 2 path
  else path.

Fixpoint lowercase (str : string) : string :=
  match str with
  | EmptyString => EmptyString
  | String c str' => String (tolower c) (lowercase str')
  end.

(** [operator<] of [std::string]: bytes compared as unsigned values. *)
Definition string_lt (s1 s2 : string) : bool := String.ltb s1 s2.

(** ** The file system seen by one run

    What [stat], [opendir], [readdir], [fopen] and [popen] answer.  The
    entries of a directory are listed in the order [readdir] yields them. *)

(** What [popen], [fgets] and [pclose] give for one [identify] command:
    [popen] returns no stream, or a stream whose first line (what [fgets]
    stores, [None] when it returns NULL) and wait status are recorded. *)
Inductive popen_result : Type :=
| PipeNull
| PipeStream (first_line : option string) (status : Z).

Record file_data : Type := FileData {
  (** result of the [stat] call in the walker: the size, or failure *)
  st_size : option Z;
  (** bytes [fgetc] yields after [fopen], or [None] when [fopen] fails *)
  contents : option string;
  identify : popen_result
}.

#[warnings="-register-all"]
Inductive node : Type :=
| RegFile (f : file_data)
| Directory (opendir_ok : bool) (entries : list (string * node))
| Special.

(** ** Records of the header and of the walker *)

Record ImageInfo : Type := MkImageInfo {
  path : string;
  width : Z;
  height : Z
}.

Record Results : Type := MkResults {
  largest_file_path : string;
  largest_file_size : Z;
  n_files : Z;
  n_dirs : Z;
  all_files_size : Z;
  most_common_words : list (string * Z);
  largest_images : list ImageInfo;
  vacant_dirs : list string
}.

Record DirStats : Type := MkDirStats {
  ds_largest_file_path : string;
  ds_largest_file_size : Z;
  ds_n_files : Z;
  ds_n_dirs : Z;
  ds_all_files_size : Z;
  ds_largest_images : list ImageInfo
}.

(** The default member initialisers of [DirStats]. *)
Definition DirStats_init : DirStats :=
  {| ds_largest_file_path := NO_PATH;
     ds_largest_file_size := DEFAULT_LARGEST_SIZE;
     ds_n_files := 0;
     ds_n_dirs := 1;
     ds_all_files_size := 0;
     ds_largest_images := [] |}.

(** ** Process-wide tables *)

Record globals : Type := MkGlobals {
  parent_map : gmap string string;
  n_files_map : gmap string Z;
  most_common_words_map : gmap string Z
}.

(** The tables when the process starts. *)
Definition globals_init : globals :=
  {| parent_map := ∅; n_files_map := ∅; most_common_words_map := ∅ |}.

(** ** Calls that return or end the process *)

Inductive outcome (A : Type) : Type :=
| Returns (a : A) (g : globals)
| Exits (message : string).
Arguments Returns {A} a g.
Arguments Exits {A} message.

Definition Run (A : Type) : Type := globals → outcome A.

#[global] Instance Run_ret : MRet Run := λ A a g, Returns a g.

#[global] Instance Run_bind : MBind Run := λ A B k m g,
  match m g with
  | Returns a g' => k a g'
  | Exits message => Exits message
  end.

(** [error(SYSCALL_FAILED, errno, ...)]: the status is not zero, so the
    process ends. *)
Definition print_error {A} (message : string) : Run A :=
  λ _, Exits message.

Definition get_globals : Run globals := λ g, Returns g g.
Definition put_globals (g : globals) : Run unit := λ _, Returns tt g.

(** [m[k]] on a [std::unordered_map]: a missing key is first inserted with
    the value-initialised value. *)
Definition subscript {V} (dflt : V) (k : string) (m : gmap string V)
  : V * gmap string V :=
  match m !! k with
  | Some v => (v, m)
  | None => (dflt, <[k := dflt]> m)
  end.

Definition set_parent_map (m : gmap string string) (g : globals) : globals :=
  {| parent_map := m;
     n_files_map := n_files_map g;
     most_common_words_map := most_common_words_map g |}.

Definition set_n_files_map (m : gmap string Z) (g : globals) : globals :=
  {| parent_map := parent_map g;
     n_files_map := m;
     most_common_words_map := most_common_words_map g |}.

Definition set_most_common_words_map (m : gmap string Z) (g : globals)
  : globals :=
  {| parent_map := parent_map g;
     n_files_map := n_files_map g;
     most_common_words_map := m |}.

(** [parent_map[k]] read as an rvalue *)
Definition parent_map_at (k : string) : Run string := λ g,
  let '(v, m) := subscript NO_PATH k (parent_map g) in
  Returns v (set_parent_map m g).

(** [n_files_map[k]] read as an rvalue *)
Definition n_files_map_at (k : string) : Run Z := λ g,
  let '(v, m) := subscript 0 k (n_files_map g) in
  Returns v (set_n_files_map m g).

(** [parent_map[k] = v] *)
Definition parent_map_assign (k v : string) : Run unit := λ g,
  Returns tt (set_parent_map (<[k := v]> (parent_map g)) g).

(** [n_files_map[k] = v] *)
Definition n_files_map_assign (k : string) (v : Z) : Run unit := λ g,
  Returns tt (set_n_files_map (<[k := v]> (n_files_map g)) g).

(** [m[k]++] on a table of [int] *)
Definition increment (k : string) (m : gmap string Z) : gmap string Z :=
  <[k := to_int (default 0 (m !! k) + 1)]> m.

(** [m[k] += n] on a table of [int], [n] a [long]: the sum is formed in
    [long] and converted back to [int]. *)
Definition add_long (k : string) (n : Z) (m : gmap string Z) : gmap string Z :=
  <[k := to_int (to_long (default 0 (m !! k) + n))]> m.

(** ** Comparators *)

Definition ImageInfoComparator (image1 image2 : ImageInfo) : bool :=
  let pixels1 := to_long (width image1 * height image1) in
  let pixels2 := to_long (width image2 * height image2) in
  if negb (pixels1 =? pixels2) then pixels1 >? pixels2
  else string_lt (path image1) (path image2).

Definition WordFrequencyComparator (word1 word2 : string * Z) : bool :=
  if negb (word1.2 =? word2.2) then word1.2 >? word2.2
  else string_lt word1.1 word2.1.

(** [std::sort(first, last, comp)]: the result is a permutation in which no
    element is ordered by [comp] before one that precedes it. *)
Definition std_sort {A} (comp : A → A → bool) (v : list A) : list A :=
  merge_sort (λ a b, Is_true (negb (comp b a))) v.

(** [v.resize(count)] for [count] computed as an [int] not above [v.size()].
    A negative [count] becomes a [size_type] above [max_size()]:
    [std::length_error] is thrown and nothing catches it. *)
Definition resize {A} (v : list A) (count : Z) : Run (list A) :=
  if count <? 0 then print_error "std::length_error"
  else mret (take (Z.to_nat count) v).

(** ** The image prober *)

Fixpoint skip_ws (s : string) : string :=
  match s with
  | String c s' => if isspace c then skip_ws s' else s
  | EmptyString => EmptyString
  end.

Definition digit_value (c : ascii) : Z := Z.of_N (N_of_ascii c) - 48.

Fixpoint read_digits (s : string) (acc : Z) : Z * string :=
  match s with
  | String c s' =>
      if isdigit c then read_digits s' (10 * acc + digit_value c) else (acc, s)
  | EmptyString => (acc, EmptyString)
  end.

(** [iss >> value] for a [long].  The stream is [Some] of the unread
    characters while it is good and [None] once an extraction has failed or
    has met the end.  A failed sentry leaves [value] as it was; a field with
    no digit stores zero; a number out of range stores the nearest limit. *)
Definition extract_long (value : Z) (iss : option string)
  : Z * option string :=
  match iss with
  | None => (value, None)
  | Some s =>
      match skip_ws s with
      | EmptyString => (value, None)
      | String c s' as field =>
          let negative := Ascii.eqb c "-" in
          let digits := if negative || Ascii.eqb c "+" then s' else field in
          match digits with
          | String d _ =>
              if isdigit d then
                let '(magnitude, rest) := read_digits digits 0 in
                let v := if negative then - magnitude else magnitude in
                if v >? LONG_MAX then (LONG_MAX, None)
                else if v <? LONG_MIN then (LONG_MIN, None)
                else (v, match rest with EmptyString => None | _ => Some rest end)
              else (0, None)
          | EmptyString => (0, None)
          end
      end
  end.

(** [fgets] into [buffer], then [iss >> width >> height]; both stay zero
    when [fgets] returns NULL. *)
Definition read_dimensions (first_line : option string) : Z * Z :=
  match first_line with
  | Some buffer =>
      let '(width, iss) := extract_long 0 (Some buffer) in
      let '(height, _) := extract_long 0 iss in
      (width, height)
  | None => (0, 0)
  end.

Definition get_image_info (file_path : string) (f : file_data)
  : Run (option ImageInfo) :=
  match identify f with
  | PipeNull =>
      print_error ("could not call identify via popen on %s" +:+ file_path)
  | PipeStream first_line status =>
      let '(width, height) := read_dimensions first_line in
      if (status =? SYSCALL_SUCCESS) && (width >? 0) && (height >? 0)
      then mret (Some (MkImageInfo (clean_path file_path) width height))
      else mret None
  end.

(** ** The word counter *)

Definition flush_word (next_word : string) (table : gmap string Z)
  : gmap string Z :=
  if MIN_WORD_SIZE <=? Z.of_nat (String.length next_word)
  then increment next_word table
  else table.

(** The [while (true)] loop over [fgetc] and the flush after it. *)
Fixpoint scan_words (bytes next_word : string) (table : gmap string Z)
  : gmap string Z :=
  match bytes with
  | EmptyString => flush_word next_word table
  | String c rest =>
      let c := tolower c in
      if isalpha c then scan_words rest (push_back next_word c) table
      else scan_words rest EmptyString (flush_word next_word table)
  end.

Definition count_words_in_file (file_path : string) (f : file_data)
  : Run unit :=
  match contents f with
  | None => print_error ("could not open file " +:+ file_path)
  | Some bytes => λ g,
      Returns tt (set_most_common_words_map
                    (scan_words bytes EmptyString (most_common_words_map g)) g)
  end.

(** ** The vacancy resolver *)

(** The range-[for] over [n_files_map]: [items] are the entries still to be
    visited. *)
Fixpoint vacant_loop (items : list (string * Z))
    (top_level_vacant_dirs : list string) : Run (list string) :=
  match items with
  | [] => mret top_level_vacant_dirs
  | (dir_path, n_files) :: rest =>
      if n_files =? 0 then
        parent ← parent_map_at dir_path;
        parent_n_files ← n_files_map_at parent;
        if parent_n_files >? 0
        then vacant_loop rest (top_level_vacant_dirs ++ [clean_path dir_path])
        else vacant_loop rest top_level_vacant_dirs
      else vacant_loop rest top_level_vacant_dirs
  end.

Definition get_top_level_vacant_dirs : Run (list string) :=
  n_files_map_assign NO_PATH 1;;
  g ← get_globals;
  top_level_vacant_dirs ← vacant_loop (map_to_list (n_files_map g)) [];
  mret (std_sort string_lt top_level_vacant_dirs).

(** ** The directory walker *)

(** Assignments to the members of a [DirStats]. *)
Definition with_largest_file (file_path : string) (size : Z) (ds : DirStats)
  : DirStats :=
  {| ds_largest_file_path := file_path;
     ds_largest_file_size := size;
     ds_n_files := ds_n_files ds;
     ds_n_dirs := ds_n_dirs ds;
     ds_all_files_size := ds_all_files_size ds;
     ds_largest_images := ds_largest_images ds |}.

Definition with_n_files (n : Z) (ds : DirStats) : DirStats :=
  {| ds_largest_file_path := ds_largest_file_path ds;
     ds_largest_file_size := ds_largest_file_size ds;
     ds_n_files := n;
     ds_n_dirs := ds_n_dirs ds;
     ds_all_files_size := ds_all_files_size ds;
     ds_largest_images := ds_largest_images ds |}.

Definition with_n_dirs (n : Z) (ds : DirStats) : DirStats :=
  {| ds_largest_file_path := ds_largest_file_path ds;
     ds_largest_file_size := ds_largest_file_size ds;
     ds_n_files := ds_n_files ds;
     ds_n_dirs := n;
     ds_all_files_size := ds_all_files_size ds;
     ds_largest_images := ds_largest_images ds |}.

Definition with_all_files_size (size : Z) (ds : DirStats) : DirStats :=
  {| ds_largest_file_path := ds_largest_file_path ds;
     ds_largest_file_size := ds_largest_file_size ds;
     ds_n_files := ds_n_files ds;
     ds_n_dirs := ds_n_dirs ds;
     ds_all_files_size := size;
     ds_largest_images := ds_largest_images ds |}.

Definition with_largest_images (images : list ImageInfo) (ds : DirStats)
  : DirStats :=
  {| ds_largest_file_path := ds_largest_file_path ds;
     ds_largest_file_size := ds_largest_file_size ds;
     ds_n_files := ds_n_files ds;
     ds_n_dirs := ds_n_dirs ds;
     ds_all_files_size := ds_all_files_size ds;
     ds_largest_images := images |}.

(** [n_files_map[k]++] *)
Definition n_files_map_increment (k : string) : Run unit := λ g,
  Returns tt (set_n_files_map (increment k (n_files_map g)) g).

(** [n_files_map[k] += n] *)
Definition n_files_map_add (k : string) (n : Z) : Run unit := λ g,
  Returns tt (set_n_files_map (add_long k n (n_files_map g)) g).

(** The body of the loop for an entry that [is_file] accepts. *)
Definition visit_file (dir_path file_or_subdir_path : string) (f : file_data)
    (dir_stats : DirStats) : Run DirStats :=
  let dir_stats := with_n_files (to_long (ds_n_files dir_stats + 1)) dir_stats in
  n_files_map_increment dir_path;;
  let dir_stats :=
    match st_size f with
    | Some size =>
        let dir_stats :=
          if size >? ds_largest_file_size dir_stats
          then with_largest_file (clean_path file_or_subdir_path) size dir_stats
          else dir_stats in
        with_all_files_size (to_long (ds_all_files_size dir_stats + size))
          dir_stats
    | None => dir_stats
    end in
  (if ends_with (lowercase file_or_subdir_path) ".txt"
   then count_words_in_file file_or_subdir_path f
   else mret tt);;
  image_info ← get_image_info file_or_subdir_path f;
  mret (match image_info with
        | Some image =>
            with_largest_images (ds_largest_images dir_stats ++ [image])
              dir_stats
        | None => dir_stats
        end).

(** The body of the loop after the recursive call on a subdirectory. *)
Definition merge_subdir (dir_path : string) (subdir_stats dir_stats : DirStats)
  : Run DirStats :=
  let dir_stats :=
    if ds_largest_file_size subdir_stats >? ds_largest_file_size dir_stats
    then with_largest_file (clean_path (ds_largest_file_path subdir_stats))
           (ds_largest_file_size subdir_stats) dir_stats
    else dir_stats in
  let dir_stats :=
    with_n_files (to_long (ds_n_files dir_stats + ds_n_files subdir_stats))
      dir_stats in
  n_files_map_add dir_path (ds_n_files subdir_stats);;
  let dir_stats :=
    with_n_dirs (to_long (ds_n_dirs dir_stats + ds_n_dirs subdir_stats))
      dir_stats in
  let dir_stats :=
    with_all_files_size
      (to_long (ds_all_files_size dir_stats + ds_all_files_size subdir_stats))
      dir_stats in
  mret (with_largest_images
          (ds_largest_images dir_stats ++ ds_largest_images subdir_stats)
          dir_stats).

Definition is_pseudo_entry (entry_name : string) : bool :=
  String.eqb entry_name CURRENT_DIRECTORY
  || String.eqb entry_name PREVIOUS_DIRECTORY.

Section readdir_loop.
(** the recursive call *)
Variable get_dir_stats : node → string → string → Run DirStats.
Variable dir_path : string.

(** The [for] loop over [readdir]. *)
Fixpoint readdir_loop (entries : list (string * node)) (dir_stats : DirStats)
  : Run DirStats :=
  match entries with
  | [] => mret dir_stats
  | (entry_name, entry) :: rest =>
      if is_pseudo_entry entry_name then readdir_loop rest dir_stats
      else
        let file_or_subdir_path := join_path dir_path entry_name in
        match entry with
        | RegFile f =>
            dir_stats' ← visit_file dir_path file_or_subdir_path f dir_stats;
            readdir_loop rest dir_stats'
        | Directory _ _ =>
            subdir_stats ← get_dir_stats entry file_or_subdir_path dir_path;
            dir_stats' ← merge_subdir dir_path subdir_stats dir_stats;
            readdir_loop rest dir_stats'
        | Special => readdir_loop rest dir_stats
        end
  end.
End readdir_loop.

Fixpoint get_dir_stats (dir : node) (dir_path parent_dir_path : string)
  : Run DirStats :=
  match dir with
  | Directory true entries =>
      parent_map_assign dir_path parent_dir_path;;
      n_files_map_assign dir_path 0;;
      readdir_loop get_dir_stats dir_path entries DirStats_init
  | _ => print_error ("could not opendir " +:+ dir_path)
  end.

(** ** The entry point *)

Definition analyzeDir (n : Z) (cwd : node) : Run Results :=
  dir_stats ← get_dir_stats cwd CURRENT_DIRECTORY NO_PATH;
  g ← get_globals;
  let words := std_sort WordFrequencyComparator
                 (map_to_list (most_common_words_map g)) in
  words ← resize words (Z.min (to_int (Z.of_nat (length words))) n);
  let images := std_sort ImageInfoComparator (ds_largest_images dir_stats) in
  images ← resize images (Z.min (to_int (Z.of_nat (length images))) n);
  vacant ← get_top_level_vacant_dirs;
  mret {| largest_file_path := ds_largest_file_path dir_stats;
          largest_file_size := ds_largest_file_size dir_stats;
          n_files := ds_n_files dir_stats;
          n_dirs := ds_n_dirs dir_stats;
          all_files_size := ds_all_files_size dir_stats;
          most_common_words := words;
          largest_images := images;
          vacant_dirs := vacant |}.

(** ** Opening files and directories, and the kind of an entry *)

(** [opendir] succeeds on a directory the process may read; the entries
    are what [readdir] then yields. *)
Definition open_directory (dir_name : string) (dir : node)
  : Run (list (string * node)) :=
  match dir with
  | Directory true entries => mret entries
  | _ => print_error ("could not opendir " +:+ dir_name)
  end.

(** [fopen(file_name, "r")]; the bytes are what [fgetc] then yields. *)
Definition open_file (file_name : string) (f : file_data) : Run string :=
  match contents f with
  | Some bytes => mret bytes
  | None => print_error ("could not open file " +:+ file_name)
  end.

(** [stat] succeeds and reports a directory. *)
Definition is_dir (entry : node) : bool :=
  match entry with Directory _ _ => true | _ => false end.

(** [stat] succeeds and reports a regular file. *)
Definition is_file (entry : node) : bool :=
  match entry with RegFile _ => true | _ => false end.

(** ** The program ([main.cpp]) *)

Definition MAX_OPEN_FILES : Z := 256.
Definition EXPECTED_ARG_COUNT : nat := 3.

(** [std::stoi(str)]: [strtol] in base 10 skips white space, takes a sign
    and the digits that follow, and ignores what comes after them.  With no
    digit [std::invalid_argument] is thrown, with a value that is not an
    [int] [std::out_of_range]; nothing catches either. *)
Definition stoi (str : string) : Run Z :=
  match skip_ws str with
  | EmptyString => print_error "std::invalid_argument"
  | String c s' as field =>
      let negative := Ascii.eqb c "-" in
      let digits := if negative || Ascii.eqb c "+" then s' else field in
      match digits with
      | String d _ =>
          if isdigit d then
            let '(magnitude, _) := read_digits digits 0 in
            let v := if negative then - magnitude else magnitude in
            if (v <? INT_MIN) || (v >? INT_MAX)
            then print_error "std::out_of_range"
            else mret v
          else print_error "std::invalid_argument"
      | EmptyString => print_error "std::invalid_argument"
      end
  end.



Definition newline : string := String "010" "".

(** A line of standard output. *)
Definition line (s : string) : string := s +:+ newline.







(** * What a walk meets

    The regular files and the directories below a directory, in the order
    the walker reaches them.  The statistics are stated over these lists. *)

Section over_entries.
Context {A : Type}.
Variable of_dir : string → node → list A.
Variable of_file : string → file_data → list A.
Variable dir_path : string.

Fixpoint over_entries (entries : list (string * node)) : list A :=
  match entries with
  | [] => []
  | (entry_name, entry) :: rest =>
      (if is_pseudo_entry entry_name then []
       else match entry with
            | RegFile f => of_file (join_path dir_path entry_name) f
            | Directory _ _ => of_dir (join_path dir_path entry_name) entry
            | Special => []
            end) ++ over_entries rest
  end.
End over_entries.

(** Every regular file in or below [dir], with its path. *)
Fixpoint files_under (dir_path : string) (dir : node)
  : list (string * file_data) :=
  match dir with
  | Directory _ entries =>
      over_entries files_under (λ p f, [(p, f)]) dir_path entries
  | _ => []
  end.

(** The recursive file count of a directory. *)
Definition file_count (dir_path : string) (dir : node) : Z :=
  Z.of_nat (length (files_under dir_path dir)).

(** One directory of the tree: its path, its proper ancestors (nearest
    first) each with its recursive file count, its own recursive file
    count, and whether [opendir] succeeds on it. *)
Record dir_row : Type := MkRow {
  row_path : string;
  row_ancestors : list (string * Z);
  row_files : Z;
  row_openable : bool
}.

(** [dir] and every directory below it. *)
Fixpoint dirs_under (ancestors : list (string * Z)) (dir_path : string)
    (dir : node) : list dir_row :=
  match dir with
  | Directory opendir_ok entries =>
      let files := file_count dir_path dir in
      MkRow dir_path ancestors files opendir_ok
      :: over_entries (dirs_under ((dir_path, files) :: ancestors))
           (λ _ _, []) dir_path entries
  | _ => []
  end.

(** The path of the nearest ancestor, or the sentinel of the root. *)
Definition parent_of (ancestors : list (string * Z)) : string :=
  match ancestors with
  | [] => NO_PATH
  | (parent, _) :: _ => parent
  end.

(** The parent's recursive file count; [None] at the root boundary. *)
Definition row_parent_files (r : dir_row) : option Z :=
  match row_ancestors r with
  | [] => None
  | (_, files) :: _ => Some files
  end.

(** A top-level vacant directory: no file in or below it, and its parent
    (if it has one in the walk) has some. *)
Definition top_level_vacant (r : dir_row) : Prop :=
  row_files r = 0 ∧ row_parent_files r ≠ Some 0.

(** The sum of the sizes of the files whose [stat] succeeded. *)
Definition sum_sizes (files : list (string * file_data)) : Z :=
  foldr (λ pf acc, default 0 (st_size pf.2) + acc) 0 files.

(** The largest size among the files whose [stat] succeeded, or the
    sentinel. *)
Definition max_size (files : list (string * file_data)) : Z :=
  foldr (λ pf acc, Z.max (default DEFAULT_LARGEST_SIZE (st_size pf.2)) acc)
    DEFAULT_LARGEST_SIZE files.

(** What [get_image_info] returns when it returns. *)
Definition probe (pf : string * file_data) : option ImageInfo :=
  match get_image_info pf.1 pf.2 globals_init with
  | Returns image_info _ => image_info
  | Exits _ => None
  end.

Definition is_txt (file_path : string) : bool :=
  ends_with (lowercase file_path) ".txt".

(** The word table after the text files among [files] have been counted. *)
Definition count_files (files : list (string * file_data))
    (table : gmap string Z) : gmap string Z :=
  foldl (λ t pf, if is_txt pf.1
                 then scan_words (default EmptyString (contents pf.2))
                        EmptyString t
                 else t) table files.

(** No fatal condition on a file: it can be opened if it is a text file,
    and [popen] gives a stream. *)
Definition file_ok (pf : string * file_data) : bool :=
  (if is_txt pf.1 then bool_decide (is_Some (contents pf.2)) else true)
  && match identify pf.2 with PipeNull => false | PipeStream _ _ => true end.

(** No fatal condition anywhere in the walk of [dir]. *)
Definition walkable (dir_path : string) (dir : node) : Prop :=
  (∃ entries, dir = Directory true entries)
  ∧ Forall (λ r, row_openable r = true) (dirs_under [] dir_path dir)
  ∧ Forall (λ pf, file_ok pf = true) (files_under dir_path dir).

(** What the [stat] block of the walker does to the statistics. *)
Definition largest_after (q : string) (size : option Z) (ds : DirStats)
  : string * Z :=
  match size with
  | Some size =>
      if size >? ds_largest_file_size ds then (clean_path q, size)
      else (ds_largest_file_path ds, ds_largest_file_size ds)
  | None => (ds_largest_file_path ds, ds_largest_file_size ds)
  end.

(** The regular files met by the loop of the walker over [entries]. *)
Definition files_in (dir_path : string) (entries : list (string * node))
  : list (string * file_data) :=
  over_entries files_under (λ p f, [(p, f)]) dir_path entries.

(** The directories met below [dir_path] by the loop over [entries]. *)
Definition dirs_in (ancestors : list (string * Z)) (dir_path : string)
    (entries : list (string * node)) : list dir_row :=
  over_entries (dirs_under ancestors) (λ _ _, []) dir_path entries.

(** The counters of a [DirStats] hold values of their type, and the largest
    size is a size or the sentinel. *)
Definition stats_in_range (ds : DirStats) : Prop :=
  to_long (ds_n_files ds) = ds_n_files ds
  ∧ to_long (ds_n_dirs ds) = ds_n_dirs ds
  ∧ to_long (ds_all_files_size ds) = ds_all_files_size ds
  ∧ DEFAULT_LARGEST_SIZE ≤ ds_largest_file_size ds.

(** How the statistics [ds0] and the tables [g] have changed once the files
    [files] and [dirs] directories have been walked. *)
Definition walked (files : list (string * file_data)) (dirs : nat)
    (ds0 : DirStats) (g : globals) (ds : DirStats) (g' : globals) : Prop :=
  ds_n_files ds = to_long (ds_n_files ds0 + Z.of_nat (length files))
  ∧ ds_n_dirs ds = to_long (ds_n_dirs ds0 + Z.of_nat dirs)
  ∧ ds_all_files_size ds = to_long (ds_all_files_size ds0 + sum_sizes files)
  ∧ ds_largest_file_size ds =
      Z.max (ds_largest_file_size ds0) (max_size files)
  ∧ (ds_largest_file_size ds = ds_largest_file_size ds0 →
     ds_largest_file_path ds = ds_largest_file_path ds0)
  ∧ ds_largest_images ds = ds_largest_images ds0 ++ omap probe files
  ∧ most_common_words_map g' = count_files files (most_common_words_map g).

(** The two bookkeeping tables hold the parent and the recursive file count
    of every directory in [rows]. *)
Definition rows_recorded (rows : list dir_row) (g : globals) : Prop :=
  ∀ r, r ∈ rows →
    parent_map g !! row_path r = Some (parent_of (row_ancestors r))
    ∧ n_files_map g !! row_path r = Some (to_int (row_files r)).

(** The two bookkeeping tables are the same in [g] and [g'] at every key
    outside [paths]. *)
Definition others_kept (paths : list string) (g g' : globals) : Prop :=
  ∀ k, k ∉ paths →
    parent_map g' !! k = parent_map g !! k
    ∧ n_files_map g' !! k = n_files_map g !! k.

(** The test of the vacancy resolver on one entry of [n_files_map], read
    from the tables [g]. *)
Definition vacant_entry (g : globals) (kv : string * Z) : bool :=
  (kv.2 =? 0)
  && (default 0 (n_files_map g !! default NO_PATH (parent_map g !! kv.1)) >? 0).

(** Every key the vacancy resolver looks up is present. *)
Definition tables_closed (g : globals) : Prop :=
  ∀ k, n_files_map g !! k = Some 0 →
    is_Some (parent_map g !! k)
    ∧ is_Some (n_files_map g !! default NO_PATH (parent_map g !! k)).

(** The tables once [n_files_map[NO_PATH] = 1] has been executed. *)
Definition seeded (g : globals) : globals :=
  set_n_files_map (<[NO_PATH := 1]> (n_files_map g)) g.

(** * Sample trees *)

Definition plain_file (size : Z) (bytes : string) : node :=
  RegFile {| st_size := Some size;
             contents := Some bytes;
             identify := PipeStream None 256 |}.

(** [a.txt] holding "hello hello world" next to an empty directory. *)
Definition hello_tree : node :=
  Directory true
    [("a.txt", plain_file 17 "hello hello world");
     ("empty", Directory true [])].

(** A tree with nested directories without files. *)
Definition vacancy_tree : node :=
  Directory true
    [("docs", Directory true [("notes.md", plain_file 12 "hello, world")]);
     ("old", Directory true [("x", Directory true []);
                             ("y", Directory true [("z", Directory true [])])]);
     ("tmp", Directory true [])].

(** * Words of a text *)

Fixpoint all_alpha (s : string) : bool :=
  match s with
  | EmptyString => true
  | String c s' => isalpha c && all_alpha s'
  end.

(** The text ends here or goes on with a character that is not
    alphabetic. *)
Definition run_ends (s : string) : bool :=
  match s with
  | EmptyString => true
  | String c _ => negb (isalpha c)
  end.

(** [alpha_runs s ws]: [ws] lists, in order, the maximal runs of alphabetic
    characters of [s].  A run is not empty, holds only alphabetic
    characters, and is followed by the end of the text or by a character
    that is not alphabetic; what precedes it is the start of the text or
    such a character. *)
Inductive alpha_runs : string → list string → Prop :=
| runs_end : alpha_runs EmptyString []
| runs_gap c s ws :
    isalpha c = false → alpha_runs s ws → alpha_runs (String c s) ws
| runs_word w s ws :
    w ≠ EmptyString → all_alpha w = true → run_ends s = true →
    alpha_runs s ws → alpha_runs (w +:+ s) (w :: ws).

(** The runs that count as words. *)
Definition long_enough (w : string) : Prop :=
  MIN_WORD_SIZE ≤ Z.of_nat (String.length w).

#[global] Instance long_enough_dec w : Decision (long_enough w).
Proof. unfold long_enough. apply _. Defined.

Definition words_of (ws : list string) : list string :=
  filter long_enough (lowercase <$> ws).

(** One increment of the table for each word of the list. *)
Definition count_words (words : list string) (table : gmap string Z)
  : gmap string Z :=
  foldl (λ t w, increment w t) table words.

(** A file for which [popen] returns no stream. *)
Definition unprobed_file : file_data :=
  {| st_size := Some 4; contents := Some "data"; identify := PipeNull |}.

(** The same file alone in the working directory. *)
Definition unprobed_tree : node :=
  Directory true [("photo.png", RegFile unprobed_file)].

(** The cases in which the prober, given a stream, finds no image: [fgets]
    read nothing, a dimension is missing or not positive, or the command
    ended with a status that is not zero. *)
Definition no_image (first_line : option string) (status : Z) : Prop :=
  first_line = None
  ∨ (read_dimensions first_line).1 ≤ 0
  ∨ (read_dimensions first_line).2 ≤ 0
  ∨ status ≠ SYSCALL_SUCCESS.



(** What a call returned, if it returned. *)
Definition result_of {A} (o : outcome A) : option A :=
  match o with
  | Returns a _ => Some a
  | Exits _ => None
  end.

(** The file of the scenario, whatever [stat] and [identify] report for it,
    and the empty directory next to it. *)
Definition hello_entry (size : option Z) (first_line : option string)
    (status : Z) : string * node :=
  ("a.txt", RegFile {| st_size := size;
                       contents := Some "hello hello world";
                       identify := PipeStream first_line status |}).

Definition empty_entry : string * node := ("empty", Directory true []).

(** * Counts stated as the specification words them *)

(** The directory itself plus the counts of its child directories. *)
Fixpoint dir_count (dir : node) : Z :=
  match dir with
  | Directory _ entries =>
      1 + foldr (λ entry acc,
                   (if is_pseudo_entry entry.1 then 0 else dir_count entry.2)
                   + acc) 0 entries
  | _ => 0
  end.

(** The sizes of the files whose [stat] succeeded. *)
Definition stat_sizes (files : list (string * file_data)) : list Z :=
  omap (λ pf, st_size pf.2) files.

Definition sum_list (l : list Z) : Z := foldr Z.add 0 l.

(** * The order of the two ranked lists *)

(** The pixel area of an image. *)
Definition area (image : ImageInfo) : Z := width image * height image.

(** Greater count first; equal counts by ascending word. *)
Definition word_order (a b : string * Z) : Prop :=
  b.2 < a.2 ∨ (a.2 = b.2 ∧ String.le a.1 b.1).

(** Greater area first; equal areas by ascending path. *)
Definition image_order (a b : ImageInfo) : Prop :=
  area b < area a ∨ (area a = area b ∧ String.le (path a) (path b)).

(** The same, on the areas as the comparator computes them in a [long]. *)
Definition image_order_long (a b : ImageInfo) : Prop :=
  to_long (area b) < to_long (area a)
  ∨ (to_long (area a) = to_long (area b) ∧ String.le (path a) (path b)).

(** The images of the tree, in the order the walker finds them. *)
Definition images_under (cwd : node) : list ImageInfo :=
  omap probe (files_under CURRENT_DIRECTORY cwd).

(** The area of every image fits a [long]. *)
Definition areas_fit (images : list ImageInfo) : Prop :=
  Forall (λ image, LONG_MIN ≤ area image ≤ LONG_MAX) images.

(** A file that [identify] reports as an image of the given dimensions. *)
Definition image_file (dimensions : string) : node :=
  RegFile {| st_size := Some 1024;
             contents := Some "";
             identify := PipeStream (Some dimensions) 0 |}.

(** Four images, two pairs of equal area, and a text. *)
Definition gallery_tree : node :=
  Directory true
    [("b.png", image_file "10 10");
     ("big.png", image_file "30 30");
     ("shots", Directory true [("a.png", image_file "20 5");
                               ("c.png", image_file "5 20")]);
     ("notes.txt", plain_file 29 "alpha gamma gamma alpha delta")].

(** Directories only. *)
Definition bare_tree : node :=
  Directory true [("empty", Directory true [("deeper", Directory true [])])].

(** * Statements proved by induction on the tree *)

(** A call of the walker that returns has [walked] the files and the
    directories below its directory. *)
Definition returns_walked (e : node) : Prop :=
  ∀ ancestors q pp g sub g1,
    get_dir_stats e q pp g = Returns sub g1 →
    walked (files_under q e) (length (tail (dirs_under ancestors q e)))
      DirStats_init g sub g1.

(** A call of the walker returns exactly when nothing below its directory
    is fatal. *)
Definition returns_iff (e : node) : Prop :=
  ∀ ancestors q pp g,
    (∃ sub g1, get_dir_stats e q pp g = Returns sub g1) ↔
    (∃ entries, e = Directory true entries)
    ∧ Forall (λ r, row_openable r = true) (dirs_under ancestors q e)
    ∧ Forall (λ pf, file_ok pf = true) (files_under q e).

(** A call of the walker that returns has recorded the rows of its
    directory and kept the other keys. *)
Definition records (e : node) : Prop :=
  ∀ ancestors q g sub g1,
    NoDup (row_path <$> dirs_under ancestors q e) →
    get_dir_stats e q (parent_of ancestors) g = Returns sub g1 →
    rows_recorded (dirs_under ancestors q e) g1
    ∧ others_kept (row_path <$> dirs_under ancestors q e) g g1.

(** What holds of every row below a directory: its path extends the path
    of the directory, it has no more files than the directory, its
    ancestors are rows or ancestors of the directory, and their counts
    ascend. *)
Definition row_facts (e : node) : Prop :=
  ∀ ancestors q r,
    r ∈ dirs_under ancestors q e →
    (String.length q ≤ String.length (row_path r))%nat
    ∧ 0 ≤ row_files r ≤ file_count q e
    ∧ (∀ a c, (a, c) ∈ row_ancestors r →
       (a, c) ∈ ancestors
       ∨ ∃ r', r' ∈ dirs_under ancestors q e
               ∧ row_path r' = a ∧ row_files r' = c)
    ∧ (StronglySorted Z.le (file_count q e :: ancestors.*2) →
       StronglySorted Z.le (row_files r :: (row_ancestors r).*2)).


(** * Further statements about the walk *)

(** The entries of a directory on which the loop of the walker does
    anything. *)
Definition counted (entry : string * node) : bool :=
  negb (is_pseudo_entry entry.1) && (is_file entry.2 || is_dir entry.2).

(** * Why a walk ends the process *)

(** [message] is what [print_error] is given for a directory of [rows]
    that cannot be opened, for a text file of [files] that cannot be
    opened, or for a file of [files] on which [popen] fails. *)
Definition exit_cause (rows : list dir_row) (files : list (string * file_data))
    (message : string) : Prop :=
  (∃ r, r ∈ rows ∧ row_openable r = false
        ∧ message = "could not opendir " +:+ row_path r)
  ∨ (∃ pf, pf ∈ files ∧ is_txt pf.1 = true ∧ contents pf.2 = None
           ∧ message = "could not open file " +:+ pf.1)
  ∨ (∃ pf, pf ∈ files ∧ identify pf.2 = PipeNull
           ∧ message = "could not call identify via popen on %s" +:+ pf.1).

(** A call of the walker on a directory that ends the process does so for
    a cause found in or below that directory. *)
Definition exits_explained (e : node) : Prop :=
  ∀ ancestors q pp g message,
    is_dir e = true →
    get_dir_stats e q pp g = Exits message →
    exit_cause (dirs_under ancestors q e) (files_under q e) message.

(** * The largest file *)

(** The largest size recorded in [ds] is still the sentinel, or it is the
    size [stat] gave for one of [files] and the recorded path is the
    cleaned path of that file. *)
Definition located (files : list (string * file_data)) (ds : DirStats)
  : Prop :=
  ds_largest_file_size ds = DEFAULT_LARGEST_SIZE
  ∨ ∃ pf, pf ∈ files
          ∧ st_size pf.2 = Some (ds_largest_file_size ds)
          ∧ ds_largest_file_path ds = clean_path pf.1.

(** Cleaning the path a second time changes nothing. *)
Definition cleaned_once (pf : string * file_data) : Prop :=
  clean_path (clean_path pf.1) = clean_path pf.1.

(** A call of the walker that returns has located its largest file among
    the files below its directory. *)
Definition returns_located (e : node) : Prop :=
  ∀ q pp g ds g',
    Forall cleaned_once (files_under q e) →
    get_dir_stats e q pp g = Returns ds g' →
    located (files_under q e) ds.

(** * The keys of the word table *)

Fixpoint all_lower (s : string) : bool :=
  match s with
  | EmptyString => true
  | String c s' => islower c && all_lower s'
  end.

(** What the counter takes for a word: lower-case letters only, at least
    [MIN_WORD_SIZE] of them. *)
Definition is_word (w : string) : Prop :=
  all_lower w = true ∧ MIN_WORD_SIZE ≤ Z.of_nat (String.length w).

Definition keys_are_words (table : gmap string Z) : Prop :=
  ∀ w count, table !! w = Some count → is_word w.

(** The ancestors of every row below a directory end with the ancestors
    of that directory. *)
Definition ancestors_extend (e : node) : Prop :=
  ∀ ancestors q r,
    r ∈ dirs_under ancestors q e →
    ∃ nearer, row_ancestors r = nearer ++ ancestors.

(** * Listings as a file system gives them *)

(** The name holds a path separator. *)
Fixpoint has_separator (name : string) : bool :=
  match name with
  | EmptyString => false
  | String c name' => Ascii.eqb c PATH_SEPARATOR || has_separator name'
  end.

(** Every directory in and below [e] lists each name once, and no name
    holds a path separator. *)
Fixpoint well_listed (e : node) : Prop :=
  match e with
  | Directory _ entries =>
      NoDup entries.*1
      ∧ (fix each (l : list (string * node)) : Prop :=
           match l with
           | [] => True
           | (name, sub) :: l' =>
               has_separator name = false ∧ well_listed sub ∧ each l'
           end) entries
  | _ => True
  end.

(** The rows below a well-listed directory have distinct paths. *)
Definition rows_distinct (e : node) : Prop :=
  ∀ ancestors q,
    well_listed e → NoDup (row_path <$> dirs_under ancestors q e).

(** * The same tree listed in another order *)

(** [reordered e e']: [e'] is [e] with the listing of any of its
    directories yielded by [readdir] in another order. *)
#[warnings="-register-all"]
Inductive reordered : node → node → Prop :=
| reordered_same e : reordered e e
| reordered_listing opendir_ok entries middle entries' :
    entries ≡ₚ middle →
    Forall2 (λ a b, a.1 = b.1 ∧ reordered a.2 b.2) middle entries' →
    reordered (Directory opendir_ok entries) (Directory opendir_ok entries').

(** Two entries are the same file, or directories that hold the same files
    and the same directories up to the order in which a walk meets them. *)
Definition same_content (e e' : node) : Prop :=
  (is_dir e = false → e' = e)
  ∧ is_dir e' = is_dir e
  ∧ (∀ q, files_under q e ≡ₚ files_under q e')
  ∧ (∀ ancestors q, dirs_under ancestors q e ≡ₚ dirs_under ancestors q e').

(** * The tables across calls *)

(** The two bookkeeping tables refer to each other's keys only: the parent
    recorded for a directory is the empty path or a key of [n_files_map],
    and every key of [n_files_map] but the empty path is a key of
    [parent_map]. *)
Definition tables_linked (g : globals) : Prop :=
  (∀ k p, parent_map g !! k = Some p →
          p = NO_PATH ∨ is_Some (n_files_map g !! p))
  ∧ (∀ k, is_Some (n_files_map g !! k) →
          k = NO_PATH ∨ is_Some (parent_map g !! k)).

(** No key of [n_files_map] is lost from [g] to [g']. *)
Definition counts_kept (g g' : globals) : Prop :=
  ∀ k, is_Some (n_files_map g !! k) → is_Some (n_files_map g' !! k).

(** A call of the walker that returns keeps the tables linked and the keys
    of [n_files_map]. *)
Definition keeps_linked (e : node) : Prop :=
  ∀ q pp g ds g',
    tables_linked g →
    pp = NO_PATH ∨ is_Some (n_files_map g !! pp) →
    get_dir_stats e q pp g = Returns ds g' →
    tables_linked g' ∧ counts_kept g g'.

(** * The count of a word *)



(** * Lines that give no image *)

(** White space only. *)
Fixpoint all_space (s : string) : bool :=
  match s with
  | EmptyString => true
  | String c s' => isspace c && all_space s'
  end.

(** The text ends here or goes on with a character that is not a digit. *)
Definition no_digit_next (s : string) : Prop :=
  match s with
  | EmptyString => True
  | String c _ => isdigit c = false
  end.

(** No number stands at the start of the text: after white space, if any,
    the text ends, or goes on with a character that is neither a digit nor
    a sign, or with a sign that no digit follows. *)
Inductive no_number : string → Prop :=
| no_number_end lead : all_space lead = true → no_number lead
| no_number_char lead c rest :
    all_space lead = true →
    isspace c = false → isdigit c = false →
    c ≠ "-"%char → c ≠ "+"%char →
    no_number (lead +:+ String c rest)
| no_number_sign lead c rest :
    all_space lead = true →
    c = "-"%char ∨ c = "+"%char →
    no_digit_next rest →
    no_number (lead +:+ String c rest).

(** The first lines that give no image, told by what they hold: no number
    at all; one number in decimal and no second one, so that a dimension
    is missing; or two numbers in decimal, separated by white space, one of
    which is not positive. *)
Inductive unusable_line : string → Prop :=
| line_no_number buffer : no_number buffer → unusable_line buffer
| line_one_number lead (w : Z) rest :
    all_space lead = true → no_number rest →
    unusable_line (lead +:+ pretty w +:+ rest)
| line_not_positive lead (w : Z) gap (h : Z) tail :
    all_space lead = true →
    all_space gap = true → gap ≠ EmptyString →
    no_digit_next tail →
    w ≤ 0 ∨ h ≤ 0 →
    unusable_line (lead +:+ pretty w +:+ gap +:+ pretty h +:+ tail).

(** What the prober meets, given a stream, when it finds no image:
    nothing to read, a line as above, or a command that ended with a
    status that is not zero. *)
Definition finds_no_image (first_line : option string) (status : Z) : Prop :=
  first_line = None
  ∨ (∃ buffer, first_line = Some buffer ∧ unusable_line buffer)
  ∨ status ≠ SYSCALL_SUCCESS.

(** * Words in small letters *)





(** * Properties *)

(** ** Machine integers *)

Lemma wrap_in_range bits z :
  0 < bits → - 2 ^ (bits - 1) ≤ z < 2 ^ (bits - 1) → wrap bits z = z.
Proof.
  intros Hb Hz. unfold wrap.
  assert (2 ^ bits = 2 * 2 ^ (bits - 1)) as ->.
  { rewrite <- Z.pow_succ_r by lia. f_equal. lia. }
  rewrite Z.mod_small; lia.
Qed.

Lemma wrap_add_l bits x y :
  0 < bits → wrap bits (wrap bits x + y) = wrap bits (x + y).
Proof.
  intros Hb. unfold wrap. f_equal.
  assert (0 < 2 ^ bits) by (apply Z.pow_pos_nonneg; lia).
  replace ((x + 2 ^ (bits - 1)) mod 2 ^ bits - 2 ^ (bits - 1) + y
           + 2 ^ (bits - 1))
    with ((x + 2 ^ (bits - 1)) mod 2 ^ bits + y) by lia.
  rewrite Zplus_mod_idemp_l. f_equal. lia.
Qed.

Lemma wrap_add_r bits x y :
  0 < bits → wrap bits (x + wrap bits y) = wrap bits (x + y).
Proof.
  intros Hb. rewrite (Z.add_comm x), wrap_add_l by done. f_equal. lia.
Qed.

Lemma to_long_in_range z : LONG_MIN ≤ z ≤ LONG_MAX → to_long z = z.
Proof.
  unfold LONG_MIN, LONG_MAX. intros ?. apply wrap_in_range; lia.
Qed.

Lemma to_int_in_range z : INT_MIN ≤ z ≤ INT_MAX → to_int z = z.
Proof.
  unfold INT_MIN, INT_MAX. intros ?. apply wrap_in_range; lia.
Qed.

Lemma to_long_add_l x y : to_long (to_long x + y) = to_long (x + y).
Proof. by apply wrap_add_l. Qed.

Lemma to_long_add_r x y : to_long (x + to_long y) = to_long (x + y).
Proof. by apply wrap_add_r. Qed.

Lemma to_int_add_l x y : to_int (to_int x + y) = to_int (x + y).
Proof. by apply wrap_add_l. Qed.

Lemma to_int_to_long z : to_int (to_long z) = to_int z.
Proof.
  unfold to_int, to_long, wrap. f_equal.
  change (2 ^ (64 - 1)) with 9223372036854775808.
  change (2 ^ 64) with 18446744073709551616.
  change (2 ^ (32 - 1)) with 2147483648.
  change (2 ^ 32) with 4294967296.
  pose proof (Z.div_mod (z + 9223372036854775808) 18446744073709551616
                ltac:(lia)) as Hd.
  set (q := (z + 9223372036854775808) / 18446744073709551616) in *.
  set (r := (z + 9223372036854775808) mod 18446744073709551616) in *.
  replace (r - 9223372036854775808 + 2147483648)
    with (z + 2147483648 + (- q * 4294967296) * 4294967296) by lia.
  apply Z_mod_plus_full.
Qed.

Global Arguments wrap : simpl never.
Global Arguments to_int : simpl never.
Global Arguments to_long : simpl never.

Lemma to_long_range z : LONG_MIN ≤ to_long z ≤ LONG_MAX.
Proof.
  unfold to_long, wrap, LONG_MIN, LONG_MAX.
  change (2 ^ (64 - 1)) with 9223372036854775808.
  change (2 ^ 64) with 18446744073709551616.
  change (2 ^ 63) with 9223372036854775808.
  pose proof (Z.mod_pos_bound (z + 9223372036854775808) 18446744073709551616
                ltac:(lia)).
  lia.
Qed.

Lemma to_long_idemp z : to_long (to_long z) = to_long z.
Proof. apply to_long_in_range, to_long_range. Qed.

Lemma to_int_range z : INT_MIN ≤ to_int z ≤ INT_MAX.
Proof.
  unfold to_int, wrap, INT_MIN, INT_MAX.
  change (2 ^ (32 - 1)) with 2147483648.
  change (2 ^ 32) with 4294967296.
  change (2 ^ 31) with 2147483648.
  pose proof (Z.mod_pos_bound (z + 2147483648) 4294967296 ltac:(lia)).
  lia.
Qed.

Lemma to_int_idemp z : to_int (to_int z) = to_int z.
Proof. apply to_int_in_range, to_int_range. Qed.

Lemma to_int_add_long a x : to_int (to_long (a + to_long x)) = to_int (a + x).
Proof. by rewrite to_long_add_r, to_int_to_long. Qed.

(** ** Calls that return *)

Lemma bind_returns {A B} (m : Run A) (k : A → Run B) g b g' :
  (m ≫= k) g = Returns b g' ↔
  ∃ a g1, m g = Returns a g1 ∧ k a g1 = Returns b g'.
Proof.
  unfold mbind, Run_bind. destruct (m g) as [a g1|msg]; split.
  - eauto.
  - by intros (? & ? & [= <- <-] & ?).
  - done.
  - by intros (? & ? & ? & ?).
Qed.


Lemma bind_step {A B} (m : Run A) (k : A → Run B) g a g1 :
  m g = Returns a g1 → (m ≫= k) g = k a g1.
Proof. unfold mbind, Run_bind. by intros ->. Qed.

Lemma node_nested_ind (P : node → Prop) :
  (∀ f, P (RegFile f)) →
  (∀ opendir_ok entries,
     Forall (λ e, P e.2) entries → P (Directory opendir_ok entries)) →
  P Special →
  ∀ n, P n.
Proof.
  intros Hfile Hdir Hspecial. fix IH 1. intros [f|ok entries|].
  - apply Hfile.
  - apply Hdir. induction entries as [|[name e] entries IHentries].
    + constructor.
    + constructor; [apply IH | apply IHentries].
  - apply Hspecial.
Qed.

(** ** One file *)

Lemma get_image_info_probe p f g :
  identify f ≠ PipeNull →
  get_image_info p f g = Returns (probe (p, f)) g.
Proof.
  intros Hid. unfold probe, get_image_info; simpl.
  destruct (identify f) as [|line status]; [done|].
  destruct (read_dimensions line) as [w h].
  by destruct ((status =? SYSCALL_SUCCESS) && (w >? 0) && (h >? 0)).
Qed.

Lemma visit_file_returns p q f ds g ds' g' :
  visit_file p q f ds g = Returns ds' g' →
  file_ok (q, f) = true
  ∧ ds_n_files ds' = to_long (ds_n_files ds + 1)
  ∧ ds_n_dirs ds' = ds_n_dirs ds
  ∧ ds_all_files_size ds' =
      match st_size f with
      | Some size => to_long (ds_all_files_size ds + size)
      | None => ds_all_files_size ds
      end
  ∧ (ds_largest_file_path ds', ds_largest_file_size ds') =
      largest_after q (st_size f) ds
  ∧ ds_largest_images ds' = ds_largest_images ds ++ option_list (probe (q, f))
  ∧ parent_map g' = parent_map g
  ∧ n_files_map g' = increment p (n_files_map g)
  ∧ most_common_words_map g' = count_files [(q, f)] (most_common_words_map g).
Proof.
  unfold visit_file. intros H. cbv zeta in H.
  apply bind_returns in H as ([] & g1 & [= <-] & H).
  apply bind_returns in H as ([] & g2 & Hwords & H).
  apply bind_returns in H as (image_info & g3 & Himage & [= <- <-]).
  assert (identify f ≠ PipeNull) as Hid.
  { intros Hid. unfold get_image_info in Himage. by rewrite Hid in Himage. }
  rewrite (get_image_info_probe _ _ _ Hid) in Himage.
  injection Himage as <- <-.
  unfold file_ok, count_files, is_txt; simpl.
  assert ((if ends_with (lowercase q) ".txt"
           then bool_decide (is_Some (contents f)) else true) = true
          ∧ parent_map g2 = parent_map g
          ∧ n_files_map g2 = increment p (n_files_map g)
          ∧ most_common_words_map g2 =
              (if ends_with (lowercase q) ".txt"
               then scan_words (default EmptyString (contents f)) EmptyString
                      (most_common_words_map g)
               else most_common_words_map g)) as (Hok & Hp & Hn & Hw).
  { destruct (ends_with (lowercase q) ".txt").
    - unfold count_words_in_file in Hwords.
      destruct (contents f) as [bytes|]; [|done].
      by injection Hwords as <-.
    - by injection Hwords as <-. }
  rewrite Hok, Hp, Hn, Hw.
  split_and!; try done.
  - by destruct (identify f).
  - by destruct (probe (q, f)), (st_size f) as [size|];
      [destruct (size >? _)| |destruct (size >? _)|].
  - by destruct (probe (q, f)), (st_size f) as [size|];
      [destruct (size >? _)| |destruct (size >? _)|].
  - by destruct (probe (q, f)), (st_size f) as [size|];
      [destruct (size >? _)| |destruct (size >? _)|].
  - destruct (probe (q, f)), (st_size f) as [size|]; simpl;
      try destruct (size >? _); done.
  - destruct (probe (q, f)), (st_size f) as [size|]; simpl;
      try destruct (size >? _); simpl; try done; by rewrite app_nil_r.
Qed.

Lemma visit_file_returns_iff p q f ds g :
  file_ok (q, f) = true ↔ ∃ ds' g', visit_file p q f ds g = Returns ds' g'.
Proof.
  split; [|by intros (? & ? & [? _]%visit_file_returns)].
  unfold file_ok, is_txt; simpl. intros [Htxt Hid]%andb_true_iff.
  assert (identify f ≠ PipeNull) as Hid' by (by destruct (identify f)).
  unfold visit_file. cbv zeta.
  erewrite bind_step by done.
  destruct (ends_with (lowercase q) ".txt") eqn:Hq.
  - apply bool_decide_eq_true in Htxt as [bytes Hbytes].
    erewrite bind_step; [|unfold count_words_in_file; by rewrite Hbytes].
    erewrite bind_step by (by apply get_image_info_probe).
    eauto.
  - erewrite bind_step by done.
    erewrite bind_step by (by apply get_image_info_probe).
    eauto.
Qed.

(** ** Merging a subdirectory *)

Lemma merge_subdir_returns p sub ds g :
  ∃ ds' g',
    merge_subdir p sub ds g = Returns ds' g'
    ∧ ds_n_files ds' = to_long (ds_n_files ds + ds_n_files sub)
    ∧ ds_n_dirs ds' = to_long (ds_n_dirs ds + ds_n_dirs sub)
    ∧ ds_all_files_size ds' =
        to_long (ds_all_files_size ds + ds_all_files_size sub)
    ∧ (ds_largest_file_path ds', ds_largest_file_size ds') =
        (if ds_largest_file_size sub >? ds_largest_file_size ds
         then (clean_path (ds_largest_file_path sub), ds_largest_file_size sub)
         else (ds_largest_file_path ds, ds_largest_file_size ds))
    ∧ ds_largest_images ds' = ds_largest_images ds ++ ds_largest_images sub
    ∧ parent_map g' = parent_map g
    ∧ n_files_map g' = add_long p (ds_n_files sub) (n_files_map g)
    ∧ most_common_words_map g' = most_common_words_map g.
Proof.
  unfold merge_subdir. cbv zeta.
  erewrite bind_step by done.
  eexists _, _. split; [done|].
  by destruct (ds_largest_file_size sub >? ds_largest_file_size ds).
Qed.

(** ** Folds over the files *)

Lemma sum_sizes_app l1 l2 : sum_sizes (l1 ++ l2) = sum_sizes l1 + sum_sizes l2.
Proof. unfold sum_sizes. induction l1 as [|pf l1 IH]; simpl; lia. Qed.

Lemma max_size_app l1 l2 :
  max_size (l1 ++ l2) = Z.max (max_size l1) (max_size l2).
Proof.
  unfold max_size. induction l1 as [|pf l1 IH]; simpl.
  - induction l2 as [|pf l2 IH]; simpl; lia.
  - rewrite IH. lia.
Qed.

Lemma max_size_ge l : DEFAULT_LARGEST_SIZE ≤ max_size l.
Proof. unfold max_size. induction l as [|pf l IH]; simpl; lia. Qed.

Lemma count_files_app l1 l2 table :
  count_files (l1 ++ l2) table = count_files l2 (count_files l1 table).
Proof. unfold count_files. by rewrite foldl_app. Qed.

(** ** Composing walks *)

Lemma walked_refl ds g : stats_in_range ds → walked [] 0 ds g ds g.
Proof.
  intros (Hf & Hd & Hs & Hl). unfold walked; simpl.
  rewrite !Z.add_0_r, Hf, Hd, Hs, app_nil_r.
  change (max_size []) with DEFAULT_LARGEST_SIZE.
  split_and!; try done. lia.
Qed.

Lemma walked_trans F1 n1 F2 n2 ds0 g0 ds1 g1 ds2 g2 :
  walked F1 n1 ds0 g0 ds1 g1 →
  walked F2 n2 ds1 g1 ds2 g2 →
  walked (F1 ++ F2) (n1 + n2) ds0 g0 ds2 g2.
Proof.
  intros (Hf1 & Hd1 & Hs1 & Hl1 & Hp1 & Hi1 & Hw1)
         (Hf2 & Hd2 & Hs2 & Hl2 & Hp2 & Hi2 & Hw2).
  unfold walked.
  rewrite length_app, sum_sizes_app, max_size_app, omap_app, count_files_app.
  rewrite Hf2, Hf1, Hd2, Hd1, Hs2, Hs1, Hl2, Hi2, Hi1, Hw2, Hw1.
  rewrite !to_long_add_l.
  split_and!; try (f_equal; lia); try done.
  - rewrite Hl1. lia.
  - intros Heq. rewrite Hp2, Hp1; [done|lia..].
  - by rewrite app_assoc.
Qed.

Lemma walked_in_range F n ds0 g0 ds g :
  stats_in_range ds0 → walked F n ds0 g0 ds g → stats_in_range ds.
Proof.
  intros (_ & _ & _ & Hl0) (Hf & Hd & Hs & Hl & _).
  unfold stats_in_range. rewrite Hf, Hd, Hs, Hl, !to_long_idemp.
  split_and!; try done. lia.
Qed.

Lemma visit_file_walked p q f ds g ds' g' :
  stats_in_range ds →
  visit_file p q f ds g = Returns ds' g' → walked [(q, f)] 0 ds g ds' g'.
Proof.
  intros (_ & Hd0 & Hs0 & Hl0).
  intros (_ & Hf & Hd & Hs & Hl & Hi & _ & _ & Hw)%visit_file_returns.
  unfold walked. rewrite Hf, Hd, Hs, Hi, Hw, Z.add_0_r, Hd0. simpl.
  unfold largest_after in Hl. unfold max_size, sum_sizes. simpl.
  destruct (st_size f) as [size|]; simpl.
  - rewrite Z.add_0_r.
    destruct (size >? ds_largest_file_size ds) eqn:Hgt;
      injection Hl as -> ->; split_and!; try done; lia.
  - injection Hl as -> ->. rewrite Z.add_0_r, Hs0.
    split_and!; try done; lia.
Qed.

Lemma merge_subdir_walked p F n g sub g1 ds0 ds' g2 :
  walked F n DirStats_init g sub g1 →
  merge_subdir p sub ds0 g1 = Returns ds' g2 →
  walked F (S n) ds0 g ds' g2.
Proof.
  intros (Hf & Hd & Hs & Hl & _ & Hi & Hw) Hmerge.
  destruct (merge_subdir_returns p sub ds0 g1)
    as (ds'' & g'' & Heq & Hf' & Hd' & Hs' & Hl' & Hi' & _ & _ & Hw').
  rewrite Hmerge in Heq. injection Heq as <- <-.
  unfold walked.
  rewrite Hf', Hd', Hs', Hi', Hw', Hf, Hd, Hs, Hi, Hw. simpl.
  rewrite !to_long_add_r.
  rewrite Hl in Hl'. simpl in Hl'.
  pose proof (max_size_ge F).
  destruct (Z.max DEFAULT_LARGEST_SIZE (max_size F)
            >? ds_largest_file_size ds0) eqn:Hgt;
    injection Hl' as -> ->.
  - split_and!; try done; try (f_equal; lia); lia.
  - split_and!; try done; try (f_equal; lia); lia.
Qed.

Section walk_statistics.
Lemma readdir_loop_walked ancestors p entries :
  Forall (λ e, returns_walked e.2) entries →
  ∀ ds0 g ds g',
    stats_in_range ds0 →
    readdir_loop get_dir_stats p entries ds0 g = Returns ds g' →
    walked (files_in p entries) (length (dirs_in ancestors p entries))
      ds0 g ds g'.
Proof.
  induction 1 as [|[name e] entries IHe _ IH]; intros ds0 g ds g' Hr Hloop.
  - injection Hloop as <- <-. by apply walked_refl.
  - unfold files_in, dirs_in in *. cbn [over_entries]. simpl in Hloop.
    destruct (is_pseudo_entry name); [by apply IH|].
    destruct e as [f|ok sub_entries|].
    + apply bind_returns in Hloop as (ds1 & g1 & Hfile & Hloop).
      pose proof (visit_file_walked _ _ _ _ _ _ _ Hr Hfile) as Hw1.
      apply (walked_trans [_] 0 _ _ _ _ _ _ _ _ Hw1).
      apply IH; [|done]. by eapply walked_in_range.
    + apply bind_returns in Hloop as (sub & g1 & Hsub & Hloop).
      apply bind_returns in Hloop as (ds1 & g2 & Hmerge & Hloop).
      apply (IHe ancestors) in Hsub.
      pose proof (merge_subdir_walked _ _ _ _ _ _ _ _ _ Hsub Hmerge) as Hw1.
      rewrite length_app.
      eapply walked_trans; [exact Hw1|].
      apply IH; [|done]. by eapply walked_in_range.
    + by apply IH.
Qed.

Lemma get_dir_stats_walked e : returns_walked e.
Proof.
  induction e as [f|ok entries IH|] using node_nested_ind;
    intros ancestors q pp g sub g1 Hrun; try done.
  destruct ok; [|done]. simpl in Hrun.
  apply bind_returns in Hrun as ([] & g' & [= <-] & Hrun).
  apply bind_returns in Hrun as ([] & g' & [= <-] & Hrun).
  simpl.
  eapply (readdir_loop_walked _ _ _ IH) in Hrun.
  - destruct Hrun as (? & ? & ? & ? & ? & ? & ?). by split_and!.
  - unfold stats_in_range. simpl. by rewrite !to_long_in_range by done.
Qed.
End walk_statistics.

(** ** When the walk returns *)

Section walk_returns.
Lemma readdir_loop_returns_iff ancestors p entries :
  Forall (λ e, returns_iff e.2) entries →
  ∀ ds0 g,
    (∃ ds g', readdir_loop get_dir_stats p entries ds0 g = Returns ds g') ↔
    Forall (λ r, row_openable r = true) (dirs_in ancestors p entries)
    ∧ Forall (λ pf, file_ok pf = true) (files_in p entries).
Proof.
  induction 1 as [|[name e] entries IHe _ IH]; intros ds0 g.
  - split; [by intros _; split; constructor|]. intros _. by eexists _, _.
  - unfold files_in, dirs_in in *. cbn [over_entries readdir_loop].
    destruct (is_pseudo_entry name); [by apply IH|].
    destruct e as [f|ok sub_entries|]; [| |by apply IH].
    + rewrite app_nil_l, Forall_app, Forall_singleton. split.
      * intros (ds & g' & (ds1 & g1 & Hfile & Hloop)%bind_returns).
        destruct (proj1 (IH ds1 g1)) as [Hd Hf]; [by eauto|].
        split_and!; try done.
        apply (visit_file_returns_iff p _ _ ds0 g). eauto.
      * intros (Hd & Hf1 & Hf).
        apply (visit_file_returns_iff p _ _ ds0 g) in Hf1
          as (ds1 & g1 & Hfile).
        destruct (proj2 (IH ds1 g1)) as (ds & g' & Hloop); [done|].
        exists ds, g'. by rewrite (bind_step _ _ _ _ _ Hfile).
    + rewrite !Forall_app. split.
      * intros (ds & g' & (sub & g1 & Hsub & Hloop)%bind_returns).
        apply bind_returns in Hloop as (ds1 & g2 & Hmerge & Hloop).
        destruct (proj1 (IH ds1 g2)) as [Hd Hf]; [by eauto|].
        destruct (proj1 (IHe ancestors (join_path p name) p g))
          as (_ & Hd1 & Hf1); [by eauto|].
        done.
      * intros ((Hd1 & Hd) & Hf1 & Hf).
        destruct (proj2 (IHe ancestors (join_path p name) p g))
          as (sub & g1 & Hsub).
        { split_and!; try done. inversion Hd1 as [|?? Hok _]; subst.
          simpl in Hok. subst. eauto. }
        destruct (merge_subdir_returns p sub ds0 g1)
          as (ds1 & g2 & Hmerge & _).
        destruct (proj2 (IH ds1 g2)) as (ds & g' & Hloop); [done|].
        exists ds, g'.
        by rewrite (bind_step _ _ _ _ _ Hsub), (bind_step _ _ _ _ _ Hmerge).
Qed.

Lemma get_dir_stats_returns_iff e : returns_iff e.
Proof.
  induction e as [f|ok entries IH|] using node_nested_ind;
    intros ancestors q pp g.
  - split; [by intros (? & ? & ?)|by intros [[? ?] _]].
  - destruct ok.
    + cbn [dirs_under files_under]. rewrite Forall_cons.
      pose proof (readdir_loop_returns_iff
        ((q, file_count q (Directory true entries)) :: ancestors) q _ IH)
        as Hloop.
      unfold files_in, dirs_in in Hloop. split.
      * intros (ds & g' & H). simpl in H.
        apply bind_returns in H as ([] & g1 & _ & H).
        apply bind_returns in H as ([] & g2 & _ & H).
        destruct (proj1 (Hloop DirStats_init g2)) as [? ?]; [by eauto|].
        split_and!; eauto.
      * intros (_ & [_ Hd] & Hf).
        destruct (proj2 (Hloop DirStats_init
          (set_n_files_map (<[q := 0]> (n_files_map
             (set_parent_map (<[q := pp]> (parent_map g)) g)))
             (set_parent_map (<[q := pp]> (parent_map g)) g))))
          as (ds & g' & H); [done|].
        by exists ds, g'.
    + split; [by intros (? & ? & ?)|by intros [[? [=]] _]].
  - split; [by intros (? & ? & ?)|by intros [[? ?] _]].
Qed.
End walk_returns.

Lemma get_dir_stats_returns_walkable dir p pp g :
  (∃ ds g', get_dir_stats dir p pp g = Returns ds g') ↔ walkable p dir.
Proof. apply get_dir_stats_returns_iff. Qed.

(** ** The bookkeeping tables after a walk *)

Section walk_tables.
Lemma readdir_loop_records ancestors p fc entries :
  Forall (λ e, records e.2) entries →
  ∀ ds0 g ds g' c0,
    NoDup (p :: (row_path <$> dirs_in ((p, fc) :: ancestors) p entries)) →
    n_files_map g !! p = Some c0 →
    to_int c0 = c0 →
    readdir_loop get_dir_stats p entries ds0 g = Returns ds g' →
    n_files_map g' !! p =
      Some (to_int (c0 + Z.of_nat (length (files_in p entries))))
    ∧ parent_map g' !! p = parent_map g !! p
    ∧ rows_recorded (dirs_in ((p, fc) :: ancestors) p entries) g'
    ∧ others_kept
        (p :: (row_path <$> dirs_in ((p, fc) :: ancestors) p entries)) g g'.
Proof.
  induction 1 as [|[name e] entries IHe _ IH];
    intros ds0 g ds g' c0 Hnd Hc0 Hint Hloop.
  - injection Hloop as <- <-. simpl. rewrite Z.add_0_r, Hint.
    split_and!; try done. intros r Hr. by apply elem_of_nil in Hr.
  - unfold files_in, dirs_in in *. cbn [over_entries] in *. simpl in Hloop.
    destruct (is_pseudo_entry name); [by eapply IH|].
    destruct e as [f|ok sub_entries|]; [| |by eapply IH].
    + apply bind_returns in Hloop as (ds1 & g1 & Hfile & Hloop).
      apply visit_file_returns in Hfile
        as (_ & _ & _ & _ & _ & _ & Hp1 & Hn1 & _).
      rewrite app_nil_l in *.
      destruct (IH ds1 g1 ds g' (to_int (c0 + 1))) as (Hc & Hp & Hr & Hk);
        try done.
      { rewrite Hn1. unfold increment. by rewrite lookup_insert_eq, Hc0. }
      { apply to_int_idemp. }
      rewrite Hc, Hp, Hp1, to_int_add_l, length_app. simpl.
      split_and!; try done; [f_equal; f_equal; lia|].
      intros k Hk'. destruct (Hk k Hk') as [-> ->]. rewrite Hp1, Hn1.
      split; [done|]. unfold increment. rewrite lookup_insert_ne; [done|].
      intros ->. apply Hk'. by left.
    + apply bind_returns in Hloop as (sub & g1 & Hsub & Hloop).
      apply bind_returns in Hloop as (ds1 & g2 & Hmerge & Hloop).
      rewrite fmap_app in Hnd.
      apply NoDup_cons in Hnd as [Hp Hnd].
      apply NoDup_app in Hnd as (Hnd1 & Hdisj & Hnd2).
      apply not_elem_of_app in Hp as [Hp1 Hp2].
      pose proof (get_dir_stats_walked _ ((p, fc) :: ancestors) _ _ _ _ _
                    Hsub) as (Hfiles & _).
      destruct (IHe ((p, fc) :: ancestors) _ _ _ _ Hnd1 Hsub)
        as [Hrec1 Hkept1].
      destruct (merge_subdir_returns p sub ds0 g1)
        as (ds1' & g2' & Heq & _ & _ & _ & _ & _ & Hpm & Hnm & _).
      rewrite Hmerge in Heq. injection Heq as <- <-.
      destruct (Hkept1 p Hp1) as [Hpp Hnp].
      destruct (IH ds1 g2 ds g'
                  (to_int (c0 + Z.of_nat (length (files_under
                     (join_path p name) (Directory ok sub_entries))))))
        as (Hc & Hpar & Hrec2 & Hkept2); try done.
      { by apply NoDup_cons. }
      { rewrite Hnm. unfold add_long.
        rewrite lookup_insert_eq, Hnp, Hc0, Hfiles. simpl.
        by rewrite Z.add_0_l, to_int_add_long. }
      { apply to_int_idemp. }
      rewrite Hc, Hpar, Hpm, Hpp, to_int_add_l, length_app.
      split_and!; try done; [f_equal; f_equal; lia| |].
      * intros r [Hr|Hr]%elem_of_app; [|by apply Hrec2].
        assert (row_path r ∈ row_path <$>
                  dirs_under ((p, fc) :: ancestors) (join_path p name)
                    (Directory ok sub_entries)) as Hin
          by (by apply list_elem_of_fmap_2).
        destruct (Hkept2 (row_path r)) as [-> ->].
        { apply not_elem_of_cons. split; [|by apply Hdisj].
          intros Heq. apply Hp1. by rewrite Heq in Hin. }
        rewrite Hpm, Hnm. unfold add_long.
        rewrite lookup_insert_ne; [by apply Hrec1|].
        intros Heq. apply Hp1. by rewrite <- Heq in Hin.
      * intros k Hk. rewrite fmap_app in Hk.
        apply not_elem_of_cons in Hk as [Hkp Hk].
        apply not_elem_of_app in Hk as [Hk1 Hk2].
        destruct (Hkept2 k) as [-> ->].
        { by apply not_elem_of_cons. }
        rewrite Hpm, Hnm. unfold add_long.
        rewrite lookup_insert_ne by done. by apply Hkept1.
Qed.

Lemma get_dir_stats_records e : records e.
Proof.
  induction e as [f|ok entries IH|] using node_nested_ind;
    intros ancestors q g sub g1 Hnd Hrun; try done.
  destruct ok; [|done]. simpl in Hrun.
  apply bind_returns in Hrun as ([] & g' & [= <-] & Hrun).
  apply bind_returns in Hrun as ([] & g' & [= <-] & Hrun).
  cbn [dirs_under] in *. rewrite fmap_cons in Hnd. simpl in Hnd.
  eapply (readdir_loop_records ancestors q
            (file_count q (Directory true entries)) _ IH _ _ _ _ 0)
    in Hrun as (Hc & Hp & Hrec & Hkept); try done.
  - simpl in Hc, Hp. rewrite lookup_insert_eq in Hp. split.
    + intros r [->|Hr]%elem_of_cons; [|by apply Hrec]. simpl. by split.
    + intros k Hk. destruct (Hkept k Hk) as [-> ->]. simpl.
      apply not_elem_of_cons in Hk as [Hk _].
      by rewrite !lookup_insert_ne by done.
  - simpl. by rewrite lookup_insert_eq.
Qed.
End walk_tables.

(** ** The rows of a tree *)

Lemma files_in_cons p name e entries :
  files_in p ((name, e) :: entries) =
  (if is_pseudo_entry name then []
   else match e with
        | RegFile f => [(join_path p name, f)]
        | Directory _ _ => files_under (join_path p name) e
        | Special => []
        end) ++ files_in p entries.
Proof. done. Qed.

Lemma dirs_in_cons ancestors p name e entries :
  dirs_in ancestors p ((name, e) :: entries) =
  (if is_pseudo_entry name then []
   else match e with
        | RegFile f => []
        | Directory _ _ => dirs_under ancestors (join_path p name) e
        | Special => []
        end) ++ dirs_in ancestors p entries.
Proof. done. Qed.

Lemma dirs_under_Directory ancestors p ok entries :
  dirs_under ancestors p (Directory ok entries) =
  MkRow p ancestors (file_count p (Directory ok entries)) ok
  :: dirs_in ((p, file_count p (Directory ok entries)) :: ancestors) p entries.
Proof. done. Qed.

Lemma file_count_Directory p ok entries :
  file_count p (Directory ok entries) = Z.of_nat (length (files_in p entries)).
Proof. done. Qed.

Lemma file_count_nonneg p e : 0 ≤ file_count p e.
Proof. unfold file_count. lia. Qed.

Lemma join_path_length p name :
  String.length (join_path p name) = S (String.length p + String.length name).
Proof.
  unfold join_path. induction p as [|c p IH]; simpl; [done|].
  by rewrite IH.
Qed.

(** A row found below an entry of a directory. *)
Lemma elem_of_dirs_in ancestors p entries r :
  r ∈ dirs_in ancestors p entries ↔
  ∃ name e, (name, e) ∈ entries ∧ is_pseudo_entry name = false
            ∧ r ∈ dirs_under ancestors (join_path p name) e.
Proof.
  induction entries as [|[name e] entries IH].
  - split; [by intros ?%elem_of_nil|].
    by intros (? & ? & ?%elem_of_nil & _).
  - rewrite dirs_in_cons, elem_of_app, IH. split.
    + intros [Hr|(name' & e' & Hin & Hps & Hr)].
      * exists name, e. destruct (is_pseudo_entry name);
          [by apply elem_of_nil in Hr|].
        split_and!; [by left|done|].
        destruct e; try done; by apply elem_of_nil in Hr.
      * exists name', e'. split_and!; [by right|done..].
    + intros (name' & e' & [[= -> ->]|Hin]%elem_of_cons & Hps & Hr).
      * left. rewrite Hps. destruct e; try done.
      * right. eauto.
Qed.

(** The files below an entry are among the files below the directory. *)
Lemma files_in_entry_length p entries name e :
  (name, e) ∈ entries → is_pseudo_entry name = false →
  file_count (join_path p name) e ≤ Z.of_nat (length (files_in p entries)).
Proof.
  induction entries as [|[name' e'] entries IH]; [by intros ?%elem_of_nil|].
  intros [[= <- <-]|Hin]%elem_of_cons Hps;
    rewrite files_in_cons, length_app.
  - rewrite Hps. unfold file_count. destruct e; simpl; lia.
  - specialize (IH Hin Hps). lia.
Qed.

Section rows.
Lemma dirs_under_row_facts e : row_facts e.
Proof.
  induction e as [f|ok entries IH|] using node_nested_ind;
    intros ancestors q r Hr; try by apply elem_of_nil in Hr.
  rewrite dirs_under_Directory in Hr.
  apply elem_of_cons in Hr as [->|Hr].
  { simpl. pose proof (file_count_nonneg q (Directory ok entries)).
    split_and!; try done; try lia. by left. }
  apply elem_of_dirs_in in Hr as (name & e & Hin & Hps & Hr).
  rewrite Forall_forall in IH.
  destruct (IH _ Hin _ _ _ Hr) as (Hlen & Hfiles & Hanc & Hsorted).
  simpl in Hfiles, Hanc, Hsorted.
  pose proof (files_in_entry_length q _ _ _ Hin Hps) as Hle.
  rewrite <- (file_count_Directory q ok) in Hle.
  split_and!.
  - rewrite join_path_length in Hlen. lia.
  - lia.
  - lia.
  - intros a c Hac. destruct (Hanc a c Hac) as [Hup|(r' & Hr' & Ha & Hc)].
    + apply elem_of_cons in Hup as [[= -> ->]|Hup]; [|by left].
      right. eexists. split; [rewrite dirs_under_Directory; by left|done].
    + right. exists r'. split; [|done].
      rewrite dirs_under_Directory. right.
      apply elem_of_dirs_in. eauto.
  - intros Hs. apply Hsorted. simpl.
    apply StronglySorted_cons in Hs as Hs'. destruct Hs' as [Hall _].
    constructor; [done|]. constructor; [by simpl|].
    eapply Forall_impl; [exact Hall|]. simpl. intros; lia.
Qed.
End rows.

(** ** The vacancy resolver *)

Lemma set_parent_map_id g : set_parent_map (parent_map g) g = g.
Proof. by destruct g. Qed.

Lemma set_n_files_map_id g : set_n_files_map (n_files_map g) g = g.
Proof. by destruct g. Qed.

Lemma parent_map_at_present g k v :
  parent_map g !! k = Some v → parent_map_at k g = Returns v g.
Proof.
  intros Hk. unfold parent_map_at, subscript.
  destruct (parent_map g !! k) as [v'|]; [|done].
  injection Hk as ->. by rewrite set_parent_map_id.
Qed.

Lemma n_files_map_at_present g k v :
  n_files_map g !! k = Some v → n_files_map_at k g = Returns v g.
Proof.
  intros Hk. unfold n_files_map_at, subscript.
  destruct (n_files_map g !! k) as [v'|]; [|done].
  injection Hk as ->. by rewrite set_n_files_map_id.
Qed.

Lemma vacant_loop_returns g items top :
  (∀ kv, kv ∈ items → kv.2 = 0 →
     is_Some (parent_map g !! kv.1)
     ∧ is_Some (n_files_map g !! default NO_PATH (parent_map g !! kv.1))) →
  vacant_loop items top g =
  Returns (top ++ (clean_path ∘ fst <$> filter (λ kv, vacant_entry g kv) items))
    g.
Proof.
  revert top. induction items as [|[k v] items IH]; intros top Hpresent.
  - simpl. by rewrite app_nil_r.
  - assert (∀ top, vacant_loop items top g =
              Returns (top ++ (clean_path ∘ fst <$>
                         filter (λ kv, vacant_entry g kv) items)) g) as IH'.
    { intros top'. apply IH. intros kv Hkv. apply Hpresent. by right. }
    rewrite filter_cons. cbn [vacant_loop].
    destruct (v =? 0) eqn:Hv.
    + destruct (Hpresent (k, v)) as [[parent Hparent] [pn Hpn]];
        [by left|simpl; lia|].
      cbn [fst snd] in Hparent, Hpn. rewrite Hparent in Hpn.
      change (default NO_PATH (Some parent)) with parent in Hpn.
      rewrite (bind_step _ _ _ _ _ (parent_map_at_present _ _ _ Hparent)).
      rewrite (bind_step _ _ _ _ _ (n_files_map_at_present _ _ _ Hpn)).
      assert (vacant_entry g (k, v) = (pn >? 0)) as Hentry.
      { unfold vacant_entry. cbn [fst snd]. rewrite Hv, Hparent.
        change (default NO_PATH (Some parent)) with parent.
        by rewrite Hpn. }
      destruct (pn >? 0).
      * rewrite decide_True by (by apply Is_true_true).
        rewrite IH'. simpl. by rewrite <- app_assoc.
      * rewrite decide_False by (by apply Is_true_false). apply IH'.
    + rewrite decide_False; [apply IH'|].
      apply Is_true_false. unfold vacant_entry. cbn [fst snd]. by rewrite Hv.
Qed.

Lemma get_top_level_vacant_dirs_returns g :
  tables_closed (seeded g) →
  get_top_level_vacant_dirs g =
  Returns (std_sort string_lt
             (clean_path ∘ fst <$>
                filter (λ kv, vacant_entry (seeded g) kv)
                  (map_to_list (n_files_map (seeded g)))))
    (seeded g).
Proof.
  intros Hclosed. unfold get_top_level_vacant_dirs.
  erewrite bind_step by done.
  erewrite bind_step by done.
  fold (seeded g).
  erewrite bind_step; [done|].
  rewrite vacant_loop_returns; [done|].
  intros [k v] Hkv Hv. simpl in *. subst v.
  apply elem_of_map_to_list in Hkv. by apply Hclosed.
Qed.

(** ** Sorting *)

Lemma std_sort_Permutation {A} (comp : A → A → bool) (v : list A) :
  std_sort comp v ≡ₚ v.
Proof. apply merge_sort_Permutation. Qed.

Lemma std_sort_sorted {A} (comp : A → A → bool) (R : relation A)
    `{!Transitive R} (v : list A) :
  (∀ a b, comp a b = true → comp b a = false) →
  (∀ a b, comp b a = false → R a b) →
  StronglySorted R (std_sort comp v).
Proof.
  intros Hasym Hle. apply Sorted_StronglySorted; [done|].
  assert (Total (λ a b, Is_true (negb (comp b a)))) as Htotal.
  { intros a b. destruct (comp b a) eqn:Hba; [|by left].
    right. by rewrite (Hasym _ _ Hba). }
  rewrite <- (list_fmap_id (std_sort comp v)).
  eapply (Sorted_fmap id); [|by apply Sorted_merge_sort].
  intros a b Hab. apply Hle. unfold id. simpl in Hab.
  by destruct (comp b a).
Qed.

Lemma string_lt_asym a b : string_lt a b = true → string_lt b a = false.
Proof.
  unfold string_lt, String.ltb. rewrite (String.compare_antisym a b).
  by destruct (String.compare b a).
Qed.

Lemma string_lt_le a b : string_lt b a = false → String.le a b.
Proof.
  unfold string_lt, String.ltb, String.le, String.leb.
  rewrite (String.compare_antisym b a).
  by destruct (String.compare a b).
Qed.

Lemma string_lt_irrefl a : string_lt a a = false.
Proof.
  destruct (string_lt a a) eqn:H; [|done].
  by rewrite (string_lt_asym _ _ H) in H.
Qed.

Lemma string_lt_total a b : string_lt a b = false → string_lt b a = false → a = b.
Proof.
  intros H1%string_lt_le H2%string_lt_le. by apply (anti_symm String.le).
Qed.

(** ** The entry point *)

Lemma resize_returns {A} (v : list A) count g v' g' :
  resize v count g = Returns v' g' ↔
  0 ≤ count ∧ v' = take (Z.to_nat count) v ∧ g' = g.
Proof.
  unfold resize. destruct (count <? 0) eqn:Hc.
  - split; [done|]. lia.
  - split; [intros [= <- <-]|intros (_ & -> & ->)]; [|done].
    split_and!; [lia|done..].
Qed.

Lemma analyzeDir_returns n cwd g res g' :
  analyzeDir n cwd g = Returns res g' ↔
  ∃ ds g1,
    get_dir_stats cwd CURRENT_DIRECTORY NO_PATH g = Returns ds g1
    ∧ get_top_level_vacant_dirs g1 = Returns (vacant_dirs res) g'
    ∧ 0 ≤ n
    ∧ 0 ≤ to_int (Z.of_nat (length (map_to_list (most_common_words_map g1))))
    ∧ 0 ≤ to_int (Z.of_nat (length (ds_largest_images ds)))
    ∧ largest_file_path res = ds_largest_file_path ds
    ∧ largest_file_size res = ds_largest_file_size ds
    ∧ n_files res = ds_n_files ds
    ∧ n_dirs res = ds_n_dirs ds
    ∧ all_files_size res = ds_all_files_size ds
    ∧ most_common_words res =
        take (Z.to_nat (Z.min (to_int (Z.of_nat (length
                (map_to_list (most_common_words_map g1))))) n))
          (std_sort WordFrequencyComparator
             (map_to_list (most_common_words_map g1)))
    ∧ largest_images res =
        take (Z.to_nat (Z.min (to_int (Z.of_nat (length
                (ds_largest_images ds)))) n))
          (std_sort ImageInfoComparator (ds_largest_images ds)).
Proof.
  unfold analyzeDir. cbv zeta.
  assert (∀ {A} comp (v : list A), length (std_sort comp v) = length v)
    as Hlen.
  { intros A comp v. apply Permutation_length, std_sort_Permutation. }
  split.
  - intros (ds & g1 & Hwalk & H)%bind_returns.
    apply bind_returns in H as (? & ? & [= <- <-] & H).
    apply bind_returns in H as (words & ? & Hwords & H).
    apply bind_returns in H as (images & ? & Himages & H).
    apply bind_returns in H as (vacant & ? & Hvacant & [= <- <-]).
    apply resize_returns in Hwords as (Hw & -> & ->).
    apply resize_returns in Himages as (Hi & -> & ->).
    rewrite Hlen in Hw, Hi |- *. rewrite Hlen.
    exists ds, g1. simpl. split_and!; try done; lia.
  - intros (ds & g1 & Hwalk & Hvacant & Hn & Hw & Hi & Hres).
    rewrite (bind_step _ _ _ _ _ Hwalk).
    erewrite bind_step by done.
    erewrite bind_step.
    2:{ rewrite Hlen. apply resize_returns. split_and!; [lia|done..]. }
    erewrite bind_step.
    2:{ rewrite Hlen. apply resize_returns. split_and!; [lia|done..]. }
    rewrite (bind_step _ _ _ _ _ Hvacant).
    destruct Hres as (? & ? & ? & ? & ? & ? & ?).
    destruct res. simpl in *. rewrite ?Hlen. by subst.
Qed.

(** ** Top-level vacant directories *)

Lemma NoDup_fmap_elem_inj {A B} (f : A → B) (l : list A) x y :
  NoDup (f <$> l) → x ∈ l → y ∈ l → f x = f y → x = y.
Proof.
  induction l as [|a l IH]; [by intros _ ?%elem_of_nil|].
  rewrite fmap_cons, NoDup_cons.
  intros [Ha Hnd] [->|Hx]%elem_of_cons [->|Hy]%elem_of_cons Hf; try done.
  - destruct Ha. rewrite Hf. by apply list_elem_of_fmap_2.
  - destruct Ha. rewrite <- Hf. by apply list_elem_of_fmap_2.
  - by apply IH.
Qed.

Section fresh_walk.
Variable cwd : node.
Variables (ds : DirStats) (g1 : globals).

Local Abbreviation rows := (dirs_under [] CURRENT_DIRECTORY cwd).

Hypothesis paths_distinct : NoDup (row_path <$> rows).
Hypothesis recorded : rows_recorded rows g1.
Hypothesis nothing_else :
  ∀ k, k ∉ row_path <$> rows → k ≠ NO_PATH → n_files_map g1 !! k = None.

Lemma row_path_nonempty r : r ∈ rows → row_path r ≠ NO_PATH.
Proof.
  intros Hr Heq. apply dirs_under_row_facts in Hr as (Hlen & _).
  rewrite Heq in Hlen. simpl in Hlen. lia.
Qed.

Lemma seeded_lookup_row r :
  r ∈ rows →
  parent_map (seeded g1) !! row_path r = Some (parent_of (row_ancestors r))
  ∧ n_files_map (seeded g1) !! row_path r = Some (to_int (row_files r)).
Proof.
  intros Hr. destruct (recorded r Hr) as [Hp Hn]. simpl.
  by rewrite lookup_insert_ne by (by intros ?%eq_sym%row_path_nonempty).
Qed.

Lemma seeded_lookup_key k v :
  n_files_map (seeded g1) !! k = Some v →
  (k = NO_PATH ∧ v = 1)
  ∨ ∃ r, r ∈ rows ∧ row_path r = k ∧ to_int (row_files r) = v.
Proof.
  simpl. destruct (decide (k = NO_PATH)) as [->|Hk].
  - rewrite lookup_insert_eq. intros [= <-]. by left.
  - rewrite lookup_insert_ne by done. intros Hv. right.
    destruct (decide (k ∈ row_path <$> rows)) as [Hin|Hout].
    + apply list_elem_of_fmap in Hin as (r & -> & Hr). exists r.
      destruct (recorded r Hr) as [_ Hn]. rewrite Hn in Hv.
      by injection Hv as <-.
    + by rewrite nothing_else in Hv.
Qed.

(** The count the resolver reads for the parent of a row. *)
Lemma seeded_lookup_parent r :
  r ∈ rows →
  n_files_map (seeded g1) !! parent_of (row_ancestors r) =
  Some (default 1 (to_int <$> row_parent_files r)).
Proof.
  intros Hr. unfold row_parent_files.
  destruct (row_ancestors r) as [|[a c] rest] eqn:Hanc; simpl.
  - by rewrite lookup_insert_eq.
  - pose proof (dirs_under_row_facts _ _ _ _ Hr) as (_ & _ & Hcons & _).
    destruct (Hcons a c) as [[]%elem_of_nil|(r' & Hr' & <- & <-)].
    { rewrite Hanc. by left. }
    by apply seeded_lookup_row.
Qed.

Lemma seeded_closed : tables_closed (seeded g1).
Proof.
  intros k [[-> [=]]|(r & Hr & <- & _)]%seeded_lookup_key.
  destruct (seeded_lookup_row r Hr) as [Hp _]. rewrite Hp.
  split; [done|]. simpl default. by rewrite seeded_lookup_parent.
Qed.

Hypothesis files_fit : file_count CURRENT_DIRECTORY cwd ≤ INT_MAX.

Lemma row_files_to_int r : r ∈ rows → to_int (row_files r) = row_files r.
Proof.
  intros Hr. apply dirs_under_row_facts in Hr as (_ & Hfiles & _).
  apply to_int_in_range. unfold INT_MIN. lia.
Qed.

Lemma row_parent_files_to_int r :
  r ∈ rows → to_int <$> row_parent_files r = row_parent_files r.
Proof.
  intros Hr. unfold row_parent_files.
  destruct (row_ancestors r) as [|[a c] rest] eqn:Hanc; simpl; [done|].
  pose proof (dirs_under_row_facts _ _ _ _ Hr) as (_ & _ & Hcons & _).
  destruct (Hcons a c) as [[]%elem_of_nil|(r' & Hr' & <- & <-)].
  { rewrite Hanc. by left. }
  by rewrite row_files_to_int.
Qed.

Lemma vacant_entry_row r :
  r ∈ rows →
  vacant_entry (seeded g1) (row_path r, row_files r) = true ↔
  top_level_vacant r.
Proof.
  intros Hr. unfold vacant_entry, top_level_vacant. cbn [fst snd].
  destruct (seeded_lookup_row r Hr) as [-> _]. simpl default.
  rewrite seeded_lookup_parent, row_parent_files_to_int by done.
  simpl default.
  pose proof (dirs_under_row_facts _ _ _ _ Hr) as (_ & Hfiles & _ & Hsort).
  rewrite andb_true_iff.
  assert (0 ≤ default 1 (row_parent_files r)
          ∧ (row_parent_files r ≠ Some 0 ↔
             default 1 (row_parent_files r) ≠ 0)) as [Hpos Hiff].
  { unfold row_parent_files in *.
    destruct (row_ancestors r) as [|[a c] rest]; simpl; [split; [lia|done]|].
    assert (row_files r ≤ c).
    { specialize (Hsort ltac:(repeat constructor)).
      apply StronglySorted_cons in Hsort as [Hall _].
      by apply Forall_cons in Hall as [? _]. }
    split; [lia|]. split; [by intros Hne ->|by intros Hne [= ->]]. }
  rewrite Hiff. split; [intros [? ?]|intros [? ?]]; split; lia.
Qed.

Lemma vacant_of_fresh_walk s :
  s ∈ (clean_path ∘ fst <$>
         filter (λ kv, vacant_entry (seeded g1) kv)
           (map_to_list (n_files_map (seeded g1)))) ↔
  ∃ r, r ∈ rows ∧ top_level_vacant r ∧ s = clean_path (row_path r).
Proof.
  rewrite list_elem_of_fmap. split.
  - intros ([k v] & -> & [Hvac Hkv]%list_elem_of_filter).
    apply elem_of_map_to_list in Hkv. apply Is_true_true in Hvac.
    apply seeded_lookup_key in Hkv as [[-> ->]|(r & Hr & <- & <-)]; [done|].
    exists r. split_and!; try done.
    rewrite row_files_to_int in Hvac by done. by apply vacant_entry_row.
  - intros (r & Hr & Hvac & ->). exists (row_path r, row_files r).
    split; [done|]. apply list_elem_of_filter. split.
    + apply Is_true_true. by apply vacant_entry_row.
    + apply elem_of_map_to_list.
      destruct (seeded_lookup_row r Hr) as [_ Hn].
      by rewrite row_files_to_int in Hn.
Qed.

(** A top-level vacant directory is not below a directory without
    files. *)
Lemma top_level_vacant_ancestors r r' :
  r ∈ rows → r' ∈ rows →
  top_level_vacant r → row_files r' = 0 →
  row_path r' ∉ (row_ancestors r).*1.
Proof.
  intros Hr Hr' [Hfiles Hparent] Hfiles' Hin.
  apply list_elem_of_fmap in Hin as ([a c] & Ha & Hin). simpl in Ha.
  pose proof (dirs_under_row_facts _ _ _ _ Hr) as (_ & _ & Hcons & Hsort).
  destruct (Hcons a c Hin) as [[]%elem_of_nil|(r'' & Hr'' & Hpath & Hc)].
  assert (r'' = r') as ->.
  { apply (NoDup_fmap_elem_inj row_path rows); try done. congruence. }
  specialize (Hsort ltac:(repeat constructor)).
  unfold row_parent_files in Hparent.
  destruct (row_ancestors r) as [|[pa pc] rest]; [by apply elem_of_nil in Hin|].
  simpl in Hsort.
  apply StronglySorted_cons in Hsort as [Hall Hsort].
  apply Forall_cons in Hall as [Hle _].
  apply StronglySorted_cons in Hsort as [Hrest _].
  assert (pc ≤ c).
  { apply elem_of_cons in Hin as [[= -> ->]|Hin]; [lia|].
    rewrite Forall_forall in Hrest. apply Hrest.
    apply list_elem_of_fmap. by exists (a, c). }
  assert (pc ≠ 0) by (by intros ->). lia.
Qed.
End fresh_walk.

(** C1.  After a walk from a fresh process, a path is in [vacant_dirs]
    exactly when it is the cleaned path of a directory whose recursive file
    count is zero and whose parent's recursive file count is not zero (the
    root has no parent and counts as such); no reported directory lies
    below another directory without files, so none has a reported
    ancestor; and the list is in ascending lexicographic order.  The paths
    of distinct directories are distinct, and the number of files fits the
    [int] counters of [n_files_map]. *)
Theorem vacant_dirs_top_level n cwd res g' :
  NoDup (row_path <$> dirs_under [] CURRENT_DIRECTORY cwd) →
  file_count CURRENT_DIRECTORY cwd ≤ INT_MAX →
  analyzeDir n cwd globals_init = Returns res g' →
  (∀ s, s ∈ vacant_dirs res ↔
        ∃ r, r ∈ dirs_under [] CURRENT_DIRECTORY cwd
             ∧ top_level_vacant r ∧ s = clean_path (row_path r))
  ∧ (∀ r r', r ∈ dirs_under [] CURRENT_DIRECTORY cwd →
             r' ∈ dirs_under [] CURRENT_DIRECTORY cwd →
             top_level_vacant r → top_level_vacant r' →
             row_path r' ∉ (row_ancestors r).*1)
  ∧ StronglySorted String.le (vacant_dirs res).
Proof.
  intros Hnd Hfit (ds & g1 & Hwalk & Hvacant & _)%analyzeDir_returns.
  destruct (get_dir_stats_records cwd [] _ _ _ _ Hnd Hwalk) as [Hrec Hkept].
  assert (∀ k, k ∉ row_path <$> dirs_under [] CURRENT_DIRECTORY cwd →
               k ≠ NO_PATH → n_files_map g1 !! k = None) as Hnone.
  { intros k Hk _. by destruct (Hkept k Hk) as [_ ->]. }
  rewrite get_top_level_vacant_dirs_returns in Hvacant
    by (by apply (seeded_closed cwd)).
  injection Hvacant as Hvacant _. rewrite <- Hvacant.
  split_and!.
  - intros s. rewrite std_sort_Permutation.
    by apply vacant_of_fresh_walk.
  - intros r r' Hr Hr' Hvac [Hfiles' _].
    by apply (top_level_vacant_ancestors cwd).
  - apply std_sort_sorted; [apply _|apply string_lt_asym|apply string_lt_le].
Qed.

Lemma vacant_dirs_top_level_witness :
  match analyzeDir 3 vacancy_tree globals_init with
  | Returns res _ =>
      vacant_dirs res = ["old"; "tmp"]
      ∧ StronglySorted String.le (vacant_dirs res)
  | Exits _ => False
  end.
Proof.
  destruct (analyzeDir 3 vacancy_tree globals_init) as [res g'|msg] eqn:Hrun.
  - split.
    + vm_compute in Hrun. by injection Hrun as <- _.
    + eapply (vacant_dirs_top_level 3 vacancy_tree res g').
      * refine (bool_decide_unpack _ _). by vm_compute.
      * by vm_compute.
      * exact Hrun.
  - vm_compute in Hrun. discriminate Hrun.
Defined.

(** ** Runs and words *)

Lemma string_app_nil_r s : s +:+ "" = s.
Proof.
  induction s as [|c s IH]; [done|].
  unfold String.app in *. simpl. by rewrite IH.
Qed.

Lemma string_app_cons c s1 s2 : String c s1 +:+ s2 = String c (s1 +:+ s2).
Proof. done. Qed.

Lemma string_app_assoc s1 s2 s3 : (s1 +:+ s2) +:+ s3 = s1 +:+ (s2 +:+ s3).
Proof.
  induction s1 as [|c s1 IH]; [done|].
  by rewrite !string_app_cons, IH.
Qed.


Lemma isalpha_tolower c : isalpha (tolower c) = isalpha c.
Proof. by destruct c as [[] [] [] [] [] [] [] []]. Qed.

Lemma count_words_app ws1 ws2 table :
  count_words (ws1 ++ ws2) table = count_words ws2 (count_words ws1 table).
Proof. apply foldl_app. Qed.

Lemma flush_word_count w table :
  flush_word (lowercase w) table = count_words (words_of [w]) table.
Proof.
  unfold flush_word, words_of. simpl. rewrite filter_cons, filter_nil.
  unfold long_enough.
  destruct (MIN_WORD_SIZE <=? Z.of_nat (String.length (lowercase w))) eqn:Hlen.
  - rewrite decide_True by lia. done.
  - rewrite decide_False by lia. done.
Qed.

Lemma flush_word_empty table : flush_word EmptyString table = table.
Proof. done. Qed.

(** Reading a run only extends the word in progress. *)
Lemma scan_words_run w s next_word table :
  all_alpha w = true →
  scan_words (w +:+ s) next_word table =
  scan_words s (next_word +:+ lowercase w) table.
Proof.
  revert next_word. induction w as [|c w IH]; intros next_word Halpha.
  - simpl. by rewrite string_app_nil_r.
  - simpl in Halpha. apply andb_true_iff in Halpha as [Hc Hw].
    rewrite string_app_cons. simpl. rewrite isalpha_tolower, Hc, IH by done.
    unfold push_back. by rewrite string_app_assoc.
Qed.

(** Where a run ends, the word in progress is flushed. *)
Lemma scan_words_flush s next_word table :
  run_ends s = true →
  scan_words s next_word table =
  scan_words s EmptyString (flush_word next_word table).
Proof.
  destruct s as [|c s]; simpl; [done|].
  intros Hc%negb_true_iff. by rewrite isalpha_tolower, Hc.
Qed.

Lemma scan_words_runs s ws table :
  alpha_runs s ws →
  scan_words s EmptyString table = count_words (words_of ws) table.
Proof.
  intros Hruns. revert table.
  induction Hruns as [|c s ws Hc _ IH|w s ws _ Halpha Hends _ IH];
    intros table.
  - done.
  - simpl. by rewrite isalpha_tolower, Hc, flush_word_empty, IH.
  - rewrite scan_words_run by done.
    change ("" +:+ lowercase w) with (lowercase w).
    rewrite scan_words_flush, IH, flush_word_count by done.
    rewrite <- count_words_app. f_equal.
    unfold words_of. by rewrite <- filter_app.
Qed.

Lemma alpha_runs_single c s ws :
  isalpha c = true → run_ends s = true → alpha_runs s ws →
  alpha_runs (String c s) (String c "" :: ws).
Proof.
  intros Hc Hends Hruns.
  apply (runs_word (String c "") s ws); try done.
  simpl. by rewrite Hc.
Qed.

Lemma alpha_runs_extend c w s ws :
  isalpha c = true → all_alpha w = true → run_ends s = true →
  alpha_runs s ws →
  alpha_runs (String c (w +:+ s)) (String c w :: ws).
Proof.
  intros Hc Hw Hends Hruns.
  apply (runs_word (String c w) s ws); try done.
  simpl. by rewrite Hc.
Qed.

Lemma alpha_runs_exists s : ∃ ws, alpha_runs s ws.
Proof.
  induction s as [|c s [ws IH]]; [exists []; constructor|].
  destruct (isalpha c) eqn:Hc; [|exists ws; by constructor].
  inversion IH as [Heq|c' s' ws' Hgap Hrest Heq|w s' ws' Hne Halpha Hends Hrest Heq];
    subst.
  - exists [String c ""]. apply alpha_runs_single; [done..|constructor].
  - exists (String c "" :: ws). apply alpha_runs_single; try done.
    simpl. by rewrite Hgap.
  - exists (String c w :: ws'). by apply alpha_runs_extend.
Qed.

(** ** What the prober returns *)

(** A line that does not start with a number leaves both dimensions zero. *)
Lemma read_dimensions_no_digit buffer c rest :
  skip_ws buffer = String c rest →
  isdigit c = false → c ≠ "-"%char → c ≠ "+"%char →
  read_dimensions (Some buffer) = (0, 0).
Proof.
  intros Hskip Hdigit Hminus Hplus. unfold read_dimensions, extract_long.
  rewrite Hskip.
  apply Ascii.eqb_neq in Hminus, Hplus. rewrite Hminus, Hplus. simpl.
  by rewrite Hdigit.
Qed.

Lemma read_dimensions_blank buffer :
  skip_ws buffer = EmptyString → read_dimensions (Some buffer) = (0, 0).
Proof. intros Hskip. unfold read_dimensions, extract_long. by rewrite Hskip. Qed.

Lemma get_image_info_stream file_path f g first_line status :
  identify f = PipeStream first_line status →
  get_image_info file_path f g =
  Returns
    (if (status =? SYSCALL_SUCCESS)
        && ((read_dimensions first_line).1 >? 0)
        && ((read_dimensions first_line).2 >? 0)
     then Some (MkImageInfo (clean_path file_path)
                  (read_dimensions first_line).1
                  (read_dimensions first_line).2)
     else None) g.
Proof.
  intros Hid. unfold get_image_info. rewrite Hid.
  destruct (read_dimensions first_line) as [w h]. simpl.
  by destruct ((status =? SYSCALL_SUCCESS) && (w >? 0) && (h >? 0)).
Qed.

Lemma get_image_info_no_image file_path f g first_line status :
  identify f = PipeStream first_line status →
  no_image first_line status →
  get_image_info file_path f g = Returns None g.
Proof.
  intros Hid Hno. rewrite (get_image_info_stream _ _ _ _ _ Hid).
  assert ((status =? SYSCALL_SUCCESS)
          && ((read_dimensions first_line).1 >? 0)
          && ((read_dimensions first_line).2 >? 0) = false) as ->; [|done].
  destruct Hno as [->|[Hw|[Hh|Hs]]].
  - simpl. by rewrite andb_false_r.
  - apply andb_false_iff. left. apply andb_false_iff. right. lia.
  - apply andb_false_iff. right. lia.
  - apply andb_false_iff. left. apply andb_false_iff. left. lia.
Qed.

(** A line that holds no number gives no image. *)
Lemma no_number_no_image buffer status :
  skip_ws buffer = EmptyString
  ∨ (∃ c rest, skip_ws buffer = String c rest ∧ isdigit c = false
               ∧ c ≠ "-"%char ∧ c ≠ "+"%char) →
  no_image (Some buffer) status.
Proof.
  intros [Hblank|(c & rest & Hskip & Hdigit & Hminus & Hplus)];
    right; left.
  - by rewrite read_dimensions_blank.
  - by erewrite read_dimensions_no_digit.
Qed.

(** C2, as stated, fails where [popen] returns no stream: the prober does
    not return, and neither does the analysis of a directory that holds
    the file. *)
Lemma get_image_info_popen_null :
  get_image_info "./photo.png" unprobed_file globals_init =
    Exits "could not call identify via popen on %s./photo.png"
  ∧ analyzeDir 1 unprobed_tree globals_init =
    Exits "could not call identify via popen on %s./photo.png".
Proof. split; by vm_compute. Qed.

(** ** The statistics do not depend on the tables *)




Section same_statistics.

End same_statistics.

(** ** Counting the same words again *)










(** ** A second call in the same process *)


Lemma vacant_entry_ext g h kv :
  parent_map g = parent_map h → n_files_map g = n_files_map h →
  vacant_entry g kv = vacant_entry h kv.
Proof. unfold vacant_entry. by intros <- <-. Qed.


(** ** The tables after a walk from a fresh process *)

Lemma fresh_walk_tables cwd ds g1 :
  NoDup (row_path <$> dirs_under [] CURRENT_DIRECTORY cwd) →
  get_dir_stats cwd CURRENT_DIRECTORY NO_PATH globals_init = Returns ds g1 →
  parent_map g1 =
    list_to_map ((λ r, (row_path r, parent_of (row_ancestors r)))
                 <$> dirs_under [] CURRENT_DIRECTORY cwd)
  ∧ n_files_map g1 =
    list_to_map ((λ r, (row_path r, to_int (row_files r)))
                 <$> dirs_under [] CURRENT_DIRECTORY cwd)
  ∧ most_common_words_map g1 =
    count_files (files_under CURRENT_DIRECTORY cwd) ∅.
Proof.
  intros Hnd Hwalk.
  destruct (get_dir_stats_records cwd [] _ _ _ _ Hnd Hwalk) as [Hrec Hkept].
  pose proof (get_dir_stats_walked _ [] _ _ _ _ _ Hwalk)
    as (_ & _ & _ & _ & _ & _ & Hwords).
  split_and!; [| |done]; apply map_eq; intros k;
    (destruct (decide (k ∈ row_path <$> dirs_under [] CURRENT_DIRECTORY cwd))
      as [Hin|Hout];
     [apply list_elem_of_fmap in Hin as (r & -> & Hr);
      destruct (Hrec r Hr) as [Hp Hn];
      symmetry; rewrite ?Hp, ?Hn;
      apply elem_of_list_to_map_1;
        [by rewrite <- list_fmap_compose
        |apply list_elem_of_fmap; by exists r]
     |destruct (Hkept k Hout) as [Hp Hn];
      rewrite ?Hp, ?Hn; simpl; rewrite lookup_empty; symmetry;
      apply not_elem_of_list_to_map_1; by rewrite <- list_fmap_compose]).
Qed.

(** ** The scenario of the text file and the empty directory *)

Lemma fresh_walk_resolver cwd ds g1 :
  NoDup (row_path <$> dirs_under [] CURRENT_DIRECTORY cwd) →
  get_dir_stats cwd CURRENT_DIRECTORY NO_PATH globals_init = Returns ds g1 →
  get_top_level_vacant_dirs g1 =
  Returns (std_sort string_lt
             (clean_path ∘ fst <$>
                filter (λ kv, vacant_entry (seeded g1) kv)
                  (map_to_list (n_files_map (seeded g1)))))
    (seeded g1).
Proof.
  intros Hnd Hwalk.
  destruct (get_dir_stats_records cwd [] _ _ _ _ Hnd Hwalk) as [Hrec Hkept].
  apply get_top_level_vacant_dirs_returns, (seeded_closed cwd); try done.
  intros k Hk _. by destruct (Hkept k Hk) as [_ ->].
Qed.

(** C4, as the code has it.  For the tree with [a.txt] holding "hello hello
    world" and the empty directory [empty], in either order of [readdir]
    and whatever [stat] and [identify] report for the file, the call with
    [1 ≤ n] returns [n_files = 1], [n_dirs = 2], [vacant_dirs = ["empty"]]
    and the words "hello" twice and "world" once: [most_common_words] is
    [("hello", 2)] alone for [n = 1], and is followed by [("world", 1)]
    for every larger [n]. *)
Theorem hello_scenario_any n size first_line status entries :
  entries = [hello_entry size first_line status; empty_entry]
  ∨ entries = [empty_entry; hello_entry size first_line status] →
  1 ≤ n →
  ∃ res g',
    analyzeDir n (Directory true entries) globals_init = Returns res g'
    ∧ most_common_words res =
        (if n =? 1 then [("hello", 2)] else [("hello", 2); ("world", 1)])
    ∧ vacant_dirs res = ["empty"]
    ∧ n_files res = 1
    ∧ n_dirs res = 2.
Proof.
  intros Horder Hn.
  set (cwd := Directory true entries).
  assert (dirs_under [] CURRENT_DIRECTORY cwd =
          [MkRow "." [] 1 true; MkRow "./empty" [(".", 1)] 0 true]) as Hrows
    by (by destruct Horder as [-> | ->]).
  assert (files_under CURRENT_DIRECTORY cwd =
          [("./a.txt", {| st_size := size;
                          contents := Some "hello hello world";
                          identify := PipeStream first_line status |})])
    as Hfl by (by destruct Horder as [-> | ->]).
  assert (NoDup (row_path <$> dirs_under [] CURRENT_DIRECTORY cwd)) as Hnd.
  { rewrite Hrows. refine (bool_decide_unpack _ _). by vm_compute. }
  assert (walkable CURRENT_DIRECTORY cwd) as Hwalkable.
  { split; [by eexists|]. rewrite Hrows, Hfl. split; repeat constructor. }
  apply (get_dir_stats_returns_walkable cwd CURRENT_DIRECTORY NO_PATH
           globals_init) in Hwalkable as (ds & g1 & Hwalk).
  destruct (fresh_walk_tables cwd ds g1 Hnd Hwalk) as (Hpm & Hnm & Hwm).
  pose proof (get_dir_stats_walked _ [] _ _ _ _ _ Hwalk)
    as (Hfiles & Hdirs & _ & _ & _ & Himages & _).
  pose proof (fresh_walk_resolver cwd ds g1 Hnd Hwalk) as Hvacant.
  rewrite Hrows in Hpm, Hnm, Hdirs. rewrite Hfl in Hwm, Hfiles, Himages.
  set (tables :=
         {| parent_map := list_to_map [(".", NO_PATH); ("./empty", ".")];
            n_files_map := <[NO_PATH := 1]>
                             (list_to_map [(".", 1); ("./empty", 0)]);
            most_common_words_map := ∅ |}).
  assert (parent_map (seeded g1) = parent_map tables) as Hpm' by done.
  assert (n_files_map (seeded g1) = n_files_map tables) as Hnm'.
  { simpl. by rewrite Hnm. }
  rewrite Hnm' in Hvacant.
  rewrite (list_filter_iff _ (λ kv, vacant_entry tables kv)) in Hvacant
    by (intros kv; by rewrite (vacant_entry_ext _ _ kv Hpm' Hnm')).
  change (std_sort string_lt _) with ["empty"] in Hvacant.
  assert (std_sort WordFrequencyComparator
            (map_to_list (most_common_words_map g1)) =
          [("hello", 2); ("world", 1)]) as Hsorted
    by (by rewrite Hwm).
  assert (length (map_to_list (most_common_words_map g1)) = 2%nat) as Hlen.
  { apply (f_equal length) in Hsorted.
    by rewrite (Permutation_length (std_sort_Permutation _ _)) in Hsorted. }
  assert (0 ≤ to_int (Z.of_nat (length (ds_largest_images ds)))) as Hilen.
  { rewrite Himages. simpl. by destruct (probe _). }
  eexists {| largest_file_path := _; vacant_dirs := ["empty"] |}, (seeded g1).
  split.
  { apply analyzeDir_returns. exists ds, g1. simpl. rewrite Hlen.
    split_and!; try done. lia. }
  simpl. rewrite ?Hsorted, ?Hlen, ?Hfiles, ?Hdirs.
  split_and!; try done.
  change (to_int (Z.of_nat 2)) with 2.
  destruct (n =? 1) eqn:Hone.
  - by replace n with 1 by lia.
  - by replace (Z.to_nat (2 `min` n)) with 2%nat by lia.
Qed.

(** ** Directories, sizes and the largest file *)

Lemma dirs_under_length ancestors ancestors' q e :
  length (dirs_under ancestors q e) = length (dirs_under ancestors' q e).
Proof.
  revert ancestors ancestors' q.
  induction e as [f|ok entries IH|] using node_nested_ind;
    intros ancestors ancestors' q; try done.
  rewrite !dirs_under_Directory. simpl. f_equal.
  generalize ((q, file_count q (Directory ok entries)) :: ancestors).
  generalize ((q, file_count q (Directory ok entries)) :: ancestors').
  intros anc1 anc2.
  induction IH as [|[name e] entries' IHe _ IHentries]; [done|].
  rewrite !dirs_in_cons, !length_app, IHentries. f_equal.
  destruct (is_pseudo_entry name); [done|].
  destruct e; try done; apply IHe.
Qed.

Lemma dir_count_length ancestors q e :
  dir_count e = Z.of_nat (length (dirs_under ancestors q e)).
Proof.
  revert ancestors q.
  induction e as [f|ok entries IH|] using node_nested_ind;
    intros ancestors q; try done.
  rewrite dirs_under_Directory. cbn [dir_count length].
  rewrite Nat2Z.inj_succ, <- Z.add_1_l. f_equal.
  generalize ((q, file_count q (Directory ok entries)) :: ancestors).
  intros anc.
  induction IH as [|[name e] entries' IHe _ IHentries]; [done|].
  rewrite dirs_in_cons, length_app, Nat2Z.inj_add. cbn [foldr fst snd].
  rewrite IHentries. f_equal.
  destruct (is_pseudo_entry name); [done|].
  destruct e; try done; apply IHe.
Qed.

Lemma sum_sizes_stat_sizes files : sum_sizes files = sum_list (stat_sizes files).
Proof.
  unfold sum_sizes, sum_list, stat_sizes.
  induction files as [|[q f] files IH]; [done|].
  simpl. rewrite IH. by destruct (st_size f).
Qed.

Lemma max_size_no_stat files :
  stat_sizes files = [] → max_size files = DEFAULT_LARGEST_SIZE.
Proof.
  unfold stat_sizes, max_size.
  induction files as [|[q f] files IH]; [done|].
  simpl. destruct (st_size f); [done|]. intros Hnil. rewrite IH by done.
  done.
Qed.

(** C8.  Every call of the walker that returns gives as directory count
    one, for the directory itself, plus the counts of the child
    directories; so [n_dirs] is one plus the number of directories below
    the working directory.  The count fits a [long]. *)
Theorem n_dirs_counts_directories :
  (∀ dir q pp g ds g',
     get_dir_stats dir q pp g = Returns ds g' →
     dir_count dir ≤ LONG_MAX →
     ds_n_dirs ds = dir_count dir)
  ∧ (∀ n cwd g res g',
       analyzeDir n cwd g = Returns res g' →
       dir_count cwd ≤ LONG_MAX →
       n_dirs res =
         1 + Z.of_nat (length (tail (dirs_under [] CURRENT_DIRECTORY cwd)))).
Proof.
  assert (∀ dir q pp g ds g',
            get_dir_stats dir q pp g = Returns ds g' →
            dir_count dir ≤ LONG_MAX →
            ds_n_dirs ds = dir_count dir
            ∧ dir_count dir =
                1 + Z.of_nat (length (tail (dirs_under [] q dir)))) as Hcall.
  { intros dir q pp g ds g' Hwalk Hfit.
    pose proof (get_dir_stats_walked _ [] _ _ _ _ _ Hwalk) as (_ & Hd & _).
    rewrite (dir_count_length [] q) in Hfit |- *.
    assert (∃ entries, dir = Directory true entries) as [entries ->].
    { by apply (get_dir_stats_returns_walkable dir q pp g); eauto. }
    rewrite dirs_under_Directory in Hfit, Hd |- *.
    cbn [length tail] in Hfit, Hd |- *.
    rewrite Hd. simpl ds_n_dirs.
    split; [|lia]. rewrite to_long_in_range; unfold LONG_MIN; lia. }
  split.
  - intros dir q pp g ds g' Hwalk Hfit. by apply (Hcall dir q pp g ds g').
  - intros n cwd g res g' (ds & g1 & Hwalk & _ & _ & _ & _ & _ & _ & _ & -> & _)
      %analyzeDir_returns Hfit.
    destruct (Hcall _ _ _ _ _ _ Hwalk Hfit) as [-> ->]. done.
Qed.

(** C9.  [all_files_size] is the sum of the sizes of the regular files
    whose [stat] succeeded, when that sum fits a [long].  A file whose
    [stat] fails is counted as a file, leaves the total and the largest
    file as they were, and does not stop the walk. *)
Theorem all_files_size_sums :
  (∀ n cwd g res g',
     analyzeDir n cwd g = Returns res g' →
     LONG_MIN ≤ sum_list (stat_sizes (files_under CURRENT_DIRECTORY cwd))
       ≤ LONG_MAX →
     all_files_size res =
       sum_list (stat_sizes (files_under CURRENT_DIRECTORY cwd)))
  ∧ (∀ p q f ds g,
       st_size f = None →
       file_ok (q, f) = true →
       ∃ ds' g',
         visit_file p q f ds g = Returns ds' g'
         ∧ ds_n_files ds' = to_long (ds_n_files ds + 1)
         ∧ ds_all_files_size ds' = ds_all_files_size ds
         ∧ ds_largest_file_path ds' = ds_largest_file_path ds
         ∧ ds_largest_file_size ds' = ds_largest_file_size ds).
Proof.
  split.
  - intros n cwd g res g'
      (ds & g1 & Hwalk & _ & _ & _ & _ & _ & _ & _ & _ & -> & _)
      %analyzeDir_returns Hfit.
    pose proof (get_dir_stats_walked _ [] _ _ _ _ _ Hwalk)
      as (_ & _ & -> & _).
    simpl. rewrite Z.add_0_l, sum_sizes_stat_sizes.
    by apply to_long_in_range.
  - intros p q f ds g Hstat Hok.
    apply (visit_file_returns_iff p q f ds g) in Hok as (ds' & g' & Hvisit).
    exists ds', g'. split; [done|].
    apply visit_file_returns in Hvisit as (_ & Hf & _ & Hs & Hl & _).
    rewrite Hstat in Hs, Hl. injection Hl as -> ->. done.
Qed.

(** C10.  When no regular file of the tree has a size, because there is no
    regular file or because [stat] failed on each, the Results hold the
    empty path and the sentinel size -1 of the initial [DirStats]. *)
Theorem no_file_sentinels n cwd g res g' :
  analyzeDir n cwd g = Returns res g' →
  stat_sizes (files_under CURRENT_DIRECTORY cwd) = [] →
  largest_file_path res = NO_PATH
  ∧ largest_file_size res = DEFAULT_LARGEST_SIZE.
Proof.
  intros (ds & g1 & Hwalk & _ & _ & _ & _ & -> & -> & _)%analyzeDir_returns
    Hnone.
  pose proof (get_dir_stats_walked _ [] _ _ _ _ _ Hwalk)
    as (_ & _ & _ & Hl & Hp & _).
  rewrite (max_size_no_stat _ Hnone) in Hl. simpl in Hl, Hp.
  split; [by apply Hp|done].
Qed.

(** ** Ties between files of the same size *)

Lemma readdir_loop_app p entries1 entries2 ds0 g ds g' :
  readdir_loop get_dir_stats p (entries1 ++ entries2) ds0 g = Returns ds g' ↔
  ∃ ds1 g1,
    readdir_loop get_dir_stats p entries1 ds0 g = Returns ds1 g1
    ∧ readdir_loop get_dir_stats p entries2 ds1 g1 = Returns ds g'.
Proof.
  revert ds0 g. induction entries1 as [|[name e] entries1 IH]; intros ds0 g.
  - simpl. split; [by eauto|]. by intros (? & ? & [= <- <-] & ?).
  - cbn [app readdir_loop].
    destruct (is_pseudo_entry name); [apply IH|].
    destruct e as [f|ok sub_entries|]; [| |apply IH].
    + rewrite bind_returns. split.
      * intros (ds1 & g1 & Hfile & (ds2 & g2 & H1 & H2)%IH).
        exists ds2, g2. split; [|done].
        apply bind_returns. eauto.
      * intros (ds2 & g2 & (ds1 & g1 & Hfile & H1)%bind_returns & H2).
        exists ds1, g1. split; [done|]. apply IH. eauto.
    + rewrite bind_returns. split.
      * intros (sub & g1 & Hsub & (ds1 & g2 & Hmerge & H)%bind_returns).
        apply IH in H as (ds2 & g3 & H1 & H2).
        exists ds2, g3. split; [|done].
        apply bind_returns. exists sub, g1. split; [done|].
        apply bind_returns. eauto.
      * intros (ds2 & g3 & (sub & g1 & Hsub & H)%bind_returns & H2).
        apply bind_returns in H as (ds1 & g2 & Hmerge & H1).
        exists sub, g1. split; [done|].
        apply bind_returns. exists ds1, g2. split; [done|].
        apply IH. eauto.
Qed.

Lemma readdir_loop_largest p entries ds0 g ds g' :
  stats_in_range ds0 →
  readdir_loop get_dir_stats p entries ds0 g = Returns ds g' →
  ds_largest_file_size ds =
    Z.max (ds_largest_file_size ds0) (max_size (files_in p entries))
  ∧ (ds_largest_file_size ds = ds_largest_file_size ds0 →
     ds_largest_file_path ds = ds_largest_file_path ds0)
  ∧ stats_in_range ds.
Proof.
  intros Hr Hloop.
  assert (walked (files_in p entries) (length (dirs_in [] p entries))
            ds0 g ds g') as Hw.
  { eapply readdir_loop_walked; [|done..].
    apply Forall_forall. intros e _. apply get_dir_stats_walked. }
  pose proof (walked_in_range _ _ _ _ _ _ Hr Hw).
  by destruct Hw as (_ & _ & _ & ? & ? & _).
Qed.

(** In a directory, the first file of the largest size is the one kept:
    files and subdirectories met before it hold only smaller files, those
    met after it hold none that is larger. *)
Lemma first_seen_wins q pp before name f after size g ds g' :
  get_dir_stats (Directory true (before ++ (name, RegFile f) :: after))
    q pp g = Returns ds g' →
  is_pseudo_entry name = false →
  st_size f = Some size →
  max_size (files_in q before) < size →
  max_size (files_in q after) ≤ size →
  ds_largest_file_path ds = clean_path (join_path q name)
  ∧ ds_largest_file_size ds = size.
Proof.
  intros Hwalk Hname Hsize Hbefore Hafter. simpl in Hwalk.
  apply bind_returns in Hwalk as ([] & ? & [= <-] & Hwalk).
  apply bind_returns in Hwalk as ([] & ? & [= <-] & Hwalk).
  apply readdir_loop_app in Hwalk as (ds1 & g1 & H1 & H2).
  cbn [readdir_loop] in H2. rewrite Hname in H2.
  apply bind_returns in H2 as (ds2 & g2 & Hfile & H2).
  assert (stats_in_range DirStats_init) as Hr0.
  { unfold stats_in_range. simpl. by rewrite !to_long_in_range by done. }
  apply (readdir_loop_largest _ _ _ _ _ _ Hr0) in H1 as (Hl1 & _ & Hr1).
  simpl in Hl1.
  pose proof (visit_file_walked _ _ _ _ _ _ _ Hr1 Hfile) as Hw2.
  pose proof (walked_in_range _ _ _ _ _ _ Hr1 Hw2) as Hr2.
  apply visit_file_returns in Hfile as (_ & _ & _ & _ & Hl2 & _).
  rewrite Hsize in Hl2. unfold largest_after in Hl2.
  pose proof (max_size_ge (files_in q before)).
  replace (size >? ds_largest_file_size ds1) with true in Hl2 by lia.
  injection Hl2 as Hp2 Hs2.
  apply (readdir_loop_largest _ _ _ _ _ _ Hr2) in H2 as (Hl3 & Hp3 & _).
  rewrite Hs2 in Hl3, Hp3.
  assert (ds_largest_file_size ds = size) as Hs3 by lia.
  split; [|done]. rewrite Hp3 by done. done.
Qed.

(** C6.  The largest file is replaced only by a strictly larger one.  A
    file whose [stat] succeeded replaces the current largest file exactly
    when its size is greater than [largest_file_size]; the result of a
    subdirectory replaces it exactly when its largest size is greater.  So
    the file seen first among those of the largest size is the one
    reported, and on a tie with a subdirectory the directory keeps what it
    has. *)
Theorem largest_file_strict :
  (∀ p q f size ds g ds' g',
     visit_file p q f ds g = Returns ds' g' →
     st_size f = Some size →
     (ds_largest_file_path ds', ds_largest_file_size ds') =
       (if size >? ds_largest_file_size ds
        then (clean_path q, size)
        else (ds_largest_file_path ds, ds_largest_file_size ds)))
  ∧ (∀ p sub ds g ds' g',
       merge_subdir p sub ds g = Returns ds' g' →
       (ds_largest_file_path ds', ds_largest_file_size ds') =
         (if ds_largest_file_size sub >? ds_largest_file_size ds
          then (clean_path (ds_largest_file_path sub),
                ds_largest_file_size sub)
          else (ds_largest_file_path ds, ds_largest_file_size ds)))
  ∧ (∀ q pp before name f after size g ds g',
       get_dir_stats (Directory true (before ++ (name, RegFile f) :: after))
         q pp g = Returns ds g' →
       is_pseudo_entry name = false →
       st_size f = Some size →
       max_size (files_in q before) < size →
       max_size (files_in q after) ≤ size →
       ds_largest_file_path ds = clean_path (join_path q name)
       ∧ ds_largest_file_size ds = size).
Proof.
  split_and!.
  - intros p q f size ds g ds' g' Hvisit Hsize.
    apply visit_file_returns in Hvisit as (_ & _ & _ & _ & Hl & _).
    by rewrite Hsize in Hl.
  - intros p sub ds g ds' g' Hmerge.
    destruct (merge_subdir_returns p sub ds g)
      as (? & ? & Heq & _ & _ & _ & Hl & _).
    rewrite Hmerge in Heq. by injection Heq as <- <-.
  - apply first_seen_wins.
Qed.

(** ** The ranked lists *)

#[global] Instance word_order_trans : Transitive word_order.
Proof.
  intros a b c [Hab|[Hab Hab']] [Hbc|[Hbc Hbc']]; unfold word_order;
    [left; lia..|].
  right. split; [lia|]. by etrans.
Qed.

#[global] Instance image_order_long_trans : Transitive image_order_long.
Proof.
  intros a b c [Hab|[Hab Hab']] [Hbc|[Hbc Hbc']]; unfold image_order_long;
    [left; lia..|].
  right. split; [lia|]. by etrans.
Qed.

Lemma WordFrequencyComparator_asym a b :
  WordFrequencyComparator a b = true → WordFrequencyComparator b a = false.
Proof.
  unfold WordFrequencyComparator.
  destruct (a.2 =? b.2) eqn:Hab; simpl.
  - replace (b.2 =? a.2) with true by lia. simpl. apply string_lt_asym.
  - replace (b.2 =? a.2) with false by lia. simpl. lia.
Qed.

Lemma WordFrequencyComparator_order a b :
  WordFrequencyComparator b a = false → word_order a b.
Proof.
  unfold WordFrequencyComparator, word_order.
  destruct (b.2 =? a.2) eqn:Hab; simpl.
  - intros Hlt%string_lt_le. right. split; [lia|done].
  - intros Hgt. left. lia.
Qed.

Lemma ImageInfoComparator_asym a b :
  ImageInfoComparator a b = true → ImageInfoComparator b a = false.
Proof.
  unfold ImageInfoComparator. cbv zeta.
  fold (area a) (area b).
  destruct (to_long (area a) =? to_long (area b)) eqn:Hab; simpl.
  - replace (to_long (area b) =? to_long (area a)) with true by lia.
    simpl. apply string_lt_asym.
  - replace (to_long (area b) =? to_long (area a)) with false by lia.
    simpl. lia.
Qed.

Lemma ImageInfoComparator_order a b :
  ImageInfoComparator b a = false → image_order_long a b.
Proof.
  unfold ImageInfoComparator, image_order_long. cbv zeta.
  fold (area a) (area b).
  destruct (to_long (area b) =? to_long (area a)) eqn:Hab; simpl.
  - intros Hlt%string_lt_le. right. split; [lia|done].
  - intros Hgt. left. lia.
Qed.

Lemma image_order_fit images :
  areas_fit images →
  StronglySorted image_order_long images → StronglySorted image_order images.
Proof.
  intros Hfit Hsorted. induction Hsorted as [|a l _ IH Hall]; [constructor|].
  apply Forall_cons in Hfit as [Ha Hfit].
  constructor; [by apply IH|].
  rewrite Forall_forall in Hall, Hfit |- *. intros b Hb.
  specialize (Hall b Hb). specialize (Hfit b Hb). simpl in Hfit.
  unfold image_order_long in Hall. unfold image_order.
  by rewrite !to_long_in_range in Hall by done.
Qed.

Lemma StronglySorted_take {A} (R : relation A) k l :
  StronglySorted R l → StronglySorted R (take k l).
Proof.
  intros Hs. rewrite <- (take_drop k l) in Hs.
  by apply StronglySorted_app_1_l in Hs.
Qed.

(** The resolver leaves the table of words as it is. *)
Lemma vacant_loop_words items top g top' g' :
  vacant_loop items top g = Returns top' g' →
  most_common_words_map g' = most_common_words_map g.
Proof.
  revert top g. induction items as [|[k v] items IH]; intros top g.
  - by intros [= _ <-].
  - cbn [vacant_loop]. destruct (v =? 0); [|apply IH].
    intros (parent & g1 & Hp & (pn & g2 & Hn & H)%bind_returns)%bind_returns.
    assert (most_common_words_map g2 = most_common_words_map g) as <-.
    { unfold parent_map_at in Hp. unfold n_files_map_at in Hn.
      destruct (subscript NO_PATH k (parent_map g)).
      destruct (subscript 0 parent (n_files_map g1)).
      injection Hp as _ <-. by injection Hn as _ <-. }
    destruct (pn >? 0); by apply IH in H.
Qed.

Lemma get_top_level_vacant_dirs_words g vacant g' :
  get_top_level_vacant_dirs g = Returns vacant g' →
  most_common_words_map g' = most_common_words_map g.
Proof.
  unfold get_top_level_vacant_dirs.
  intros ([] & g1 & [= <-] & H)%bind_returns.
  apply bind_returns in H as (? & ? & [= <- <-] & H).
  apply bind_returns in H as (top & g2 & Hloop & [= _ <-]).
  by apply vacant_loop_words in Hloop.
Qed.

Lemma take_min_length {A} (l l0 : list A) n :
  length l = length l0 →
  0 ≤ n → n ≤ INT_MAX →
  0 ≤ to_int (Z.of_nat (length l0)) →
  Z.of_nat (length (take (Z.to_nat
     (Z.min (to_int (Z.of_nat (length l0))) n)) l)) ≤ n
  ∧ (n = 0 →
     take (Z.to_nat (Z.min (to_int (Z.of_nat (length l0))) n)) l = [])
  ∧ (Z.of_nat (length l0) ≤ n →
     take (Z.to_nat (Z.min (to_int (Z.of_nat (length l0))) n)) l = l).
Proof.
  intros Heq Hn Hmax Hlen. split_and!.
  - rewrite length_take. lia.
  - intros ->. by replace (Z.min _ 0) with 0 by lia.
  - intros Hall. rewrite to_int_in_range by (unfold INT_MIN; lia).
    apply take_ge. lia.
Qed.

(** C7.  In the Results of a call with [0 ≤ n], [most_common_words] is in
    descending order of count, equal counts in ascending order of the
    word, and has at most [n] entries; [largest_images] is in descending
    order of pixel area, equal areas in ascending order of the path, and
    has at most [n] entries; when [n] is at least the number of words of
    the table, or of images of the tree, the list holds them all; and the
    call with [n = 0] returns two empty lists with the same scalar
    statistics and vacant directories.  [n] is an [int], and the areas
    fit the [long] in which the comparator computes them. *)
Theorem results_ranked n cwd g res g' :
  analyzeDir n cwd g = Returns res g' →
  0 ≤ n ≤ INT_MAX →
  areas_fit (images_under cwd) →
  StronglySorted word_order (most_common_words res)
  ∧ Z.of_nat (length (most_common_words res)) ≤ n
  ∧ StronglySorted image_order (largest_images res)
  ∧ Z.of_nat (length (largest_images res)) ≤ n
  ∧ (Z.of_nat (length (map_to_list (most_common_words_map g'))) ≤ n →
     most_common_words res ≡ₚ map_to_list (most_common_words_map g'))
  ∧ (Z.of_nat (length (images_under cwd)) ≤ n →
     largest_images res ≡ₚ images_under cwd)
  ∧ ∃ res0 g0,
      analyzeDir 0 cwd g = Returns res0 g0
      ∧ most_common_words res0 = []
      ∧ largest_images res0 = []
      ∧ largest_file_path res0 = largest_file_path res
      ∧ largest_file_size res0 = largest_file_size res
      ∧ n_files res0 = n_files res
      ∧ n_dirs res0 = n_dirs res
      ∧ all_files_size res0 = all_files_size res
      ∧ vacant_dirs res0 = vacant_dirs res.
Proof.
  intros (ds & g1 & Hwalk & Hvacant & _ & Hw & Hi & Hres)%analyzeDir_returns
    [Hn Hmax] Hfit.
  destruct Hres as (Hr1 & Hr2 & Hr3 & Hr4 & Hr5 & Hr6 & Hr7).
  pose proof (get_dir_stats_walked _ [] _ _ _ _ _ Hwalk)
    as (_ & _ & _ & _ & _ & Himages & _).
  simpl in Himages. fold (images_under cwd) in Himages.
  rewrite (get_top_level_vacant_dirs_words _ _ _ Hvacant).
  rewrite Himages in Hi, Hr7.
  set (words := map_to_list (most_common_words_map g1)) in *.
  destruct (take_min_length (std_sort WordFrequencyComparator words) words n)
    as (Hw1 & Hw2 & Hw3); try done.
  { apply Permutation_length, std_sort_Permutation. }
  destruct (take_min_length (std_sort ImageInfoComparator (images_under cwd))
              (images_under cwd) n) as (Hi1 & Hi2 & Hi3); try done.
  { apply Permutation_length, std_sort_Permutation. }
  rewrite Hr6, Hr7.
  split_and!; try done.
  - apply StronglySorted_take, std_sort_sorted; [apply _|..].
    + apply WordFrequencyComparator_asym.
    + apply WordFrequencyComparator_order.
  - apply StronglySorted_take, image_order_fit.
    + unfold areas_fit. by rewrite std_sort_Permutation.
    + apply std_sort_sorted; [apply _|..].
      * apply ImageInfoComparator_asym.
      * apply ImageInfoComparator_order.
  - intros Hall. rewrite Hw3 by done. apply std_sort_Permutation.
  - intros Hall. rewrite Hi3 by done. apply std_sort_Permutation.
  - eexists {| largest_file_path := _; vacant_dirs := vacant_dirs res |}, g'.
    split.
    { apply analyzeDir_returns. exists ds, g1. simpl.
      rewrite Himages. split_and!; try done. }
    simpl. fold words.
    destruct (take_min_length (std_sort WordFrequencyComparator words)
                words 0) as (_ & -> & _); try done.
    { apply Permutation_length, std_sort_Permutation. }
    destruct (take_min_length (std_sort ImageInfoComparator
                (images_under cwd)) (images_under cwd) 0)
      as (_ & -> & _); try done.
    apply Permutation_length, std_sort_Permutation.
Qed.

(** ** Opening files and directories *)

(** The walker opens its directory, and the counter its file, as
    [open_directory] and [open_file] do. *)
Lemma get_dir_stats_opens dir dir_path parent_dir_path g :
  get_dir_stats dir dir_path parent_dir_path g =
  (entries ← open_directory dir_path dir;
   parent_map_assign dir_path parent_dir_path;;
   n_files_map_assign dir_path 0;;
   readdir_loop get_dir_stats dir_path entries DirStats_init) g.
Proof. by destruct dir as [f|[] entries|]. Qed.

Lemma count_words_in_file_opens file_path f g :
  count_words_in_file file_path f g =
  (bytes ← open_file file_path f;
   ((λ g, Returns tt
            (set_most_common_words_map
               (scan_words bytes EmptyString (most_common_words_map g)) g))
    : Run unit)) g.
Proof.
  unfold count_words_in_file, open_file. by destruct (contents f).
Qed.

(** ** Suffixes, prefixes and case *)

Lemma string_length_app s1 s2 :
  String.length (s1 +:+ s2) = (String.length s1 + String.length s2)%nat.
Proof. induction s1 as [|c s1 IH]; simpl; [done|]. by rewrite IH. Qed.

Lemma substr_app s1 s2 : substr (String.length s1) (s1 +:+ s2) = s2.
Proof. by induction s1 as [|c s1 IH]. Qed.

Lemma substr_split pos s :
  (pos ≤ String.length s)%nat →
  ∃ s1, s = s1 +:+ substr pos s ∧ String.length s1 = pos.
Proof.
  revert s. induction pos as [|pos IH]; intros s Hlen.
  - by exists EmptyString.
  - destruct s as [|c s]; simpl in Hlen; [lia|].
    destruct (IH s) as (s1 & Hs & Hs1); [lia|].
    exists (String c s1). simpl. rewrite string_app_cons, <- Hs, Hs1. done.
Qed.



Lemma ends_with_app before suffix :
  ends_with (before +:+ suffix) suffix = true.
Proof.
  unfold ends_with. rewrite string_length_app.
  destruct (_ <? _)%nat eqn:Hlt; [apply Nat.ltb_lt in Hlt; lia|].
  replace (String.length before + String.length suffix
           - String.length suffix)%nat
    with (String.length before) by lia.
  rewrite substr_app. apply String.eqb_refl.
Qed.

Lemma ends_with_split str suffix :
  ends_with str suffix = true → ∃ before, str = before +:+ suffix.
Proof.
  unfold ends_with.
  destruct (String.length str <? String.length suffix)%nat eqn:Hlt; [done|].
  apply Nat.ltb_ge in Hlt. intros Heq%String.eqb_eq.
  destruct (substr_split (String.length str - String.length suffix) str)
    as (before & Hstr & _); [lia|].
  exists before. by rewrite <- Heq.
Qed.

(** X1.  [ends_with str suffix] holds exactly when [str] is some string
    followed by [suffix].  So every string ends with the empty suffix and
    with itself, and the test is false, not an error, when [str] is shorter
    than [suffix]. *)
Theorem ends_with_suffix str suffix :
  (ends_with str suffix = true ↔ ∃ before, str = before +:+ suffix)
  ∧ ends_with str NO_PATH = true
  ∧ ends_with str str = true
  ∧ ((String.length str < String.length suffix)%nat →
     ends_with str suffix = false).
Proof.
  split_and!.
  - split; [apply ends_with_split|]. intros [before ->]. apply ends_with_app.
  - rewrite <- (string_app_nil_r str) at 1. apply ends_with_app.
  - apply (ends_with_app EmptyString).
  - intros Hlt. unfold ends_with. by apply Nat.ltb_lt in Hlt as ->.
Qed.


(** ** The paths the walker forms *)

(** A file found below an entry of a directory. *)
Lemma elem_of_files_in p entries pf :
  pf ∈ files_in p entries ↔
  ∃ name e, (name, e) ∈ entries ∧ is_pseudo_entry name = false
            ∧ (e = RegFile pf.2 ∧ pf.1 = join_path p name
               ∨ pf ∈ files_under (join_path p name) e).
Proof.
  induction entries as [|[name e] entries IH].
  - split; [by intros ?%elem_of_nil|].
    by intros (? & ? & ?%elem_of_nil & _).
  - rewrite files_in_cons, elem_of_app, IH. split.
    + intros [Hpf|(name' & e' & Hin & Hps & Hpf)].
      * exists name, e. destruct (is_pseudo_entry name);
          [by apply elem_of_nil in Hpf|].
        split_and!; [by left|done|].
        destruct e as [f|ok sub|]; [|by right|by apply elem_of_nil in Hpf].
        apply list_elem_of_singleton in Hpf as ->. by left.
      * exists name', e'. split_and!; [by right|done..].
    + intros (name' & e' & [[= -> ->]|Hin]%elem_of_cons & Hps & Hpf).
      * left. rewrite Hps. destruct Hpf as [[-> Hpath]|Hpf].
        -- apply list_elem_of_singleton. destruct pf. simpl in *. by subst.
        -- destruct e; try done; by apply elem_of_nil in Hpf.
      * right. eauto.
Qed.

Lemma join_path_assoc p name rest :
  join_path (join_path p name) rest = join_path p (join_path name rest).
Proof.
  unfold join_path. by rewrite string_app_assoc, string_app_cons.
Qed.

(** Every file below a directory has a path that extends the path of the
    directory. *)
Lemma files_under_join e :
  ∀ q pf, pf ∈ files_under q e → ∃ rest, pf.1 = join_path q rest.
Proof.
  induction e as [f|ok entries IH|] using node_nested_ind;
    intros q pf Hpf; try by apply elem_of_nil in Hpf.
  change (files_under q (Directory ok entries)) with (files_in q entries)
    in Hpf.
  apply elem_of_files_in in Hpf as (name & e & Hin & _ & [[_ ?]|Hpf]);
    [by exists name|].
  rewrite Forall_forall in IH.
  destruct (IH _ Hin _ _ Hpf) as [rest ->].
  eexists. apply join_path_assoc.
Qed.

(** Every directory below a directory is that directory or has a path that
    extends its path. *)
Lemma dirs_under_join e :
  ∀ ancestors q r,
    r ∈ dirs_under ancestors q e →
    row_path r = q ∨ ∃ rest, row_path r = join_path q rest.
Proof.
  induction e as [f|ok entries IH|] using node_nested_ind;
    intros ancestors q r Hr; try by apply elem_of_nil in Hr.
  rewrite dirs_under_Directory in Hr.
  apply elem_of_cons in Hr as [->|Hr]; [by left|right].
  apply elem_of_dirs_in in Hr as (name & e & Hin & _ & Hr).
  rewrite Forall_forall in IH.
  destruct (IH _ Hin _ _ _ Hr) as [->|[rest ->]]; [by exists name|].
  eexists. apply join_path_assoc.
Qed.

Lemma clean_path_join s : clean_path (join_path CURRENT_DIRECTORY s) = s.
Proof.
  unfold clean_path, join_path, CURRENT_DIRECTORY, PATH_SEPARATOR.
  rewrite !string_app_cons. simpl. by destruct s.
Qed.

(** X3.  [clean_path] undoes the prefix that the walk from "." puts before
    every path: for each file and each directory below the working
    directory it returns the path relative to the working directory, from
    which the full path is recovered by putting "./" back; the working
    directory itself stays ".".  A path that does not start with "./" is
    returned as it is. *)
Theorem clean_path_relative cwd :
  (∀ pf, pf ∈ files_under CURRENT_DIRECTORY cwd →
         join_path CURRENT_DIRECTORY (clean_path pf.1) = pf.1)
  ∧ (∀ r, r ∈ dirs_under [] CURRENT_DIRECTORY cwd →
          row_path r = CURRENT_DIRECTORY
          ∧ clean_path (row_path r) = CURRENT_DIRECTORY
          ∨ join_path CURRENT_DIRECTORY (clean_path (row_path r))
            = row_path r)
  ∧ (∀ s, clean_path (join_path CURRENT_DIRECTORY s) = s)
  ∧ (∀ s, String.prefix "./" s = false → clean_path s = s).
Proof.
  split_and!.
  - intros pf [rest ->]%files_under_join. by rewrite clean_path_join.
  - intros r [->|[rest ->]]%dirs_under_join; [by left|right].
    by rewrite clean_path_join.
  - apply clean_path_join.
  - intros s Hs. unfold clean_path.
    change (CURRENT_DIRECTORY +:+ String PATH_SEPARATOR "") with "./".
    by rewrite Hs.
Qed.

(** ** The file count and the bookkeeping tables *)

(** X4.  [n_files] is the number of regular files in and below the working
    directory, those whose second [stat] failed included, as long as that
    number fits a [long]. *)
Theorem n_files_counts_files n cwd g res g' :
  analyzeDir n cwd g = Returns res g' →
  file_count CURRENT_DIRECTORY cwd ≤ LONG_MAX →
  n_files res = Z.of_nat (length (files_under CURRENT_DIRECTORY cwd)).
Proof.
  intros (ds & g1 & Hwalk & _ & _ & _ & _ & _ & _ & -> & _)%analyzeDir_returns
    Hfit.
  pose proof (get_dir_stats_walked _ [] _ _ _ _ _ Hwalk) as (-> & _).
  simpl. apply to_long_in_range. unfold file_count, LONG_MIN in *. lia.
Qed.

(** X5.  After an analysis in a fresh process, [parent_map] holds for
    every directory of the tree the path of its parent (the empty path for
    the working directory) and [n_files_map] its recursive file count as an
    [int]; [n_files_map] holds besides the entry that the vacancy resolver
    plants for the empty path, with the count 1; and neither table holds
    any other key. *)
Theorem tables_after_analysis n cwd res g' :
  NoDup (row_path <$> dirs_under [] CURRENT_DIRECTORY cwd) →
  analyzeDir n cwd globals_init = Returns res g' →
  (∀ r, r ∈ dirs_under [] CURRENT_DIRECTORY cwd →
        parent_map g' !! row_path r = Some (parent_of (row_ancestors r))
        ∧ n_files_map g' !! row_path r = Some (to_int (row_files r)))
  ∧ n_files_map g' !! NO_PATH = Some 1
  ∧ (∀ k, k ∉ row_path <$> dirs_under [] CURRENT_DIRECTORY cwd →
          parent_map g' !! k = None
          ∧ (k ≠ NO_PATH → n_files_map g' !! k = None)).
Proof.
  intros Hnd (ds & g1 & Hwalk & Hvacant & _)%analyzeDir_returns.
  rewrite (fresh_walk_resolver cwd ds g1 Hnd Hwalk) in Hvacant.
  injection Hvacant as _ <-.
  destruct (get_dir_stats_records cwd [] _ _ _ _ Hnd Hwalk) as [Hrec Hkept].
  split_and!.
  - intros r Hr. by apply (seeded_lookup_row cwd).
  - simpl. by rewrite lookup_insert_eq.
  - intros k Hk. destruct (Hkept k Hk) as [Hp Hn]. simpl. split; [done|].
    intros Hne. by rewrite lookup_insert_ne.
Qed.

(** ** Where the largest file is *)

Lemma located_more F1 F2 ds : located F1 ds → located (F1 ++ F2) ds.
Proof.
  intros [Hs|(pf & Hin & Hpf)]; [by left|right].
  exists pf. split; [|done]. apply elem_of_app. by left.
Qed.

Lemma visit_file_located p q f F ds g ds' g' :
  located F ds →
  visit_file p q f ds g = Returns ds' g' →
  located (F ++ [(q, f)]) ds'.
Proof.
  intros Hloc (_ & _ & _ & _ & Hl & _)%visit_file_returns.
  unfold largest_after in Hl.
  destruct (st_size f) as [size|] eqn:Hsize.
  - destruct (size >? ds_largest_file_size ds).
    + injection Hl as Hpath Hs. right. exists (q, f). simpl.
      rewrite Hpath, Hs. split_and!; try done.
      apply elem_of_app. right. by left.
    + injection Hl as Hpath Hs. apply located_more.
      unfold located. by rewrite Hpath, Hs.
  - injection Hl as Hpath Hs. apply located_more.
    unfold located. by rewrite Hpath, Hs.
Qed.

Lemma merge_subdir_located p F Fsub sub ds g ds' g' :
  Forall cleaned_once Fsub →
  located F ds →
  located Fsub sub →
  merge_subdir p sub ds g = Returns ds' g' →
  located (F ++ Fsub) ds'.
Proof.
  intros Hclean Hloc Hsub Hmerge.
  destruct (merge_subdir_returns p sub ds g)
    as (ds'' & g'' & Heq & _ & _ & _ & Hl & _).
  rewrite Hmerge in Heq. injection Heq as <- <-.
  destruct (ds_largest_file_size sub >? ds_largest_file_size ds).
  - injection Hl as Hpath Hs.
    destruct Hsub as [Hd|(pf & Hin & Hsize & Hp)].
    + left. by rewrite Hs.
    + right. exists pf. rewrite Hpath, Hs, Hp.
      split_and!; try done.
      * apply elem_of_app. by right.
      * rewrite Forall_forall in Hclean. by apply Hclean.
  - injection Hl as Hpath Hs. apply located_more.
    unfold located. by rewrite Hpath, Hs.
Qed.

Lemma readdir_loop_located p entries :
  Forall (λ e, returns_located e.2) entries →
  ∀ F ds0 g ds g',
    Forall cleaned_once (files_in p entries) →
    located F ds0 →
    readdir_loop get_dir_stats p entries ds0 g = Returns ds g' →
    located (F ++ files_in p entries) ds.
Proof.
  induction 1 as [|[name e] entries IHe _ IH];
    intros F ds0 g ds g' Hclean Hloc Hloop.
  - injection Hloop as <- <-. by apply located_more.
  - rewrite files_in_cons in *. simpl in Hloop.
    destruct (is_pseudo_entry name); [by eapply IH|].
    apply Forall_app in Hclean as [Hclean1 Hclean].
    destruct e as [f|ok sub_entries|]; [| |by eapply IH].
    + apply bind_returns in Hloop as (ds1 & g1 & Hfile & Hloop).
      rewrite app_assoc. eapply IH; [done| |done].
      by eapply visit_file_located.
    + apply bind_returns in Hloop as (sub & g1 & Hsub & Hloop).
      apply bind_returns in Hloop as (ds1 & g2 & Hmerge & Hloop).
      rewrite app_assoc. eapply IH; [done| |done].
      eapply merge_subdir_located; [done|done| |done].
      by eapply IHe.
Qed.

Lemma get_dir_stats_located e : returns_located e.
Proof.
  induction e as [f|ok entries IH|] using node_nested_ind;
    intros q pp g ds g' Hclean Hrun; try done.
  destruct ok; [|done]. simpl in Hrun.
  apply bind_returns in Hrun as ([] & g1 & _ & Hrun).
  apply bind_returns in Hrun as ([] & g2 & _ & Hrun).
  apply (readdir_loop_located _ _ IH [] _ _ _ _ Hclean) in Hrun; [done|].
  by left.
Qed.

(** A path below the working directory is cleaned once and for all when
    the name by which the working directory lists its first component
    does not itself start with "./". *)
Lemma cleaned_once_plain name rest :
  is_pseudo_entry name = false →
  String.prefix "./" name = false →
  clean_path name = name
  ∧ clean_path (join_path name rest) = join_path name rest.
Proof.
  intros Hps Hname. unfold clean_path.
  change (CURRENT_DIRECTORY +:+ String PATH_SEPARATOR "") with "./".
  rewrite Hname. split; [done|].
  assert (String.prefix "./" (join_path name rest) = false) as ->; [|done].
  unfold join_path.
  destruct name as [|c [|d name]]; rewrite ?string_app_cons in *;
    cbn [String.prefix] in *.
  - done.
  - destruct (ascii_dec "." c) as [<-|]; [|done]. done.
  - destruct (ascii_dec "." c) as [<-|]; [|done].
    destruct (ascii_dec "/" d); [by destruct name|done].
Qed.

Lemma files_under_cleaned_once ok entries :
  (∀ name e, (name, e) ∈ entries →
     String.prefix "./" name = false) →
  Forall cleaned_once (files_under CURRENT_DIRECTORY (Directory ok entries)).
Proof.
  intros Hnames. apply Forall_forall. intros pf Hpf.
  change (files_under _ _) with (files_in CURRENT_DIRECTORY entries) in Hpf.
  apply elem_of_files_in in Hpf as (name & e & Hin & Hps & [[_ Hp]|Hpf]);
    unfold cleaned_once.
  - rewrite Hp, clean_path_join.
    by destruct (cleaned_once_plain name NO_PATH Hps (Hnames _ _ Hin)) as [-> _].
  - apply files_under_join in Hpf as [rest ->].
    rewrite join_path_assoc, clean_path_join.
    by destruct (cleaned_once_plain name rest Hps (Hnames _ _ Hin)) as [_ ->].
Qed.

(** X6.  [largest_file_size] is the largest size [stat] gave for a regular
    file in or below the working directory, or the sentinel when there is
    none; and when it is not the sentinel, [largest_file_path] is the path,
    relative to the working directory, of a file of exactly that size.  No
    name listed in the working directory starts with "./" (a name holds no
    "/"). *)
Theorem largest_file_is_a_file n ok entries g res g' :
  (∀ name e, (name, e) ∈ entries →
     String.prefix "./" name = false) →
  analyzeDir n (Directory ok entries) g = Returns res g' →
  largest_file_size res =
    max_size (files_under CURRENT_DIRECTORY (Directory ok entries))
  ∧ (largest_file_size res ≠ DEFAULT_LARGEST_SIZE →
     ∃ pf, pf ∈ files_under CURRENT_DIRECTORY (Directory ok entries)
           ∧ st_size pf.2 = Some (largest_file_size res)
           ∧ join_path CURRENT_DIRECTORY (largest_file_path res) = pf.1).
Proof.
  intros Hnames
    (ds & g1 & Hwalk & _ & _ & _ & _ & -> & -> & _)%analyzeDir_returns.
  pose proof (get_dir_stats_walked _ [] _ _ _ _ _ Hwalk)
    as (_ & _ & _ & Hsize & _).
  pose proof (files_under_cleaned_once ok entries Hnames) as Hclean.
  pose proof (get_dir_stats_located _ _ _ _ _ _ Hclean Hwalk) as Hloc.
  split.
  - rewrite Hsize.
    change (ds_largest_file_size DirStats_init) with DEFAULT_LARGEST_SIZE.
    pose proof (max_size_ge
      (files_under CURRENT_DIRECTORY (Directory ok entries))).
    lia.
  - intros Hne. destruct Hloc as [?|(pf & Hin & Hs & Hp)]; [done|].
    exists pf. split_and!; try done. rewrite Hp.
    apply files_under_join in Hin as [rest ->].
    by rewrite clean_path_join.
Qed.

(** ** Entries the walker passes over *)

Lemma readdir_loop_counted p entries ds g :
  readdir_loop get_dir_stats p (filter (λ e, counted e) entries) ds g =
  readdir_loop get_dir_stats p entries ds g.
Proof.
  revert ds g. induction entries as [|[name e] entries IH]; intros ds g.
  - done.
  - rewrite filter_cons. cbn [readdir_loop].
    destruct (is_pseudo_entry name) eqn:Hps.
    + rewrite decide_False; [apply IH|].
      unfold counted. cbn [fst]. rewrite Hps. by intros [].
    + destruct e as [f|ok sub|].
      * rewrite decide_True by (unfold counted; cbn [fst]; by rewrite Hps).
        cbn [readdir_loop]. rewrite Hps. unfold mbind, Run_bind.
        destruct (visit_file _ _ _ _ _); [apply IH|done].
      * rewrite decide_True by (unfold counted; cbn [fst]; by rewrite Hps).
        cbn [readdir_loop]. rewrite Hps. unfold mbind, Run_bind.
        destruct (get_dir_stats _ _ _ _) as [sub_stats g1|]; [|done].
        destruct (merge_subdir _ _ _ _); [apply IH|done].
      * rewrite decide_False; [apply IH|].
        unfold counted. cbn [fst]. rewrite Hps. by intros [].
Qed.

(** X7.  The walker passes over every entry that is named "." or "..", or
    that [stat] reports neither as a regular file nor as a directory (a
    socket, a device, a link to nothing): a directory listed with or
    without such entries gives the same statistics, the same tables and the
    same result. *)
Theorem uncounted_entries_ignored ok entries :
  (∀ q pp g,
     get_dir_stats (Directory ok (filter (λ e, counted e) entries)) q pp g
     = get_dir_stats (Directory ok entries) q pp g)
  ∧ (∀ n g,
       analyzeDir n (Directory ok (filter (λ e, counted e) entries)) g
       = analyzeDir n (Directory ok entries) g).
Proof.
  assert (∀ q pp g,
     get_dir_stats (Directory ok (filter (λ e, counted e) entries)) q pp g
     = get_dir_stats (Directory ok entries) q pp g) as Hwalk.
  { intros q pp g. destruct ok; [|done]. cbn [get_dir_stats].
    unfold mbind, Run_bind. simpl. apply readdir_loop_counted. }
  split; [done|]. intros n g. unfold analyzeDir, mbind, Run_bind.
  by rewrite Hwalk.
Qed.

(** ** When the analysis returns *)


Lemma vacant_loop_total items :
  ∀ top g, ∃ vacant g', vacant_loop items top g = Returns vacant g'.
Proof.
  induction items as [|[k v] items IH]; intros top g.
  - by eexists _, _.
  - cbn [vacant_loop]. destruct (v =? 0); [|apply IH].
    unfold mbind, Run_bind, parent_map_at.
    destruct (subscript NO_PATH k (parent_map g)) as [parent pm].
    unfold n_files_map_at.
    destruct (subscript 0 parent _) as [count nm].
    destruct (count >? 0); apply IH.
Qed.

Lemma get_top_level_vacant_dirs_total g :
  ∃ vacant g', get_top_level_vacant_dirs g = Returns vacant g'.
Proof.
  unfold get_top_level_vacant_dirs.
  erewrite bind_step by done. erewrite bind_step by done.
  destruct (vacant_loop_total
              (map_to_list (n_files_map
                 (set_n_files_map (<[NO_PATH:=1]> (n_files_map g)) g))) []
              (set_n_files_map (<[NO_PATH:=1]> (n_files_map g)) g))
    as (vacant & g' & Hloop).
  erewrite bind_step by exact Hloop. by eexists _, _.
Qed.


(** ** Why the analysis ends the process *)

Lemma bind_exits_inv {A B} (m : Run A) (k : A → Run B) g message :
  (m ≫= k) g = Exits message →
  m g = Exits message ∨ ∃ a g1, m g = Returns a g1 ∧ k a g1 = Exits message.
Proof.
  unfold mbind, Run_bind. destruct (m g) as [a g1|msg]; [by eauto|].
  intros [= ->]. by left.
Qed.

Lemma exit_cause_app_l rows1 rows2 files1 files2 message :
  exit_cause rows1 files1 message →
  exit_cause (rows1 ++ rows2) (files1 ++ files2) message.
Proof.
  intros [(r & Hr & H)|[(pf & Hpf & H)|(pf & Hpf & H)]].
  - left. exists r. split; [|done]. apply elem_of_app. by left.
  - right. left. exists pf. split; [|done]. apply elem_of_app. by left.
  - right. right. exists pf. split; [|done]. apply elem_of_app. by left.
Qed.

Lemma exit_cause_app_r rows1 rows2 files1 files2 message :
  exit_cause rows2 files2 message →
  exit_cause (rows1 ++ rows2) (files1 ++ files2) message.
Proof.
  intros [(r & Hr & H)|[(pf & Hpf & H)|(pf & Hpf & H)]].
  - left. exists r. split; [|done]. apply elem_of_app. by right.
  - right. left. exists pf. split; [|done]. apply elem_of_app. by right.
  - right. right. exists pf. split; [|done]. apply elem_of_app. by right.
Qed.

Lemma exit_cause_cons r rows files message :
  exit_cause rows files message → exit_cause (r :: rows) files message.
Proof.
  intros [(r' & Hr & H)|[H|H]]; [|by right; left|by right; right].
  left. exists r'. split; [by right|done].
Qed.

Lemma visit_file_exits p q f ds g message :
  visit_file p q f ds g = Exits message →
  exit_cause [] [(q, f)] message.
Proof.
  unfold visit_file. cbv zeta. intros H.
  apply bind_exits_inv in H as [[=]|([] & g1 & _ & H)].
  apply bind_exits_inv in H as [H|([] & g2 & _ & H)].
  - destruct (ends_with (lowercase q) ".txt") eqn:Htxt; [|done].
    unfold count_words_in_file in H.
    destruct (contents f) as [bytes|] eqn:Hbytes; [done|].
    injection H as <-. right. left. exists (q, f).
    split_and!; [by left|done..].
  - apply bind_exits_inv in H as [H|(image & g3 & _ & [=])].
    unfold get_image_info in H.
    destruct (identify f) as [|line status] eqn:Hid.
    + injection H as <-. right. right. exists (q, f).
      split_and!; [by left|done..].
    + destruct (read_dimensions line) as [w h].
      by destruct ((status =? SYSCALL_SUCCESS) && (w >? 0) && (h >? 0)).
Qed.

Lemma readdir_loop_exits ancestors p entries :
  Forall (λ e, exits_explained e.2) entries →
  ∀ ds0 g message,
    readdir_loop get_dir_stats p entries ds0 g = Exits message →
    exit_cause (dirs_in ancestors p entries) (files_in p entries) message.
Proof.
  induction 1 as [|[name e] entries IHe _ IH]; intros ds0 g message Hloop.
  - done.
  - rewrite dirs_in_cons, files_in_cons. simpl in Hloop.
    destruct (is_pseudo_entry name); [by eapply IH|].
    destruct e as [f|ok sub_entries|]; [| |by eapply IH].
    + apply bind_exits_inv in Hloop as [Hfile|(ds1 & g1 & _ & Hloop)].
      * apply exit_cause_app_l. by eapply visit_file_exits.
      * apply exit_cause_app_r. by eapply IH.
    + apply bind_exits_inv in Hloop as [Hsub|(sub & g1 & _ & Hloop)].
      * apply exit_cause_app_l. by eapply IHe.
      * apply bind_exits_inv in Hloop as [Hmerge|(ds1 & g2 & _ & Hloop)].
        -- destruct (merge_subdir_returns p sub ds0 g1) as (? & ? & Heq & _).
           by rewrite Heq in Hmerge.
        -- apply exit_cause_app_r. by eapply IH.
Qed.

Lemma get_dir_stats_exits e : exits_explained e.
Proof.
  induction e as [f|ok entries IH|] using node_nested_ind;
    intros ancestors q pp g message Hdir Hrun; try done.
  rewrite dirs_under_Directory.
  destruct ok.
  - simpl in Hrun.
    apply bind_exits_inv in Hrun as [[=]|([] & g1 & _ & Hrun)].
    apply bind_exits_inv in Hrun as [[=]|([] & g2 & _ & Hrun)].
    apply exit_cause_cons. by eapply readdir_loop_exits.
  - injection Hrun as <-. left. eexists. split; [by left|done].
Qed.

(** X9.  When the analysis ends the process instead of returning, the
    message names the cause and the full path where it was met: the
    working directory is not a directory; a directory of the tree cannot
    be opened; a text file cannot be opened; [popen] fails on a file; or,
    the walk having met nothing fatal, the vector could not be resized
    (the count asked for is negative, or a length does not fit an
    [int]). *)
Theorem analyzeDir_exit_cause n cwd g message :
  analyzeDir n cwd g = Exits message →
  (is_dir cwd = false
   ∧ message = "could not opendir " +:+ CURRENT_DIRECTORY)
  ∨ exit_cause (dirs_under [] CURRENT_DIRECTORY cwd)
      (files_under CURRENT_DIRECTORY cwd) message
  ∨ (walkable CURRENT_DIRECTORY cwd ∧ message = "std::length_error").
Proof.
  unfold analyzeDir. cbv zeta. intros H.
  apply bind_exits_inv in H as [H|(ds & g1 & Hwalk & H)].
  { destruct (is_dir cwd) eqn:Hdir.
    - right. left. by eapply get_dir_stats_exits.
    - left. split; [done|]. destruct cwd; by try injection H as <-. }
  right. right. split.
  { apply (get_dir_stats_returns_walkable _ _ NO_PATH g). eauto. }
  assert (∀ A (v : list A) count g0 msg,
            resize v count g0 = Exits msg → msg = "std::length_error")
    as Hresize.
  { intros A v count g0 msg. unfold resize.
    destruct (count <? 0); [by intros [= <-]|done]. }
  apply bind_exits_inv in H as [[=]|(g2 & g3 & _ & H)].
  apply bind_exits_inv in H as [H|(words & g4 & _ & H)];
    [by eapply Hresize|].
  apply bind_exits_inv in H as [H|(images & g5 & _ & H)];
    [by eapply Hresize|].
  apply bind_exits_inv in H as [H|(vacant & g6 & _ & [=])].
  destruct (get_top_level_vacant_dirs_total g5) as (? & ? & Heq).
  by rewrite Heq in H.
Qed.

(** ** What the reported images are *)

Lemma probe_Some pf image :
  probe pf = Some image →
  ∃ first_line,
    identify pf.2 = PipeStream first_line SYSCALL_SUCCESS
    ∧ read_dimensions first_line = (width image, height image)
    ∧ path image = clean_path pf.1
    ∧ 0 < width image ∧ 0 < height image.
Proof.
  unfold probe, get_image_info.
  destruct (identify pf.2) as [|first_line status]; [done|].
  destruct (read_dimensions first_line) as [w h] eqn:Hdim.
  destruct (status =? SYSCALL_SUCCESS) eqn:Hstatus; [|done].
  destruct (w >? 0) eqn:Hw; [|done].
  destruct (h >? 0) eqn:Hh; [|done].
  intros [= <-]. exists first_line. simpl.
  apply Z.eqb_eq in Hstatus as ->.
  apply Z.gtb_lt in Hw, Hh. by split_and!.
Qed.

(** X10.  Every image in [largest_images] comes from a regular file of the
    tree, whatever its extension: from one for which the [identify] command
    ended with status 0 and whose first line of output gave the reported
    width and height, both positive; and its path is the path of that file
    relative to the working directory. *)
Theorem largest_images_are_images n cwd g res g' image :
  analyzeDir n cwd g = Returns res g' →
  image ∈ largest_images res →
  ∃ pf first_line,
    pf ∈ files_under CURRENT_DIRECTORY cwd
    ∧ identify pf.2 = PipeStream first_line SYSCALL_SUCCESS
    ∧ read_dimensions first_line = (width image, height image)
    ∧ 0 < width image ∧ 0 < height image
    ∧ join_path CURRENT_DIRECTORY (path image) = pf.1.
Proof.
  intros (ds & g1 & Hwalk & _ & _ & _ & _ & _ & _ & _ & _ & _ & _ & Himages)
    %analyzeDir_returns Hin.
  rewrite Himages in Hin. apply subseteq_take in Hin.
  rewrite std_sort_Permutation in Hin.
  pose proof (get_dir_stats_walked _ [] _ _ _ _ _ Hwalk)
    as (_ & _ & _ & _ & _ & Hprobed & _).
  rewrite Hprobed in Hin. simpl in Hin.
  apply list_elem_of_omap in Hin as (pf & Hpf & Hprobe).
  apply probe_Some in Hprobe as (first_line & Hid & Hdim & Hpath & Hw & Hh).
  exists pf, first_line. split_and!; try done.
  rewrite Hpath. apply files_under_join in Hpf as [rest ->].
  by rewrite clean_path_join.
Qed.

(** ** The keys of the word table *)

Lemma isalpha_tolower_islower c :
  isalpha (tolower c) = true → islower (tolower c) = true.
Proof. destruct c as [[] [] [] [] [] [] [] []]; by vm_compute. Qed.

Lemma all_lower_push_back s c :
  all_lower s = true → islower c = true → all_lower (push_back s c) = true.
Proof.
  intros Hs Hc. unfold push_back. induction s as [|d s IH].
  - simpl. by rewrite Hc.
  - rewrite string_app_cons. simpl in *.
    apply andb_true_iff in Hs as [-> Hs]. by apply IH.
Qed.

Lemma flush_word_keys next_word table :
  all_lower next_word = true →
  keys_are_words table → keys_are_words (flush_word next_word table).
Proof.
  intros Hlower Hkeys. unfold flush_word.
  destruct (MIN_WORD_SIZE <=? Z.of_nat (String.length next_word)) eqn:Hlen;
    [|done].
  intros w count. unfold increment.
  destruct (decide (w = next_word)) as [->|Hne].
  - intros _. split; [done|lia].
  - rewrite lookup_insert_ne by done. apply Hkeys.
Qed.

Lemma scan_words_keys bytes :
  ∀ next_word table,
    all_lower next_word = true →
    keys_are_words table →
    keys_are_words (scan_words bytes next_word table).
Proof.
  induction bytes as [|c bytes IH]; intros next_word table Hlower Hkeys.
  - by apply flush_word_keys.
  - cbn [scan_words]. destruct (isalpha (tolower c)) eqn:Halpha.
    + apply IH; [|done]. apply all_lower_push_back; [done|].
      by apply isalpha_tolower_islower.
    + apply IH; [done|]. by apply flush_word_keys.
Qed.

Lemma count_files_keys files :
  ∀ table, keys_are_words table → keys_are_words (count_files files table).
Proof.
  unfold count_files.
  induction files as [|pf files IH]; intros table Hkeys; [done|].
  simpl. apply IH. destruct (is_txt pf.1); [|done].
  by apply scan_words_keys.
Qed.

(** X11.  The counter only ever enters words into the table: if every key
    of [most_common_words_map] is a string of at least five lower-case
    letters before the analysis (as in a fresh process, where the table is
    empty), then so is every key after it, and so is every word of
    [most_common_words]. *)
Theorem most_common_words_are_words n cwd g res g' :
  keys_are_words (most_common_words_map g) →
  analyzeDir n cwd g = Returns res g' →
  keys_are_words (most_common_words_map g')
  ∧ ∀ w count, (w, count) ∈ most_common_words res → is_word w.
Proof.
  intros Hkeys (ds & g1 & Hwalk & Hvacant & _ & _ & _ & _ & _ & _ & _ & _
                & Hwords & _)%analyzeDir_returns.
  pose proof (get_dir_stats_walked _ [] _ _ _ _ _ Hwalk)
    as (_ & _ & _ & _ & _ & _ & Htable).
  apply get_top_level_vacant_dirs_words in Hvacant.
  assert (keys_are_words (most_common_words_map g1)) as Hkeys1.
  { rewrite Htable. by apply count_files_keys. }
  split; [by rewrite Hvacant|].
  intros w count Hin. rewrite Hwords in Hin. apply subseteq_take in Hin.
  rewrite std_sort_Permutation in Hin.
  apply elem_of_map_to_list in Hin. by eapply Hkeys1.
Qed.

(** ** Letters in either case *)

Lemma tolower_tolower c : tolower (tolower c) = tolower c.
Proof. destruct c as [[] [] [] [] [] [] [] []]; reflexivity. Qed.

Lemma scan_words_lowercase bytes :
  ∀ next_word table,
    scan_words (lowercase bytes) next_word table =
    scan_words bytes next_word table.
Proof.
  induction bytes as [|c bytes IH]; intros next_word table; [done|].
  cbn [lowercase scan_words]. rewrite tolower_tolower.
  destruct (isalpha (tolower c)); apply IH.
Qed.

(** X12.  The counter does not tell the case of a letter: two files whose
    bytes differ only in the case of letters change the table in the same
    way (and either both can be opened or neither). *)
Theorem count_words_ignores_case file_path f f' g :
  lowercase <$> contents f = lowercase <$> contents f' →
  count_words_in_file file_path f g = count_words_in_file file_path f' g.
Proof.
  unfold count_words_in_file.
  destruct (contents f) as [bytes|], (contents f') as [bytes'|]; try done.
  intros [= Hsame].
  by rewrite <- (scan_words_lowercase bytes), Hsame, scan_words_lowercase.
Qed.

(** ** A tree without files *)

Lemma dirs_under_ancestors_extend e : ancestors_extend e.
Proof.
  induction e as [f|ok entries IH|] using node_nested_ind;
    intros ancestors q r Hr; try by apply elem_of_nil in Hr.
  rewrite dirs_under_Directory in Hr.
  apply elem_of_cons in Hr as [->|Hr]; [by exists []|].
  apply elem_of_dirs_in in Hr as (name & e & Hin & _ & Hr).
  rewrite Forall_forall in IH.
  destruct (IH _ Hin _ _ _ Hr) as [nearer ->].
  exists (nearer ++ [(q, file_count q (Directory ok entries))]).
  by rewrite <- app_assoc.
Qed.

(** In a tree without files, the working directory is the only top-level
    vacant directory. *)
Lemma top_level_vacant_root ok entries r :
  files_under CURRENT_DIRECTORY (Directory ok entries) = [] →
  r ∈ dirs_under [] CURRENT_DIRECTORY (Directory ok entries) →
  top_level_vacant r ↔
  r = MkRow CURRENT_DIRECTORY [] 0 ok.
Proof.
  intros Hnone Hr.
  assert (file_count CURRENT_DIRECTORY (Directory ok entries) = 0) as Hfc.
  { unfold file_count. by rewrite Hnone. }
  pose proof (dirs_under_row_facts _ _ _ _ Hr) as (_ & Hfiles & Hanc & _).
  rewrite Hfc in Hfiles.
  rewrite dirs_under_Directory, Hfc in Hr.
  apply elem_of_cons in Hr as [->|Hr].
  { split; [done|]. intros _. by split. }
  split; [|intros ->; by split].
  intros [_ Hparent]. exfalso. apply Hparent.
  apply elem_of_dirs_in in Hr as (name & e & _ & _ & Hr).
  apply dirs_under_ancestors_extend in Hr as [nearer Hnearer].
  unfold row_parent_files.
  destruct (row_ancestors r) as [|[a c] rest] eqn:Hrow.
  { by destruct nearer. }
  f_equal.
  destruct (Hanc a c) as [[]%elem_of_nil|(r' & Hr' & _ & <-)]; [by left|].
  pose proof (dirs_under_row_facts _ _ _ _ Hr') as (_ & Hfiles' & _).
  rewrite Hfc in Hfiles'. lia.
Qed.

(** X13.  In a fresh process, the analysis of a tree that holds no regular
    file (an empty directory, or directories only) reports exactly one
    vacant directory, the working directory itself, as ".", and none of
    the directories below it. *)
Theorem vacant_dirs_no_file n cwd res g' :
  NoDup (row_path <$> dirs_under [] CURRENT_DIRECTORY cwd) →
  files_under CURRENT_DIRECTORY cwd = [] →
  analyzeDir n cwd globals_init = Returns res g' →
  vacant_dirs res = [CURRENT_DIRECTORY] ∧ n_files res = 0.
Proof.
  intros Hnd Hnone (ds & g1 & Hwalk & Hvacant & _ & _ & _ & _ & _ & Hfiles & _)
    %analyzeDir_returns.
  pose proof (get_dir_stats_walked _ [] _ _ _ _ _ Hwalk) as (Hcount & _).
  rewrite Hnone in Hcount.
  split; [|by rewrite Hfiles, Hcount].
  rewrite (fresh_walk_resolver cwd ds g1 Hnd Hwalk) in Hvacant.
  injection Hvacant as <- _.
  destruct (get_dir_stats_records cwd [] _ _ _ _ Hnd Hwalk) as [Hrec Hkept].
  assert (∀ k, k ∉ row_path <$> dirs_under [] CURRENT_DIRECTORY cwd →
               k ≠ NO_PATH → n_files_map g1 !! k = None) as Hnothing.
  { intros k Hk _. by destruct (Hkept k Hk) as [_ ->]. }
  assert (file_count CURRENT_DIRECTORY cwd ≤ INT_MAX) as Hfit.
  { unfold file_count. by rewrite Hnone. }
  destruct (proj1 (get_dir_stats_returns_walkable cwd CURRENT_DIRECTORY
                     NO_PATH globals_init)) as [[entries ->] _]; [by eauto|].
  apply Permutation_singleton_r. rewrite std_sort_Permutation.
  apply Permutation_singleton_r.
  change (<[NO_PATH:=1]> (n_files_map g1)) with (n_files_map (seeded g1)).
  assert (filter (λ kv, vacant_entry (seeded g1) kv)
            (map_to_list (n_files_map (seeded g1)))
          = [(CURRENT_DIRECTORY, 0)]) as ->; [|done].
  apply Permutation_singleton_r, NoDup_Permutation.
  { apply NoDup_filter, NoDup_map_to_list. }
  { apply NoDup_singleton. }
  intros [k v]. rewrite list_elem_of_filter, elem_of_map_to_list,
    list_elem_of_singleton.
  assert (MkRow CURRENT_DIRECTORY [] 0 true
          ∈ dirs_under [] CURRENT_DIRECTORY (Directory true entries))
    as Hroot.
  { rewrite dirs_under_Directory. unfold file_count. rewrite Hnone. by left. }
  split.
  - intros [Hentry Hlookup]. apply Is_true_true in Hentry.
    apply (seeded_lookup_key _ _ Hrec Hnothing) in Hlookup
      as [[-> ->]|(r & Hr & <- & <-)]; [done|].
    rewrite (row_files_to_int _ Hfit r Hr) in *.
    apply (vacant_entry_row _ _ Hrec Hfit r Hr) in Hentry.
    by apply (top_level_vacant_root true entries r Hnone Hr) in Hentry as ->.
  - intros [= -> ->]. split.
    + apply Is_true_true.
      apply (vacant_entry_row _ _ Hrec Hfit _ Hroot).
      by apply (top_level_vacant_root true entries _ Hnone Hroot).
    + by destruct (seeded_lookup_row _ _ Hrec _ Hroot) as [_ Hlookup].
Qed.

(** ** The comparators as orders *)

Lemma string_lt_spec a b : string_lt a b = true ↔ String.le a b ∧ a ≠ b.
Proof.
  split.
  - intros Hlt. split.
    + by apply string_lt_le, string_lt_asym.
    + intros ->. by rewrite string_lt_irrefl in Hlt.
  - intros [Hle Hne]. destruct (string_lt a b) eqn:Hlt; [done|].
    destruct Hne. apply (anti_symm String.le); [done|].
    by apply string_lt_le.
Qed.

Lemma string_lt_trans a b c :
  string_lt a b = true → string_lt b c = true → string_lt a c = true.
Proof.
  rewrite !string_lt_spec. intros [Hab Hne] [Hbc Hne'].
  split; [by etrans|]. intros ->. apply Hne.
  by apply (anti_symm String.le).
Qed.

Lemma string_lt_connected a b :
  a ≠ b → string_lt a b = true ∨ string_lt b a = true.
Proof.
  intros Hne. destruct (string_lt a b) eqn:Hab; [by left|right].
  destruct (string_lt b a) eqn:Hba; [done|].
  destruct Hne. by apply string_lt_total.
Qed.

(** X14.  [WordFrequencyComparator] is a strict total order on the entries
    of the word table, as [std::sort] requires of its comparator: no entry
    comes before itself, the order is transitive, of two entries at most
    one comes before the other, and of two different entries one does. *)
Theorem WordFrequencyComparator_strict_total :
  (∀ a, WordFrequencyComparator a a = false)
  ∧ (∀ a b c, WordFrequencyComparator a b = true →
              WordFrequencyComparator b c = true →
              WordFrequencyComparator a c = true)
  ∧ (∀ a b, WordFrequencyComparator a b = true →
            WordFrequencyComparator b a = false)
  ∧ (∀ a b, a ≠ b →
            WordFrequencyComparator a b = true
            ∨ WordFrequencyComparator b a = true).
Proof.
  split_and!.
  - intros a. unfold WordFrequencyComparator.
    rewrite Z.eqb_refl. apply string_lt_irrefl.
  - intros a b c. unfold WordFrequencyComparator.
    destruct (a.2 =? b.2) eqn:Hab, (b.2 =? c.2) eqn:Hbc; simpl.
    + replace (a.2 =? c.2) with true by lia. apply string_lt_trans.
    + replace (a.2 =? c.2) with false by lia. simpl. lia.
    + replace (a.2 =? c.2) with false by lia. simpl. lia.
    + intros Hgt Hgt'. replace (a.2 =? c.2) with false by lia. simpl. lia.
  - apply WordFrequencyComparator_asym.
  - intros [w1 c1] [w2 c2] Hne. unfold WordFrequencyComparator. simpl.
    destruct (c1 =? c2) eqn:Hc; simpl.
    + replace (c2 =? c1) with true by lia. simpl.
      apply string_lt_connected. intros ->. apply Hne. f_equal. lia.
    + replace (c2 =? c1) with false by lia. simpl. lia.
Qed.

(** X15.  [ImageInfoComparator] is a strict weak order, as [std::sort]
    requires of its comparator: no image comes before itself, the order is
    transitive, of two images at most one comes before the other, and
    neither comes before the other exactly when they have the same path
    and the same pixel count as computed in a [long]. *)
Theorem ImageInfoComparator_strict_weak :
  (∀ a, ImageInfoComparator a a = false)
  ∧ (∀ a b c, ImageInfoComparator a b = true →
              ImageInfoComparator b c = true →
              ImageInfoComparator a c = true)
  ∧ (∀ a b, ImageInfoComparator a b = true →
            ImageInfoComparator b a = false)
  ∧ (∀ a b, ImageInfoComparator a b = false
            ∧ ImageInfoComparator b a = false ↔
            to_long (width a * height a) = to_long (width b * height b)
            ∧ path a = path b).
Proof.
  split_and!.
  - intros a. unfold ImageInfoComparator. cbv zeta.
    rewrite Z.eqb_refl. apply string_lt_irrefl.
  - intros a b c. unfold ImageInfoComparator. cbv zeta.
    fold (area a) (area b) (area c).
    destruct (to_long (area a) =? to_long (area b)) eqn:Hab,
             (to_long (area b) =? to_long (area c)) eqn:Hbc; simpl.
    + replace (to_long (area a) =? to_long (area c)) with true by lia.
      apply string_lt_trans.
    + replace (to_long (area a) =? to_long (area c)) with false by lia.
      simpl. lia.
    + replace (to_long (area a) =? to_long (area c)) with false by lia.
      simpl. lia.
    + intros Hgt Hgt'.
      replace (to_long (area a) =? to_long (area c)) with false by lia.
      simpl. lia.
  - apply ImageInfoComparator_asym.
  - intros a b. unfold ImageInfoComparator. cbv zeta.
    fold (area a) (area b).
    destruct (to_long (area a) =? to_long (area b)) eqn:Hab; simpl.
    + replace (to_long (area b) =? to_long (area a)) with true by lia.
      simpl. split.
      * intros [Hlt Hlt']. split; [lia|]. by apply string_lt_total.
      * intros [_ ->]. by rewrite string_lt_irrefl.
    + replace (to_long (area b) =? to_long (area a)) with false by lia.
      simpl. split; [lia|]. intros [Heq _]. lia.
Qed.

(** ** The ranking does not depend on how the entries are met *)

Lemma StronglySorted_mono {A} (R1 R2 : relation A) l :
  (∀ a b, R1 a b → R2 a b) → StronglySorted R1 l → StronglySorted R2 l.
Proof.
  intros Himpl. induction 1 as [|a l _ IH Hall]; constructor; [done|].
  eapply Forall_impl; [exact Hall|]. intros b. apply Himpl.
Qed.

Lemma word_order_antisym a b : word_order a b → word_order b a → a = b.
Proof.
  destruct a as [w1 c1], b as [w2 c2]. unfold word_order. simpl.
  intros [?|[? Hle]] [?|[? Hle']]; try lia. subst.
  by rewrite (anti_symm String.le w1 w2).
Qed.

Lemma image_order_long_antisym a b :
  image_order_long a b → image_order_long b a → path a = path b.
Proof.
  unfold image_order_long.
  intros [?|[? Hle]] [?|[? Hle']]; try lia.
  by apply (anti_symm String.le).
Qed.

Lemma image_order_long_unique images ranked1 ranked2 :
  NoDup (path <$> images) →
  ranked1 ≡ₚ images → ranked2 ≡ₚ images →
  StronglySorted image_order_long ranked1 →
  StronglySorted image_order_long ranked2 →
  ranked1 = ranked2.
Proof.
  intros Hnd Hperm1 Hperm2 Hsorted1 Hsorted2.
  apply (StronglySorted_unique_strong image_order_long); try done.
  - intros a b Ha Hb Hab Hba.
    apply (NoDup_fmap_elem_inj path images); try done.
    + by rewrite <- Hperm1.
    + by rewrite <- Hperm2.
    + by apply image_order_long_antisym.
  - by rewrite Hperm2.
Qed.

Lemma std_sort_images_sorted images :
  StronglySorted image_order_long (std_sort ImageInfoComparator images).
Proof.
  apply std_sort_sorted; [apply _|..].
  - apply ImageInfoComparator_asym.
  - apply ImageInfoComparator_order.
Qed.

(** X16.  The two ranked lists are determined by the entries alone, not by
    the order in which the hash table or the walk yields them, nor by the
    sorting algorithm: any arrangement of the entries in which no entry
    comes (by the comparator) before one that precedes it is the list
    [std_sort] returns.  For the images this holds when no two of them
    have the same path. *)
Theorem ranking_unique :
  (∀ entries ranked : list (string * Z),
     ranked ≡ₚ entries →
     StronglySorted (λ a b, WordFrequencyComparator b a = false) ranked →
     ranked = std_sort WordFrequencyComparator entries)
  ∧ (∀ images ranked : list ImageInfo,
       NoDup (path <$> images) →
       ranked ≡ₚ images →
       StronglySorted (λ a b, ImageInfoComparator b a = false) ranked →
       ranked = std_sort ImageInfoComparator images).
Proof.
  split.
  - intros entries ranked Hperm Hsorted.
    apply (StronglySorted_unique_strong word_order).
    + intros a b _ _. apply word_order_antisym.
    + eapply StronglySorted_mono; [|exact Hsorted].
      intros a b. apply WordFrequencyComparator_order.
    + apply std_sort_sorted; [apply _|..].
      * apply WordFrequencyComparator_asym.
      * apply WordFrequencyComparator_order.
    + by rewrite std_sort_Permutation.
  - intros images ranked Hnd Hperm Hsorted.
    apply (image_order_long_unique images); try done.
    + apply std_sort_Permutation.
    + eapply StronglySorted_mono; [|exact Hsorted].
      intros a b. apply ImageInfoComparator_order.
    + apply std_sort_images_sorted.
Qed.

(** ** Numbers in decimal *)

Lemma isdigit_pretty_N_char d : isdigit (pretty_N_char d) = true.
Proof. unfold pretty_N_char. by repeat case_match. Qed.

Lemma digit_value_pretty_N_char d :
  (d < 10)%N → digit_value (pretty_N_char d) = Z.of_N d.
Proof.
  intros Hd.
  assert (d = 0 ∨ d = 1 ∨ d = 2 ∨ d = 3 ∨ d = 4 ∨ d = 5 ∨ d = 6 ∨ d = 7
          ∨ d = 8 ∨ d = 9)%N as Hcases by lia.
  by repeat destruct Hcases as [->|Hcases]; [..|subst].
Qed.

Lemma pretty_N_go_app x : ∀ s rest,
  pretty_N_go x s +:+ rest = pretty_N_go x (s +:+ rest).
Proof.
  induction (N.lt_wf_0 x) as [x _ IH]; intros s rest.
  assert (x = 0 ∨ 0 < x)%N as [->|Hx] by lia.
  - by rewrite !pretty_N_go_0.
  - rewrite (pretty_N_go_step x s), (pretty_N_go_step x (s +:+ rest)) by done.
    rewrite IH by (by apply N.div_lt). by rewrite string_app_cons.
Qed.

(** The digits written for [x] in front of [s] are read back as [x]
    appended to what has been read so far. *)
Lemma read_digits_pretty_N_go x :
  ∃ k, ∀ s acc,
    read_digits (pretty_N_go x s) acc =
    read_digits s (acc * 10 ^ Z.of_nat k + Z.of_N x).
Proof.
  induction (N.lt_wf_0 x) as [x _ IH].
  assert (x = 0 ∨ 0 < x)%N as [->|Hx] by lia.
  - exists 0%nat. intros s acc. rewrite pretty_N_go_0. f_equal. lia.
  - destruct (IH (x `div` 10)%N) as [k Hk]; [by apply N.div_lt|].
    exists (S k). intros s acc.
    rewrite pretty_N_go_step, Hk by done. cbn [read_digits].
    rewrite isdigit_pretty_N_char, digit_value_pretty_N_char
      by (by apply N.mod_lt).
    f_equal. rewrite Nat2Z.inj_succ, Z.pow_succ_r by lia.
    rewrite (N.div_mod x 10) at 3 by done. lia.
Qed.

Lemma read_digits_stop s acc :
  match s with String c _ => isdigit c = false | EmptyString => True end →
  read_digits s acc = (acc, s).
Proof. destruct s as [|c s]; [done|]. simpl. by intros ->. Qed.

(** A positive number in decimal starts with a digit. *)
Lemma pretty_N_go_digit x s :
  (0 < x)%N → ∃ c s', pretty_N_go x s = String c s' ∧ isdigit c = true.
Proof.
  revert s. induction (N.lt_wf_0 x) as [x _ IH]; intros s Hx.
  rewrite pretty_N_go_step by done.
  destruct (N.eq_0_gt_0_cases (x `div` 10)) as [->|Hdiv].
  - rewrite pretty_N_go_0. eexists _, _. split; [done|].
    apply isdigit_pretty_N_char.
  - apply IH; [by apply N.div_lt|done].
Qed.

Lemma isdigit_not_space c : isdigit c = true → isspace c = false.
Proof. destruct c as [[] [] [] [] [] [] [] []]; by vm_compute. Qed.

Lemma isdigit_not_sign c :
  isdigit c = true → Ascii.eqb c "-" = false ∧ Ascii.eqb c "+" = false.
Proof. destruct c as [[] [] [] [] [] [] [] []]; by vm_compute. Qed.

(** [iss >> value] on a stream that starts with a positive number in
    decimal, followed by something that is not a digit. *)
Lemma extract_long_pretty (p : positive) rest value :
  Z.pos p ≤ LONG_MAX →
  match rest with String c _ => isdigit c = false | EmptyString => True end →
  extract_long value (Some (pretty (Z.pos p) +:+ rest)) =
  (Z.pos p, match rest with EmptyString => None | _ => Some rest end).
Proof.
  intros Hmax Hrest.
  change (pretty (Z.pos p)) with (pretty_N_go (N.pos p) "").
  rewrite pretty_N_go_app.
  change ("" +:+ rest) with rest.
  destruct (pretty_N_go_digit (N.pos p) rest) as (c & s' & Hwritten & Hc);
    [done|].
  destruct (read_digits_pretty_N_go (N.pos p)) as [k Hk].
  specialize (Hk rest 0). rewrite (read_digits_stop rest) in Hk by done.
  simpl in Hk. rewrite Hwritten in Hk |- *.
  unfold extract_long. cbn [skip_ws].
  rewrite (isdigit_not_space c Hc).
  destruct (isdigit_not_sign c Hc) as [-> ->]. cbn [orb].
  rewrite Hc, Hk. rewrite Z.mul_0_l, Z.add_0_l.
  replace (Z.pos p >? LONG_MAX) with false by lia.
  by replace (Z.pos p <? LONG_MIN) with false by (unfold LONG_MIN; lia).
Qed.

(** X17.  The prober reads back what [identify -format '%w %h'] writes:
    when the command ends with status 0 and its first line is the width
    and the height in decimal, separated by a space and followed by
    nothing or by anything that is not a digit, the file is reported as an
    image of that width and height under its cleaned path.  Both are
    positive and fit a [long]. *)
Theorem get_image_info_reads_decimal file_path f g w h tail :
  0 < w ≤ LONG_MAX →
  0 < h ≤ LONG_MAX →
  match tail with String c _ => isdigit c = false | EmptyString => True end →
  identify f =
    PipeStream (Some (pretty w +:+ " " +:+ pretty h +:+ tail)) SYSCALL_SUCCESS →
  get_image_info file_path f g =
  Returns (Some (MkImageInfo (clean_path file_path) w h)) g.
Proof.
  intros [Hw Hwmax] [Hh Hhmax] Htail Hid.
  destruct w as [|pw|pw]; try lia. destruct h as [|ph|ph]; try lia.
  rewrite (get_image_info_stream _ _ _ _ _ Hid).
  assert (read_dimensions (Some (pretty (Z.pos pw) +:+ " "
                                 +:+ pretty (Z.pos ph) +:+ tail))
          = (Z.pos pw, Z.pos ph)) as ->.
  { unfold read_dimensions.
    rewrite (extract_long_pretty pw) by done.
    rewrite string_app_cons.
    change (extract_long 0 (Some (String " " ?s)))
      with (extract_long 0 (Some s)).
    change ("" +:+ ?s) with s.
    by rewrite (extract_long_pretty ph) by done. }
  simpl. replace (Z.pos pw >? 0) with true by lia.
  by replace (Z.pos ph >? 0) with true by lia.
Qed.

(** ** The count on the command line *)

Lemma read_digits_pretty (p : positive) rest :
  match rest with String c _ => isdigit c = false | EmptyString => True end →
  read_digits (pretty_N_go (N.pos p) rest) 0 = (Z.pos p, rest).
Proof.
  intros Hrest. destruct (read_digits_pretty_N_go (N.pos p)) as [k ->].
  rewrite read_digits_stop by done. by rewrite Z.mul_0_l, Z.add_0_l.
Qed.

Lemma stoi_pretty_pos (p : positive) tail g :
  match tail with String c _ => isdigit c = false | EmptyString => True end →
  stoi (pretty (Z.pos p) +:+ tail) g =
  (if Z.pos p >? INT_MAX then print_error "std::out_of_range"
   else mret (Z.pos p)) g.
Proof.
  intros Htail.
  change (pretty (Z.pos p)) with (pretty_N_go (N.pos p) "").
  rewrite pretty_N_go_app. change ("" +:+ tail) with tail.
  pose proof (read_digits_pretty p tail Htail) as Hread.
  destruct (pretty_N_go_digit (N.pos p) tail) as (c & s' & Hwritten & Hc);
    [done|].
  rewrite Hwritten in Hread |- *.
  unfold stoi. cbn [skip_ws]. rewrite (isdigit_not_space c Hc).
  destruct (isdigit_not_sign c Hc) as [-> ->]. cbn [orb].
  rewrite Hc, Hread.
  by rewrite (proj2 (Z.ltb_ge (Z.pos p) INT_MIN)) by (unfold INT_MIN; lia).
Qed.

Lemma stoi_pretty_neg (p : positive) tail g :
  match tail with String c _ => isdigit c = false | EmptyString => True end →
  stoi (pretty (Z.neg p) +:+ tail) g =
  (if Z.neg p <? INT_MIN then print_error "std::out_of_range"
   else mret (Z.neg p)) g.
Proof.
  intros Htail.
  change (pretty (Z.neg p)) with ("-" +:+ pretty_N_go (N.pos p) "").
  rewrite string_app_assoc, pretty_N_go_app. change ("" +:+ tail) with tail.
  pose proof (read_digits_pretty p tail Htail) as Hread.
  destruct (pretty_N_go_digit (N.pos p) tail) as (c & s' & Hwritten & Hc);
    [done|].
  rewrite Hwritten in Hread |- *.
  unfold stoi. rewrite string_app_cons. cbn [skip_ws].
  change (isspace "-"%char) with false. cbv iota.
  rewrite !Ascii.eqb_refl.
  cbn [orb]. change ("" +:+ String c s') with (String c s'). cbv iota.
  rewrite Hc, Hread.
  change (- Z.pos p) with (Z.neg p).
  rewrite (Z.gtb_ltb (Z.neg p)).
  rewrite (proj2 (Z.ltb_ge INT_MAX (Z.neg p))) by (unfold INT_MAX; lia).
  by rewrite orb_false_r.
Qed.

Lemma stoi_pretty n tail g :
  match tail with String c _ => isdigit c = false | EmptyString => True end →
  stoi (pretty n +:+ tail) g =
  if (INT_MIN <=? n) && (n <=? INT_MAX) then Returns n g
  else Exits "std::out_of_range".
Proof.
  intros Htail. destruct n as [|p|p].
  - by destruct tail as [|c tail]; [|simpl in Htail; unfold stoi; simpl;
                                      rewrite Htail].
  - rewrite stoi_pretty_pos by done.
    rewrite (proj2 (Z.leb_le INT_MIN (Z.pos p))) by (unfold INT_MIN; lia).
    cbn [andb]. rewrite Z.gtb_ltb, Z.ltb_antisym.
    by destruct (Z.pos p <=? INT_MAX).
  - rewrite stoi_pretty_neg by done.
    rewrite (proj2 (Z.leb_le (Z.neg p) INT_MAX)) by (unfold INT_MAX; lia).
    rewrite andb_true_r, Z.ltb_antisym.
    by destruct (INT_MIN <=? Z.neg p).
Qed.

(** X18.  [std::stoi] reads back an [int] written in decimal, whatever
    follows it that is not a digit, and leaves the tables alone; a number
    in decimal that is not an [int] ends the process with
    [std::out_of_range].  White space before the number is skipped, and a
    string that holds nothing else ends the process with
    [std::invalid_argument]. *)
Theorem stoi_reads_decimal :
  (∀ n tail g,
     match tail with String c _ => isdigit c = false | EmptyString => True end →
     stoi (pretty n +:+ tail) g =
     if (INT_MIN <=? n) && (n <=? INT_MAX) then Returns n g
     else Exits "std::out_of_range")
  ∧ (∀ c str g, isspace c = true → stoi (String c str) g = stoi str g)
  ∧ (∀ str g, skip_ws str = EmptyString →
              stoi str g = Exits "std::invalid_argument").
Proof.
  split_and!.
  - apply stoi_pretty.
  - intros c str g Hc. unfold stoi. cbn [skip_ws]. by rewrite Hc.
  - intros str g Hblank. unfold stoi. by rewrite Hblank.
Qed.

(** ** Lines that give no image *)

Lemma extract_long_skip lead s value :
  all_space lead = true →
  extract_long value (Some (lead +:+ s)) = extract_long value (Some s).
Proof.
  induction lead as [|c lead IH]; [done|]. cbn [all_space].
  intros [Hc Hlead]%andb_true_iff. rewrite string_app_cons.
  unfold extract_long in *. cbn [skip_ws]. rewrite Hc. by apply IH.
Qed.

Lemma all_space_no_digit_next s : all_space s = true → no_digit_next s.
Proof.
  destruct s as [|c s]; [done|]. simpl.
  intros [Hc _]%andb_true_iff.
  destruct (isdigit c) eqn:Hd; [|done].
  apply isdigit_not_space in Hd. congruence.
Qed.

Lemma skip_ws_all_space s : all_space s = true → skip_ws s = EmptyString.
Proof.
  induction s as [|c s IH]; [done|]. simpl.
  intros [-> Hs]%andb_true_iff. by apply IH.
Qed.

Lemma no_number_no_digit_next s : no_number s → no_digit_next s.
Proof.
  intros [lead Hlead|lead c rest Hlead _ Hc _ _|lead c rest Hlead Hc _].
  - by apply all_space_no_digit_next.
  - destruct lead as [|d lead]; [done|].
    by apply (all_space_no_digit_next (String d lead)).
  - destruct lead as [|d lead]; [by destruct Hc as [->| ->]|].
    by apply (all_space_no_digit_next (String d lead)).
Qed.

(** Where no number stands, the extraction fails and stores nothing but
    zero. *)
Lemma extract_long_no_number s :
  no_number s → extract_long 0 (Some s) = (0, None).
Proof.
  intros [lead Hlead|lead c rest Hlead Hspace Hdigit Hminus Hplus
         |lead c rest Hlead Hc Hrest].
  - unfold extract_long. by rewrite skip_ws_all_space.
  - rewrite extract_long_skip by done.
    unfold extract_long. cbn [skip_ws]. rewrite Hspace.
    apply Ascii.eqb_neq in Hminus, Hplus. rewrite Hminus, Hplus.
    cbn [orb]. by rewrite Hdigit.
  - rewrite extract_long_skip by done.
    unfold extract_long. cbn [skip_ws].
    assert (isspace c = false) as -> by (by destruct Hc as [->| ->]).
    assert ((Ascii.eqb c "-" || Ascii.eqb c "+")%bool = true) as ->
      by (by destruct Hc as [->| ->]).
    destruct rest as [|d rest]; [done|]. simpl in Hrest. by rewrite Hrest.
Qed.

(** A number in decimal is read back, as far as a [long] can hold it. *)
Lemma extract_long_decimal lead z rest value :
  all_space lead = true →
  no_digit_next rest →
  extract_long value (Some (lead +:+ pretty z +:+ rest)) =
  if z >? LONG_MAX then (LONG_MAX, None)
  else if z <? LONG_MIN then (LONG_MIN, None)
  else (z, match rest with EmptyString => None | _ => Some rest end).
Proof.
  intros Hlead Hrest. rewrite extract_long_skip by done.
  destruct z as [|p|p].
  - change (pretty 0) with "0". rewrite string_app_cons.
    change ("" +:+ rest) with rest.
    unfold extract_long. cbn [skip_ws].
    change (isspace "0"%char) with false. cbv iota.
    change (Ascii.eqb "0" "-") with false.
    change (Ascii.eqb "0" "+") with false. cbn [orb]. cbv iota.
    change (isdigit "0"%char) with true. cbv iota.
    cbn [read_digits]. change (isdigit "0"%char) with true. cbv iota.
    rewrite (read_digits_stop rest) by done.
    by destruct rest.
  - change (pretty (Z.pos p)) with (pretty_N_go (N.pos p) "").
    rewrite pretty_N_go_app. change ("" +:+ rest) with rest.
    pose proof (read_digits_pretty p rest Hrest) as Hread.
    destruct (pretty_N_go_digit (N.pos p) rest) as (c & s' & Hwritten & Hc);
      [done|].
    rewrite Hwritten in Hread |- *.
    unfold extract_long. cbn [skip_ws]. rewrite (isdigit_not_space c Hc).
    destruct (isdigit_not_sign c Hc) as [-> ->]. cbn [orb].
    rewrite Hc, Hread.
    destruct (Z.pos p >? LONG_MAX); [done|].
    by rewrite (proj2 (Z.ltb_ge (Z.pos p) LONG_MIN)) by (unfold LONG_MIN; lia).
  - change (pretty (Z.neg p)) with ("-" +:+ pretty_N_go (N.pos p) "").
    rewrite string_app_assoc, pretty_N_go_app.
    change ("" +:+ rest) with rest.
    pose proof (read_digits_pretty p rest Hrest) as Hread.
    destruct (pretty_N_go_digit (N.pos p) rest) as (c & s' & Hwritten & Hc);
      [done|].
    rewrite Hwritten in Hread |- *.
    unfold extract_long. rewrite string_app_cons. cbn [skip_ws].
    change (isspace "-"%char) with false. cbv iota.
    rewrite !Ascii.eqb_refl. cbn [orb].
    change ("" +:+ String c s') with (String c s'). cbv iota.
    rewrite Hc, Hread. change (- Z.pos p) with (Z.neg p).
    rewrite (Z.gtb_ltb (Z.neg p)).
    by rewrite (proj2 (Z.ltb_ge LONG_MAX (Z.neg p))) by (unfold LONG_MAX; lia).
Qed.

Lemma extract_long_decimal_fst lead z rest value :
  all_space lead = true → no_digit_next rest → z ≤ 0 →
  (extract_long value (Some (lead +:+ pretty z +:+ rest))).1 ≤ 0.
Proof.
  intros Hlead Hrest Hz. rewrite extract_long_decimal by done.
  rewrite Z.gtb_ltb, (proj2 (Z.ltb_ge LONG_MAX z))
    by (unfold LONG_MAX; lia).
  destruct (z <? LONG_MIN); [by unfold LONG_MIN|done].
Qed.

Lemma unusable_line_no_image buffer status :
  unusable_line buffer → no_image (Some buffer) status.
Proof.
  intros [buffer' Hno|lead w rest Hlead Hrest
         |lead w gap h tail Hlead Hgap Hne Htail Hdim].
  - right. left. unfold read_dimensions.
    by rewrite extract_long_no_number.
  - right. right. left. unfold read_dimensions.
    rewrite extract_long_decimal
      by (done || by apply no_number_no_digit_next).
    destruct (w >? LONG_MAX); [done|].
    destruct (w <? LONG_MIN); [done|].
    destruct rest as [|c rest]; [done|].
    by rewrite extract_long_no_number.
  - unfold no_image, read_dimensions.
    assert (no_digit_next (gap +:+ pretty h +:+ tail)) as Hnext.
    { destruct gap as [|c gap]; [done|].
      by apply (all_space_no_digit_next (String c gap)). }
    rewrite (extract_long_decimal lead w) by done.
    destruct (w >? LONG_MAX) eqn:Hmax; [right; right; by left|].
    destruct (w <? LONG_MIN) eqn:Hmin; [right; left; by unfold LONG_MIN|].
    assert (gap +:+ pretty h +:+ tail ≠ EmptyString) as Hrest
      by (by destruct gap).
    destruct (gap +:+ pretty h +:+ tail) as [|c rest] eqn:Heq; [done|].
    rewrite <- Heq.
    pose proof (extract_long_decimal_fst gap h tail 0 Hgap Htail) as Hheight.
    destruct (extract_long 0 (Some (gap +:+ pretty h +:+ tail)))
      as [height iss].
    destruct Hdim as [Hw|Hh]; [right; by left|].
    right. right. left. by apply Hheight.
Qed.

Lemma finds_no_image_no_image first_line status :
  finds_no_image first_line status → no_image first_line status.
Proof.
  intros [->|[(buffer & -> & Hline)|Hstatus]].
  - by left.
  - by apply unusable_line_no_image.
  - by do 3 right.
Qed.

(** With no image found, the walker leaves its list of images as it was. *)
Lemma visit_file_no_image dir_path file_path f ds g first_line status :
  identify f = PipeStream first_line status →
  no_image first_line status →
  get_image_info file_path f g = Returns None g
  ∧ ((is_txt file_path = true → is_Some (contents f)) →
     ∃ ds' g',
       visit_file dir_path file_path f ds g = Returns ds' g'
       ∧ ds_largest_images ds' = ds_largest_images ds).
Proof.
  intros Hid Hno.
  pose proof (get_image_info_no_image file_path f g _ _ Hid Hno) as Hnone.
  split; [done|]. intros Hopen.
  destruct (proj1 (visit_file_returns_iff dir_path file_path f ds g))
    as (ds' & g' & Hvisit).
  { unfold file_ok. simpl. rewrite Hid, andb_true_r.
    destruct (is_txt file_path); [|done].
    by apply bool_decide_eq_true, Hopen. }
  exists ds', g'. split; [done|].
  apply visit_file_returns in Hvisit as (_ & _ & _ & _ & _ & -> & _).
  unfold probe. simpl.
  rewrite (get_image_info_no_image file_path f globals_init _ _ Hid Hno).
  simpl. by rewrite app_nil_r.
Qed.

(** C2, as the code has it.  When [popen] gives a stream, the prober
    returns an empty optional if nothing was read, if the line holds no
    number, if a dimension is missing or not positive, or if the command
    ended with a status that is not zero (as when the shell could not run
    it); the walker then leaves the list of images as it was and goes on,
    provided the file can be opened when it is a text file.  When [popen]
    gives no stream, [print_error] ends the process.  The lines are told
    both by what the extraction stores ([no_image]) and by what they hold
    ([finds_no_image]): no number after the white space, one number in
    decimal and no second one, or two numbers in decimal one of which is
    not positive. *)
Theorem get_image_info_lenient :
  (∀ file_path f g,
     identify f = PipeNull →
     get_image_info file_path f g =
     Exits ("could not call identify via popen on %s" +:+ file_path))
  ∧ (∀ dir_path file_path f ds g first_line status,
       identify f = PipeStream first_line status →
       no_image first_line status →
       get_image_info file_path f g = Returns None g
       ∧ ((is_txt file_path = true → is_Some (contents f)) →
          ∃ ds' g',
            visit_file dir_path file_path f ds g = Returns ds' g'
            ∧ ds_largest_images ds' = ds_largest_images ds))
  ∧ (∀ buffer status,
       skip_ws buffer = EmptyString
       ∨ (∃ c rest, skip_ws buffer = String c rest ∧ isdigit c = false
                    ∧ c ≠ "-"%char ∧ c ≠ "+"%char) →
       no_image (Some buffer) status)
  ∧ (∀ dir_path file_path f ds g first_line status,
       identify f = PipeStream first_line status →
       finds_no_image first_line status →
       get_image_info file_path f g = Returns None g
       ∧ ((is_txt file_path = true → is_Some (contents f)) →
          ∃ ds' g',
            visit_file dir_path file_path f ds g = Returns ds' g'
            ∧ ds_largest_images ds' = ds_largest_images ds)).
Proof.
  split_and!.
  - intros file_path f g Hid. unfold get_image_info. by rewrite Hid.
  - intros dir_path file_path f ds g first_line status.
    apply visit_file_no_image.
  - apply no_number_no_image.
  - intros dir_path file_path f ds g first_line status Hid Hno.
    by apply (visit_file_no_image _ _ _ _ _ first_line status),
             finds_no_image_no_image.
Qed.

Lemma get_image_info_lenient_witness :
  get_image_info "./photo.png" unprobed_file globals_init =
    Exits "could not call identify via popen on %s./photo.png"
  ∧ get_image_info "./notes.md"
      {| st_size := Some 12; contents := Some "hello, world";
         identify := PipeStream (Some "identify: no decode delegate") 256 |}
      globals_init = Returns None globals_init
  ∧ get_image_info "./width.png"
      {| st_size := Some 4; contents := Some "data";
         identify := PipeStream (Some "640") 0 |}
      globals_init = Returns None globals_init
  ∧ get_image_info "./flat.png"
      {| st_size := Some 4; contents := Some "data";
         identify := PipeStream (Some "640 0") 0 |}
      globals_init = Returns None globals_init
  ∧ get_image_info "./minus.png"
      {| st_size := Some 4; contents := Some "data";
         identify := PipeStream (Some "-640 480") 0 |}
      globals_init = Returns None globals_init.
Proof.
  destruct get_image_info_lenient as (Hnull & Hstream & Hline & Hfinds).
  split_and!.
  - apply Hnull. reflexivity.
  - eapply (Hstream "." "./notes.md" _ DirStats_init).
    + reflexivity.
    + apply Hline. right. exists "i"%char, "dentify: no decode delegate".
      split_and!; [reflexivity|reflexivity|discriminate|discriminate].
  - eapply (Hfinds "." "./width.png" _ DirStats_init); [reflexivity|].
    right. left. eexists. split; [reflexivity|].
    apply (line_one_number "" 640 ""); [reflexivity|].
    apply (no_number_end ""). reflexivity.
  - eapply (Hfinds "." "./flat.png" _ DirStats_init); [reflexivity|].
    right. left. eexists. split; [reflexivity|].
    apply (line_not_positive "" 640 " " 0 "");
      [reflexivity|reflexivity|discriminate|exact I|right; lia].
  - eapply (Hfinds "." "./minus.png" _ DirStats_init); [reflexivity|].
    right. left. eexists. split; [reflexivity|].
    apply (line_not_positive "" (-640) " " 480 "");
      [reflexivity|reflexivity|discriminate|exact I|left; lia].
Defined.

(** ** The program *)




(** ** Distinct directories have distinct paths *)

Lemma well_listed_Directory ok entries :
  well_listed (Directory ok entries) ↔
  NoDup entries.*1
  ∧ Forall (λ entry, has_separator entry.1 = false ∧ well_listed entry.2)
      entries.
Proof.
  cbn [well_listed]. apply and_iff_compat_l.
  induction entries as [|[name sub] entries IH].
  - split; [by constructor|done].
  - rewrite Forall_cons, <- IH. simpl. tauto.
Qed.

Lemma has_separator_join name rest : has_separator (join_path name rest) = true.
Proof.
  unfold join_path. induction name as [|c name IH].
  - done.
  - rewrite string_app_cons. simpl. by rewrite IH, orb_true_r.
Qed.

(** The first component of a path is determined by the path. *)
Lemma join_path_first name name' rest rest' :
  has_separator name = false → has_separator name' = false →
  join_path name rest = join_path name' rest' → name = name'.
Proof.
  unfold join_path. revert name'.
  induction name as [|c name IH]; intros [|c' name'] Hname Hname';
    rewrite ?string_app_cons; simpl in *.
  - done.
  - intros [= <- _]. by rewrite Ascii.eqb_refl in Hname'.
  - intros [= -> _]. by rewrite Ascii.eqb_refl in Hname.
  - apply orb_false_iff in Hname as [_ Hname].
    apply orb_false_iff in Hname' as [_ Hname'].
    intros [= -> Hrest]. f_equal. by apply IH.
Qed.

Lemma join_path_inj q : Inj (=) (=) (join_path q).
Proof.
  intros x y Heq. unfold join_path in Heq.
  apply (inj (String.append q)) in Heq. by injection Heq.
Qed.

Lemma join_path_ne q rest : join_path q rest ≠ q.
Proof.
  intros Heq. apply (f_equal String.length) in Heq.
  rewrite join_path_length in Heq. lia.
Qed.

(** The rows below two entries of a well-listed directory have different
    paths. *)
Lemma dirs_under_siblings q name name' e e' ancestors ancestors' r r' :
  has_separator name = false → has_separator name' = false →
  name ≠ name' →
  r ∈ dirs_under ancestors (join_path q name) e →
  r' ∈ dirs_under ancestors' (join_path q name') e' →
  row_path r ≠ row_path r'.
Proof.
  intros Hname Hname' Hne Hr Hr' Heq. apply Hne.
  apply dirs_under_join in Hr as [Hp|[rest Hp]];
    apply dirs_under_join in Hr' as [Hp'|[rest' Hp']];
    rewrite Hp, Hp', ?join_path_assoc in Heq;
    apply join_path_inj in Heq.
  - done.
  - rewrite Heq, has_separator_join in Hname. done.
  - rewrite <- Heq, has_separator_join in Hname'. done.
  - by eapply join_path_first.
Qed.

Lemma dirs_in_distinct ancestors q entries :
  NoDup entries.*1 →
  Forall (λ entry, has_separator entry.1 = false ∧ well_listed entry.2)
    entries →
  Forall (λ entry, rows_distinct entry.2) entries →
  NoDup (row_path <$> dirs_in ancestors q entries).
Proof.
  induction entries as [|[name e] entries IH]; intros Hnames Hwell Hrows.
  - constructor.
  - rewrite fmap_cons in Hnames. simpl in Hnames.
    apply NoDup_cons in Hnames as [Hname Hnames].
    apply Forall_cons in Hwell as [[Hplain Hwell1] Hwell].
    apply Forall_cons in Hrows as [Hrows1 Hrows].
    rewrite dirs_in_cons, fmap_app. apply NoDup_app. split_and!.
    + destruct (is_pseudo_entry name); [constructor|].
      destruct e as [f|ok sub|]; [constructor|by apply Hrows1|constructor].
    + intros p Hp Hp'.
      apply list_elem_of_fmap in Hp as (r & -> & Hr).
      apply list_elem_of_fmap in Hp' as (r' & Heq & Hr').
      apply elem_of_dirs_in in Hr' as (name' & e' & Hin & _ & Hr').
      destruct (is_pseudo_entry name); [by apply elem_of_nil in Hr|].
      destruct e as [f|ok sub|]; try by apply elem_of_nil in Hr.
      rewrite Forall_forall in Hwell.
      destruct (Hwell _ Hin) as [Hplain' _].
      eapply (dirs_under_siblings q name name'); try done.
      intros ->. apply Hname. apply list_elem_of_fmap. by exists (name', e').
    + by apply IH.
Qed.

(** X21.  In a tree as a file system gives it, where every directory lists
    each name once and no name holds a "/", the paths the walker forms for
    the directories are pairwise distinct, whatever the path it starts
    from: no two directories share a key of [parent_map] and
    [n_files_map]. *)
Theorem well_listed_distinct_paths e ancestors q :
  well_listed e → NoDup (row_path <$> dirs_under ancestors q e).
Proof.
  revert ancestors q.
  induction e as [f|ok entries IH|] using node_nested_ind;
    intros ancestors q Hwell; [constructor| |constructor].
  apply well_listed_Directory in Hwell as [Hnames Hwell].
  rewrite dirs_under_Directory, fmap_cons. apply NoDup_cons. split.
  - intros (r & Heq & Hr)%list_elem_of_fmap.
    apply elem_of_dirs_in in Hr as (name & e & _ & _ & Hr).
    apply dirs_under_join in Hr as [Hp|[rest Hp]]; simpl in Heq;
      rewrite Hp, ?join_path_assoc in Heq; by apply eq_sym, join_path_ne in Heq.
  - by apply dirs_in_distinct.
Qed.

(** ** The order in which a directory is listed *)

Lemma reordered_nested_ind (P : node → node → Prop) :
  (∀ e, P e e) →
  (∀ ok entries middle entries',
     entries ≡ₚ middle →
     Forall2 (λ a b, a.1 = b.1 ∧ P a.2 b.2) middle entries' →
     P (Directory ok entries) (Directory ok entries')) →
  ∀ e e', reordered e e' → P e e'.
Proof.
  intros Hsame Hlisting. fix IH 3. intros e e' [e0|ok entries middle entries' Hperm Hall].
  - apply Hsame.
  - apply (Hlisting ok entries middle entries' Hperm). clear Hperm.
    induction Hall as [|a b l l' [Hname Hsub] _ IHall]; constructor.
    + split; [exact Hname|]. apply IH, Hsub.
    + exact IHall.
Qed.

Lemma over_entries_Permutation {A} (of_dir : string → node → list A)
    (of_file : string → file_data → list A) p entries entries' :
  entries ≡ₚ entries' →
  over_entries of_dir of_file p entries ≡ₚ over_entries of_dir of_file p entries'.
Proof.
  induction 1 as [|[name e] l l' _ IH|[name e] [name' e'] l|l1 l2 l3 _ IH1 _ IH2].
  - done.
  - cbn [over_entries]. by rewrite IH.
  - cbn [over_entries]. rewrite !app_assoc. f_equiv. apply Permutation_app_comm.
  - by etrans.
Qed.

Lemma files_in_same_content p middle entries' :
  Forall2 (λ a b, a.1 = b.1 ∧ same_content a.2 b.2) middle entries' →
  files_in p middle ≡ₚ files_in p entries'.
Proof.
  induction 1
    as [|[name e] [name' e'] l l' [Hname (Hfile & Hkind & Hfiles & _)] _ IH];
    [done|].
  simpl in Hname, Hfile, Hkind, Hfiles. subst name'.
  rewrite !files_in_cons, IH. f_equiv.
  destruct (is_pseudo_entry name); [done|].
  destruct e as [f|ok sub|].
  - by rewrite Hfile.
  - destruct e' as [f'|ok' sub'|]; [done|apply Hfiles|done].
  - by rewrite Hfile.
Qed.

Lemma dirs_in_same_content ancestors p middle entries' :
  Forall2 (λ a b, a.1 = b.1 ∧ same_content a.2 b.2) middle entries' →
  dirs_in ancestors p middle ≡ₚ dirs_in ancestors p entries'.
Proof.
  induction 1
    as [|[name e] [name' e'] l l' [Hname (Hfile & Hkind & _ & Hdirs)] _ IH];
    [done|].
  simpl in Hname, Hfile, Hkind, Hdirs. subst name'.
  rewrite !dirs_in_cons, IH. f_equiv.
  destruct (is_pseudo_entry name); [done|].
  destruct e as [f|ok sub|].
  - by rewrite Hfile.
  - destruct e' as [f'|ok' sub'|]; [done|apply Hdirs|done].
  - by rewrite Hfile.
Qed.

Lemma reordered_same_content e e' : reordered e e' → same_content e e'.
Proof.
  induction 1 as [e|ok entries middle entries' Hperm Hall]
    using reordered_nested_ind.
  - by split_and!.
  - assert (∀ q, files_in q entries ≡ₚ files_in q entries') as Hfiles.
    { intros q. etrans; [by apply over_entries_Permutation|].
      by apply files_in_same_content. }
    split_and!; try done.
    intros ancestors q. rewrite !dirs_under_Directory.
    unfold file_count.
    change (files_under q (Directory ok ?l)) with (files_in q l).
    rewrite <- (Permutation_length (Hfiles q)). constructor.
    etrans; [by apply over_entries_Permutation|].
    by apply dirs_in_same_content.
Qed.

Lemma tail_length {A} (l : list A) : length (tail l) = pred (length l).
Proof. by destruct l. Qed.

Lemma sum_sizes_Permutation l l' : l ≡ₚ l' → sum_sizes l = sum_sizes l'.
Proof.
  unfold sum_sizes. induction 1; simpl; lia.
Qed.

Lemma max_size_Permutation l l' : l ≡ₚ l' → max_size l = max_size l'.
Proof.
  unfold max_size. induction 1; simpl; lia.
Qed.

Lemma increment_comm w1 w2 table :
  increment w1 (increment w2 table) = increment w2 (increment w1 table).
Proof.
  destruct (decide (w1 = w2)) as [->|Hne]; [done|].
  unfold increment.
  rewrite !lookup_insert_ne by done. by apply insert_insert_ne.
Qed.

Lemma increment_count_words w ws table :
  increment w (count_words ws table) = count_words ws (increment w table).
Proof.
  revert table. induction ws as [|w' ws IH]; intros table; [done|].
  unfold count_words in *. simpl. by rewrite IH, increment_comm.
Qed.

Lemma count_words_comm ws1 ws2 table :
  count_words ws1 (count_words ws2 table)
  = count_words ws2 (count_words ws1 table).
Proof.
  revert table. induction ws1 as [|w ws1 IH]; intros table; [done|].
  change (count_words (w :: ws1) ?t) with (count_words ws1 (increment w t)).
  by rewrite increment_count_words, IH.
Qed.

Lemma scan_words_comm bytes1 bytes2 table :
  scan_words bytes1 EmptyString (scan_words bytes2 EmptyString table)
  = scan_words bytes2 EmptyString (scan_words bytes1 EmptyString table).
Proof.
  destruct (alpha_runs_exists bytes1) as [ws1 Hruns1].
  destruct (alpha_runs_exists bytes2) as [ws2 Hruns2].
  rewrite !(scan_words_runs bytes1 ws1), !(scan_words_runs bytes2 ws2) by done.
  apply count_words_comm.
Qed.

Lemma count_files_Permutation files files' :
  files ≡ₚ files' →
  ∀ table, count_files files table = count_files files' table.
Proof.
  unfold count_files.
  induction 1 as [|pf l l' _ IH|pf1 pf2 l|l1 l2 l3 _ IH1 _ IH2]; intros table.
  - done.
  - simpl. apply IH.
  - simpl. f_equal.
    destruct (is_txt pf1.1), (is_txt pf2.1); try done.
    apply scan_words_comm.
  - by rewrite IH1.
Qed.

(** X22.  The analysis does not depend on the order in which [readdir]
    lists the entries of any directory of the tree.  When it returns in a
    fresh process for a tree whose directories have distinct paths, it
    returns for the same tree listed in any other order, with the same
    number of files and of directories, the same total and largest size,
    the same most common words and the same vacant directories; and with
    the same largest images when no two images have the same path.  (The
    path of the largest file may differ when several files have the
    largest size.) *)
Theorem readdir_order_independent n cwd cwd' res g1 :
  reordered cwd cwd' →
  NoDup (row_path <$> dirs_under [] CURRENT_DIRECTORY cwd) →
  analyzeDir n cwd globals_init = Returns res g1 →
  ∃ res' g1',
    analyzeDir n cwd' globals_init = Returns res' g1'
    ∧ n_files res' = n_files res
    ∧ n_dirs res' = n_dirs res
    ∧ all_files_size res' = all_files_size res
    ∧ largest_file_size res' = largest_file_size res
    ∧ most_common_words res' = most_common_words res
    ∧ vacant_dirs res' = vacant_dirs res
    ∧ (NoDup (path <$> images_under cwd) →
       largest_images res' = largest_images res).
Proof.
  intros (_ & Hkind & Hfiles & Hrows)%reordered_same_content Hnd
    (ds & g1w & Hwalk & Hvacant & Hn & Hw & Hi & Hres)%analyzeDir_returns.
  specialize (Hfiles CURRENT_DIRECTORY).
  specialize (Hrows [] CURRENT_DIRECTORY).
  assert (NoDup (row_path <$> dirs_under [] CURRENT_DIRECTORY cwd')) as Hnd'
    by (by rewrite <- Hrows).
  (* the walk of the tree in the other order returns *)
  assert (walkable CURRENT_DIRECTORY cwd') as Hwalkable.
  { destruct (proj1 (get_dir_stats_returns_walkable cwd CURRENT_DIRECTORY
                       NO_PATH globals_init))
      as ([entries ->] & Hopen & Hok); [by eauto|].
    rewrite Hrows in Hopen. rewrite Hfiles in Hok.
    split_and!; try done.
    destruct cwd' as [f|ok' entries'|]; try done.
    rewrite dirs_under_Directory in Hopen.
    apply Forall_cons in Hopen as [Hroot _]. simpl in Hroot. subst ok'.
    by eexists. }
  apply (get_dir_stats_returns_walkable _ _ NO_PATH globals_init)
    in Hwalkable as (ds' & g1w' & Hwalk').
  pose proof (get_dir_stats_walked _ [] _ _ _ _ _ Hwalk)
    as (Hf & Hd & Hs & Hl & _ & Hprobed & Htable).
  pose proof (get_dir_stats_walked _ [] _ _ _ _ _ Hwalk')
    as (Hf' & Hd' & Hs' & Hl' & _ & Hprobed' & Htable').
  rewrite <- (Permutation_length Hfiles), <- Hf in Hf'.
  rewrite tail_length, <- (Permutation_length Hrows), <- tail_length, <- Hd
    in Hd'.
  rewrite <- (sum_sizes_Permutation _ _ Hfiles), <- Hs in Hs'.
  rewrite <- (max_size_Permutation _ _ Hfiles), <- Hl in Hl'.
  rewrite <- (count_files_Permutation _ _ Hfiles), <- Htable in Htable'.
  assert (ds_largest_images ds' ≡ₚ ds_largest_images ds) as Himages.
  { by rewrite Hprobed', Hprobed, Hfiles. }
  (* the bookkeeping tables are the same *)
  destruct (fresh_walk_tables cwd ds g1w Hnd Hwalk) as (Hpm & Hnm & _).
  destruct (fresh_walk_tables cwd' ds' g1w' Hnd' Hwalk') as (Hpm' & Hnm' & _).
  assert (parent_map g1w' = parent_map g1w) as Hparents.
  { rewrite Hpm', Hpm. apply list_to_map_proper; [|by rewrite Hrows].
    by rewrite <- list_fmap_compose. }
  assert (n_files_map g1w' = n_files_map g1w) as Hcounts.
  { rewrite Hnm', Hnm. apply list_to_map_proper; [|by rewrite Hrows].
    by rewrite <- list_fmap_compose. }
  rewrite (fresh_walk_resolver cwd ds g1w Hnd Hwalk) in Hvacant.
  assert (std_sort string_lt
            (clean_path ∘ fst <$>
               filter (λ kv, vacant_entry (seeded g1w) kv)
                 (map_to_list (n_files_map (seeded g1w))))
          = vacant_dirs res) as Hsame by (by injection Hvacant).
  pose proof (fresh_walk_resolver cwd' ds' g1w' Hnd' Hwalk') as Hvacant'.
  assert (n_files_map (seeded g1w') = n_files_map (seeded g1w)) as Hseeded
    by (simpl; by rewrite Hcounts).
  rewrite Hseeded in Hvacant'.
  rewrite (list_filter_iff _ (λ kv, vacant_entry (seeded g1w) kv)) in Hvacant'
    by (intros kv; by rewrite (vacant_entry_ext (seeded g1w') (seeded g1w))).
  rewrite Hsame in Hvacant'.
  destruct Hres as (Hr1 & Hr2 & Hr3 & Hr4 & Hr5 & Hr6 & Hr7).
  eexists {| largest_file_path := ds_largest_file_path ds';
             most_common_words := most_common_words res;
             vacant_dirs := vacant_dirs res |}, (seeded g1w').
  split.
  { apply analyzeDir_returns. exists ds', g1w'. simpl.
    rewrite Htable', (Permutation_length Himages).
    split_and!; try done. }
  simpl. rewrite Hr2, Hr3, Hr4, Hr5, Hr7.
  split_and!; try done.
  intros Hpaths. f_equal.
  apply (image_order_long_unique (ds_largest_images ds)).
  - by rewrite Hprobed.
  - by rewrite std_sort_Permutation.
  - apply std_sort_Permutation.
  - apply std_sort_images_sorted.
  - apply std_sort_images_sorted.
Qed.

(** ** The first [n] of the ranking *)

Lemma analyzeDir_same_walk n m cwd g res g1 res' g1' :
  analyzeDir n cwd g = Returns res g1 →
  analyzeDir m cwd g = Returns res' g1' →
  ∃ ds gw ranked_words ranked_images,
    get_dir_stats cwd CURRENT_DIRECTORY NO_PATH g = Returns ds gw
    ∧ ranked_words ≡ₚ map_to_list (most_common_words_map gw)
    ∧ ranked_images ≡ₚ ds_largest_images ds
    ∧ StronglySorted word_order ranked_words
    ∧ StronglySorted image_order_long ranked_images
    ∧ 0 ≤ to_int (Z.of_nat (length ranked_words))
    ∧ 0 ≤ to_int (Z.of_nat (length ranked_images))
    ∧ most_common_words res =
        take (Z.to_nat (Z.min (to_int (Z.of_nat (length ranked_words))) n))
          ranked_words
    ∧ most_common_words res' =
        take (Z.to_nat (Z.min (to_int (Z.of_nat (length ranked_words))) m))
          ranked_words
    ∧ largest_images res =
        take (Z.to_nat (Z.min (to_int (Z.of_nat (length ranked_images))) n))
          ranked_images
    ∧ largest_images res' =
        take (Z.to_nat (Z.min (to_int (Z.of_nat (length ranked_images))) m))
          ranked_images
    ∧ most_common_words_map g1 = most_common_words_map gw
    ∧ g1' = g1
    ∧ largest_file_path res' = largest_file_path res
    ∧ largest_file_size res' = largest_file_size res
    ∧ n_files res' = n_files res
    ∧ n_dirs res' = n_dirs res
    ∧ all_files_size res' = all_files_size res
    ∧ vacant_dirs res' = vacant_dirs res.
Proof.
  intros (ds & gw & Hwalk & Hvacant & _ & Hw & Hi & H1 & H2 & H3 & H4 & H5
          & H6 & H7)%analyzeDir_returns
         (ds' & gw' & Hwalk' & Hvacant' & _ & _ & _ & H1' & H2' & H3' & H4'
          & H5' & H6' & H7')%analyzeDir_returns.
  rewrite Hwalk in Hwalk'. injection Hwalk' as <- <-.
  rewrite Hvacant in Hvacant'. injection Hvacant' as Hsame <-.
  exists ds, gw,
    (std_sort WordFrequencyComparator
       (map_to_list (most_common_words_map gw))),
    (std_sort ImageInfoComparator (ds_largest_images ds)).
  rewrite !(Permutation_length (std_sort_Permutation _ _)).
  split_and!; try done; try congruence.
  - apply std_sort_Permutation.
  - apply std_sort_Permutation.
  - apply std_sort_sorted; [apply _|..].
    + apply WordFrequencyComparator_asym.
    + apply WordFrequencyComparator_order.
  - apply std_sort_images_sorted.
  - by apply get_top_level_vacant_dirs_words in Hvacant.
Qed.

(** X23.  Asking for more never changes what was reported for less: for
    [0 ≤ n ≤ m] and the same tree and tables, the most common words and
    the largest images returned for [n] are the first [n] of those returned
    for [m], every other field of the result is the same, and so are the
    tables afterwards. *)
Theorem larger_count_extends n m cwd g res g1 res' g1' :
  n ≤ m →
  analyzeDir n cwd g = Returns res g1 →
  analyzeDir m cwd g = Returns res' g1' →
  most_common_words res = take (Z.to_nat n) (most_common_words res')
  ∧ largest_images res = take (Z.to_nat n) (largest_images res')
  ∧ largest_file_path res' = largest_file_path res
  ∧ largest_file_size res' = largest_file_size res
  ∧ n_files res' = n_files res
  ∧ n_dirs res' = n_dirs res
  ∧ all_files_size res' = all_files_size res
  ∧ vacant_dirs res' = vacant_dirs res
  ∧ g1' = g1.
Proof.
  intros Hle Hrun Hrun'.
  pose proof Hrun as (_ & _ & _ & _ & Hn & _)%analyzeDir_returns.
  destruct (analyzeDir_same_walk _ _ _ _ _ _ _ _ Hrun Hrun')
    as (ds & gw & words & images & _ & _ & _ & _ & _ & Hw & Hi
        & -> & -> & -> & -> & _ & Hrest).
  rewrite !take_take. split_and!; try apply Hrest; f_equal; lia.
Qed.

(** X24.  What is left out of a ranked list never outranks what is in it:
    every reported word comes, in the order of the ranking, before every
    entry of the word table that is not reported, and every reported image
    before every image of the tree that is not. *)
Theorem omitted_never_outrank n cwd g res g' :
  analyzeDir n cwd g = Returns res g' →
  (∀ a b, a ∈ most_common_words res →
          b ∈ map_to_list (most_common_words_map g') →
          b ∉ most_common_words res → word_order a b)
  ∧ (∀ a b, a ∈ largest_images res →
            b ∈ images_under cwd →
            b ∉ largest_images res → image_order_long a b).
Proof.
  intros Hrun.
  destruct (analyzeDir_same_walk _ _ _ _ _ _ _ _ Hrun Hrun)
    as (ds & gw & words & images & Hwalk & Hwords & Himages & Hsw & Hsi
        & _ & _ & -> & _ & -> & _ & -> & _).
  pose proof (get_dir_stats_walked _ [] _ _ _ _ _ Hwalk)
    as (_ & _ & _ & _ & _ & Hprobed & _).
  unfold images_under. simpl in Hprobed. rewrite <- Hprobed.
  split; intros a b Ha Hb Hout.
  - rewrite <- Hwords in Hb.
    rewrite <- (take_drop (Z.to_nat (Z.min (to_int (Z.of_nat (length words)))
                                       n)) words) in Hb, Hsw.
    apply elem_of_app in Hb as [Hb|Hb]; [done|].
    by eapply StronglySorted_app_1_elem_of.
  - rewrite <- Himages in Hb.
    rewrite <- (take_drop (Z.to_nat (Z.min (to_int (Z.of_nat (length images)))
                                       n)) images) in Hb, Hsi.
    apply elem_of_app in Hb as [Hb|Hb]; [done|].
    by eapply StronglySorted_app_1_elem_of.
Qed.

(** X25.  The ranked lists are as long as they can be: the number of words
    reported is the smaller of [n] and the number of distinct words in the
    table, the number of images the smaller of [n] and the number of images
    in the tree, as long as these numbers fit an [int]. *)
Theorem ranked_lists_lengths n cwd g res g' :
  Z.of_nat (length (map_to_list (most_common_words_map g'))) ≤ INT_MAX →
  Z.of_nat (length (images_under cwd)) ≤ INT_MAX →
  analyzeDir n cwd g = Returns res g' →
  Z.of_nat (length (most_common_words res)) =
    Z.min (Z.of_nat (length (map_to_list (most_common_words_map g')))) n
  ∧ Z.of_nat (length (largest_images res)) =
      Z.min (Z.of_nat (length (images_under cwd))) n.
Proof.
  intros Hwfit Hifit Hrun.
  pose proof Hrun as (_ & _ & _ & _ & Hn & _)%analyzeDir_returns.
  destruct (analyzeDir_same_walk _ _ _ _ _ _ _ _ Hrun Hrun)
    as (ds & gw & words & images & Hwalk & Hwords & Himages & _ & _
        & _ & _ & -> & _ & -> & _ & Htable & _).
  pose proof (get_dir_stats_walked _ [] _ _ _ _ _ Hwalk)
    as (_ & _ & _ & _ & _ & Hprobed & _).
  unfold images_under in *. simpl in Hprobed. rewrite <- Hprobed in *.
  rewrite Htable, <- (Permutation_length Hwords) in *.
  rewrite <- (Permutation_length Himages) in *.
  rewrite !length_take, !to_int_in_range by (unfold INT_MIN; lia).
  lia.
Qed.

(** ** The tables across calls *)

Lemma tables_linked_count g k v :
  tables_linked g →
  k = NO_PATH ∨ is_Some (parent_map g !! k) →
  tables_linked (set_n_files_map (<[k := v]> (n_files_map g)) g)
  ∧ counts_kept g (set_n_files_map (<[k := v]> (n_files_map g)) g).
Proof.
  intros [Hparents Hcounts] Hk. split; [split|]; simpl.
  - intros k' p Hp. destruct (Hparents k' p Hp) as [->|Hin]; [by left|].
    right. destruct (decide (k = p)) as [->|Hne].
    + by rewrite lookup_insert_eq.
    + by rewrite lookup_insert_ne.
  - intros k' Hin. destruct (decide (k = k')) as [->|Hne]; [done|].
    rewrite lookup_insert_ne in Hin by done. by apply Hcounts.
  - intros k' Hin. simpl. destruct (decide (k = k')) as [->|Hne].
    + by rewrite lookup_insert_eq.
    + by rewrite lookup_insert_ne.
Qed.

Lemma tables_linked_parent g k p :
  tables_linked g →
  p = NO_PATH ∨ is_Some (n_files_map g !! p) →
  tables_linked (set_parent_map (<[k := p]> (parent_map g)) g).
Proof.
  intros [Hparents Hcounts] Hp. split; simpl.
  - intros k' p'. destruct (decide (k = k')) as [->|Hne].
    + rewrite lookup_insert_eq. by intros [= <-].
    + rewrite lookup_insert_ne by done. apply Hparents.
  - intros k' Hin. destruct (Hcounts k' Hin) as [->|Hin']; [by left|].
    right. destruct (decide (k = k')) as [->|Hne].
    + by rewrite lookup_insert_eq.
    + by rewrite lookup_insert_ne.
Qed.

Lemma tables_linked_ext g h :
  parent_map h = parent_map g → n_files_map h = n_files_map g →
  tables_linked g → tables_linked h.
Proof. unfold tables_linked. by intros -> ->. Qed.

Lemma counts_kept_trans g1 g2 g3 :
  counts_kept g1 g2 → counts_kept g2 g3 → counts_kept g1 g3.
Proof. intros H12 H23 k Hk. by apply H23, H12. Qed.

Lemma readdir_loop_linked p entries :
  Forall (λ e, keeps_linked e.2) entries →
  ∀ ds0 g ds g',
    tables_linked g →
    is_Some (n_files_map g !! p) →
    readdir_loop get_dir_stats p entries ds0 g = Returns ds g' →
    tables_linked g' ∧ counts_kept g g'.
Proof.
  induction 1 as [|[name e] entries IHe _ IH];
    intros ds0 g ds g' Hlinked Hp Hloop.
  - injection Hloop as <- <-. split; [done|]. by intros k.
  - simpl in Hloop.
    destruct (is_pseudo_entry name); [by eapply IH|].
    assert (p = NO_PATH ∨ is_Some (parent_map g !! p)) as Hp'
      by (by apply Hlinked).
    destruct e as [f|ok sub_entries|]; [| |by eapply IH].
    + apply bind_returns in Hloop as (ds1 & g1 & Hfile & Hloop).
      apply visit_file_returns in Hfile
        as (_ & _ & _ & _ & _ & _ & Hpm & Hnm & _).
      destruct (tables_linked_count g p
                  (to_int (default 0 (n_files_map g !! p) + 1)) Hlinked Hp')
        as [Hlinked1 Hkept1].
      assert (tables_linked g1) as Hlinked1'
        by (refine (tables_linked_ext _ g1 _ _ Hlinked1); [exact Hpm|exact Hnm]).
      assert (counts_kept g g1) as Hkept1'.
      { intros k Hk. rewrite Hnm. by apply Hkept1. }
      destruct (IH _ _ _ _ Hlinked1' (Hkept1' _ Hp) Hloop) as [? ?].
      split; [done|]. by eapply counts_kept_trans.
    + apply bind_returns in Hloop as (sub & g1 & Hsub & Hloop).
      apply bind_returns in Hloop as (ds1 & g2 & Hmerge & Hloop).
      destruct (IHe _ _ _ _ _ Hlinked (or_intror Hp) Hsub)
        as [Hlinked1 Hkept1].
      destruct (merge_subdir_returns p sub ds0 g1)
        as (ds1' & g2' & Heq & _ & _ & _ & _ & _ & Hpm & Hnm & _).
      rewrite Hmerge in Heq. injection Heq as <- <-.
      assert (p = NO_PATH ∨ is_Some (parent_map g1 !! p)) as Hp1
        by (by apply Hlinked1, Hkept1).
      destruct (tables_linked_count g1 p
                  (to_int (to_long (default 0 (n_files_map g1 !! p)
                                    + ds_n_files sub))) Hlinked1 Hp1)
        as [Hlinked2 Hkept2].
      assert (tables_linked g2) as Hlinked2'
        by (refine (tables_linked_ext _ g2 _ _ Hlinked2); [exact Hpm|exact Hnm]).
      assert (counts_kept g1 g2) as Hkept2'.
      { intros k Hk. rewrite Hnm. by apply Hkept2. }
      destruct (IH _ _ _ _ Hlinked2' (Hkept2' _ (Hkept1 _ Hp)) Hloop)
        as [? ?].
      split; [done|].
      eapply counts_kept_trans; [|done]. by eapply counts_kept_trans.
Qed.

Lemma get_dir_stats_linked e : keeps_linked e.
Proof.
  induction e as [f|ok entries IH|] using node_nested_ind;
    intros q pp g ds g' Hlinked Hpp Hrun; try done.
  destruct ok; [|done]. simpl in Hrun.
  apply bind_returns in Hrun as ([] & g1 & [= <-] & Hrun).
  apply bind_returns in Hrun as ([] & g2 & [= <-] & Hrun).
  pose proof (tables_linked_parent g q pp Hlinked Hpp) as Hlinked1.
  destruct (tables_linked_count _ q 0 Hlinked1) as [Hlinked2 Hkept2].
  { right. simpl. by rewrite lookup_insert_eq. }
  destruct (readdir_loop_linked _ _ IH _ _ _ _ Hlinked2
              ltac:(simpl; by rewrite lookup_insert_eq) Hrun)
    as [Hlinked3 Hkept3].
  split; [done|]. intros k Hk. by apply Hkept3, Hkept2.
Qed.

Lemma tables_linked_closed g : tables_linked g → tables_closed (seeded g).
Proof.
  intros [Hparents Hcounts] k Hk. simpl in Hk.
  destruct (decide (k = NO_PATH)) as [->|Hne].
  { by rewrite lookup_insert_eq in Hk. }
  rewrite lookup_insert_ne in Hk by done.
  destruct (Hcounts k) as [?|[p Hp]]; [done|done|].
  simpl. rewrite Hp. split; [done|]. simpl.
  destruct (Hparents k p Hp) as [->|Hin].
  - by rewrite lookup_insert_eq.
  - destruct (decide (NO_PATH = p)) as [<-|Hne'].
    + by rewrite lookup_insert_eq.
    + by rewrite lookup_insert_ne.
Qed.

(** X26.  The two bookkeeping tables stay linked over any number of calls
    in one process: if, before a call of [analyzeDir] that returns, every
    parent recorded in [parent_map] is the empty path or a key of
    [n_files_map] and every key of [n_files_map] but the empty path is a
    key of [parent_map] (as in a fresh process, and after any earlier
    call), then the same holds after it.  So the lookups of the vacancy
    resolver never insert a key: the tables it leaves are those of the walk
    with the count 1 for the empty path, and [vacant_dirs] is the sorted
    list of the cleaned keys whose count is zero and whose parent's count
    is positive in these tables. *)
Theorem tables_stay_linked n cwd g res g' :
  tables_linked g →
  analyzeDir n cwd g = Returns res g' →
  tables_linked g'
  ∧ (∃ ds gw,
       get_dir_stats cwd CURRENT_DIRECTORY NO_PATH g = Returns ds gw
       ∧ g' = seeded gw)
  ∧ vacant_dirs res =
      std_sort string_lt
        (clean_path ∘ fst <$>
           filter (λ kv, vacant_entry g' kv) (map_to_list (n_files_map g'))).
Proof.
  intros Hlinked (ds & gw & Hwalk & Hvacant & _)%analyzeDir_returns.
  destruct (get_dir_stats_linked cwd _ _ _ _ _ Hlinked (or_introl eq_refl)
              Hwalk) as [Hlinked' _].
  rewrite get_top_level_vacant_dirs_returns in Hvacant
    by (by apply tables_linked_closed).
  injection Hvacant as Hvacant <-.
  split_and!; [|by eauto|done].
  destruct Hlinked' as [Hparents Hcounts].
  apply (tables_linked_count gw NO_PATH 1); [done|by left].
Qed.


(** ** The count of a word *)





(** ** The count of each word of a file *)






(** * Worked examples *)




(** C4, as stated, fails for [n = 2]: "world" has five letters and is
    reported after "hello". *)
Lemma hello_scenario_two_words :
  most_common_words <$> result_of (analyzeDir 2 hello_tree globals_init)
  = Some [("hello", 2); ("world", 1)].
Proof. by vm_compute. Qed.

Lemma hello_scenario_any_witness :
  ∃ res g',
    analyzeDir 5 hello_tree globals_init = Returns res g'
    ∧ most_common_words res = [("hello", 2); ("world", 1)]
    ∧ vacant_dirs res = ["empty"]
    ∧ n_files res = 1
    ∧ n_dirs res = 2.
Proof.
  apply (hello_scenario_any 5 (Some 17) None 256).
  - left. reflexivity.
  - lia.
Defined.

(** Two files of 200 bytes and one of 100: the first of the two is kept. *)
Lemma largest_file_strict_witness :
  match get_dir_stats
          (Directory true
             ([("small", plain_file 100 "")]
              ++ ("first", plain_file 200 "")
              :: [("second", plain_file 200 "")]))
          CURRENT_DIRECTORY NO_PATH globals_init with
  | Returns ds _ =>
      ds_largest_file_path ds = "first" ∧ ds_largest_file_size ds = 200
  | Exits _ => False
  end.
Proof.
  destruct (get_dir_stats _ _ _ _) as [ds g'|msg] eqn:Hwalk.
  - destruct largest_file_strict as (_ & _ & Hfirst).
    apply (Hfirst _ _ _ _ _ _ 200 _ _ _ Hwalk).
    + reflexivity.
    + reflexivity.
    + by vm_compute.
    + by vm_compute.
  - vm_compute in Hwalk. discriminate Hwalk.
Defined.

Lemma results_ranked_witness :
  match analyzeDir 3 gallery_tree globals_init with
  | Returns res _ =>
      (StronglySorted word_order (most_common_words res)
       ∧ StronglySorted image_order (largest_images res))
      ∧ most_common_words res = [("alpha", 2); ("gamma", 2); ("delta", 1)]
      ∧ largest_images res =
          [MkImageInfo "big.png" 30 30; MkImageInfo "b.png" 10 10;
           MkImageInfo "shots/a.png" 20 5]
  | Exits _ => False
  end.
Proof.
  destruct (analyzeDir 3 gallery_tree globals_init) as [res g'|msg] eqn:Hrun.
  - split.
    + destruct (results_ranked 3 gallery_tree globals_init res g')
        as (Hwords & _ & Himages & _).
      * exact Hrun.
      * vm_compute. split; discriminate.
      * refine (bool_decide_unpack _ _). vm_compute. exact I.
      * split; [exact Hwords|exact Himages].
    + vm_compute in Hrun. injection Hrun as <- _. split; reflexivity.
  - vm_compute in Hrun. discriminate Hrun.
Defined.

Lemma n_dirs_counts_directories_witness :
  match analyzeDir 1 vacancy_tree globals_init with
  | Returns res _ => n_dirs res = 7
  | Exits _ => False
  end.
Proof.
  destruct (analyzeDir 1 vacancy_tree globals_init) as [res g'|msg] eqn:Hrun.
  - destruct n_dirs_counts_directories as [_ Hroot].
    apply (Hroot 1 vacancy_tree globals_init res g' Hrun). by vm_compute.
  - vm_compute in Hrun. discriminate Hrun.
Defined.

Lemma all_files_size_sums_witness :
  match analyzeDir 1 gallery_tree globals_init with
  | Returns res _ => all_files_size res = 4125
  | Exits _ => False
  end.
Proof.
  destruct (analyzeDir 1 gallery_tree globals_init) as [res g'|msg] eqn:Hrun.
  - destruct all_files_size_sums as [Hsum _].
    rewrite (Hsum 1 gallery_tree globals_init res g' Hrun).
    + vm_compute. reflexivity.
    + vm_compute. split; discriminate.
  - vm_compute in Hrun. discriminate Hrun.
Defined.

Lemma no_file_sentinels_witness :
  match analyzeDir 1 bare_tree globals_init with
  | Returns res _ =>
      largest_file_path res = NO_PATH
      ∧ largest_file_size res = DEFAULT_LARGEST_SIZE
  | Exits _ => False
  end.
Proof.
  destruct (analyzeDir 1 bare_tree globals_init) as [res g'|msg] eqn:Hrun.
  - apply (no_file_sentinels 1 bare_tree globals_init res g' Hrun).
    reflexivity.
  - vm_compute in Hrun. discriminate Hrun.
Defined.

Lemma n_files_counts_files_witness :
  ∃ res g',
    analyzeDir 0 gallery_tree globals_init = Returns res g'
    ∧ n_files res = 5.
Proof.
  eexists _, _. split; [vm_compute; reflexivity|].
  eapply (n_files_counts_files 0 gallery_tree globals_init).
  - vm_compute. reflexivity.
  - vm_compute. discriminate.
Defined.

Lemma tables_after_analysis_witness :
  ∃ res g',
    analyzeDir 0 hello_tree globals_init = Returns res g'
    ∧ n_files_map g' !! NO_PATH = Some 1.
Proof.
  eexists _, _. split; [vm_compute; reflexivity|].
  eapply (tables_after_analysis 0 hello_tree).
  - refine (bool_decide_unpack _ _). vm_compute. exact I.
  - vm_compute. reflexivity.
Defined.

Lemma largest_file_is_a_file_witness :
  ∃ res g',
    analyzeDir 0 hello_tree globals_init = Returns res g'
    ∧ largest_file_size res = 17.
Proof.
  eexists _, _. split; [vm_compute; reflexivity|].
  refine (proj1 (largest_file_is_a_file 0 true
                   [("a.txt", plain_file 17 "hello hello world");
                    ("empty", Directory true [])] globals_init _ _ _ _)).
  - intros name e Hin.
    repeat (apply elem_of_cons in Hin as [[= -> ->]|Hin]; [reflexivity|]).
    by apply elem_of_nil in Hin.
  - vm_compute. reflexivity.
Defined.


Lemma analyzeDir_exit_cause_witness :
  (is_dir unprobed_tree = false
   ∧ "could not call identify via popen on %s./photo.png"
     = "could not opendir " +:+ CURRENT_DIRECTORY)
  ∨ exit_cause (dirs_under [] CURRENT_DIRECTORY unprobed_tree)
      (files_under CURRENT_DIRECTORY unprobed_tree)
      "could not call identify via popen on %s./photo.png"
  ∨ (walkable CURRENT_DIRECTORY unprobed_tree
     ∧ "could not call identify via popen on %s./photo.png"
       = "std::length_error").
Proof.
  apply (analyzeDir_exit_cause 1 unprobed_tree globals_init).
  vm_compute. reflexivity.
Defined.

Lemma largest_images_are_images_witness :
  ∃ pf first_line,
    pf ∈ files_under CURRENT_DIRECTORY gallery_tree
    ∧ identify pf.2 = PipeStream first_line SYSCALL_SUCCESS
    ∧ read_dimensions first_line = (30, 30)
    ∧ 0 < 30 ∧ 0 < 30
    ∧ join_path CURRENT_DIRECTORY "big.png" = pf.1.
Proof.
  eapply (largest_images_are_images 1 gallery_tree globals_init _ _
            (MkImageInfo "big.png" 30 30)).
  - vm_compute. reflexivity.
  - apply list_elem_of_here.
Defined.

Lemma most_common_words_are_words_witness :
  match analyzeDir 1 hello_tree globals_init with
  | Returns res g' =>
      keys_are_words (most_common_words_map g') ∧ is_word "hello"
  | Exits _ => False
  end.
Proof.
  destruct (analyzeDir 1 hello_tree globals_init) as [res g'|msg] eqn:Hrun.
  - destruct (most_common_words_are_words 1 hello_tree globals_init res g')
      as [Hkeys Hwords].
    + intros w count Hw. simpl in Hw. rewrite lookup_empty in Hw.
      discriminate Hw.
    + exact Hrun.
    + split; [exact Hkeys|]. apply (Hwords "hello" 2).
      vm_compute in Hrun. injection Hrun as <- _. apply list_elem_of_here.
  - vm_compute in Hrun. discriminate Hrun.
Defined.

Lemma count_words_ignores_case_witness :
  count_words_in_file "./a.txt"
    {| st_size := None; contents := Some "Hello WORLD";
       identify := PipeNull |} globals_init
  = count_words_in_file "./a.txt"
      {| st_size := None; contents := Some "hELLO world";
         identify := PipeNull |} globals_init.
Proof. apply count_words_ignores_case. reflexivity. Defined.

Lemma vacant_dirs_no_file_witness :
  ∃ res g',
    analyzeDir 3 bare_tree globals_init = Returns res g'
    ∧ vacant_dirs res = [CURRENT_DIRECTORY] ∧ n_files res = 0.
Proof.
  eexists _, _. split; [vm_compute; reflexivity|].
  eapply (vacant_dirs_no_file 3 bare_tree).
  - refine (bool_decide_unpack _ _). vm_compute. exact I.
  - reflexivity.
  - vm_compute. reflexivity.
Defined.

Lemma get_image_info_reads_decimal_witness :
  get_image_info "./shots/a.png"
    {| st_size := Some 1024; contents := None;
       identify := PipeStream (Some "640 480") 0 |} globals_init
  = Returns (Some (MkImageInfo "shots/a.png" 640 480)) globals_init.
Proof.
  apply (get_image_info_reads_decimal "./shots/a.png" _ globals_init 640 480
           EmptyString).
  - vm_compute. split; [reflexivity|discriminate].
  - vm_compute. split; [reflexivity|discriminate].
  - exact I.
  - reflexivity.
Defined.


Lemma well_listed_distinct_paths_witness :
  NoDup (row_path <$> dirs_under [] CURRENT_DIRECTORY vacancy_tree).
Proof.
  apply well_listed_distinct_paths. simpl.
  repeat split; try reflexivity;
    refine (bool_decide_unpack _ _); vm_compute; exact I.
Defined.

Lemma readdir_order_independent_witness :
  ∃ res' g1',
    analyzeDir 2 (Directory true [empty_entry; hello_entry (Some 17) None 256])
      globals_init = Returns res' g1'
    ∧ n_files res' = 1
    ∧ n_dirs res' = 2
    ∧ all_files_size res' = 17
    ∧ largest_file_size res' = 17
    ∧ most_common_words res' = [("hello", 2); ("world", 1)]
    ∧ vacant_dirs res' = ["empty"]
    ∧ (NoDup (path <$> images_under hello_tree) → largest_images res' = []).
Proof.
  eapply (readdir_order_independent 2 hello_tree _
            {| largest_file_path := "a.txt"; largest_file_size := 17;
               n_files := 1; n_dirs := 2; all_files_size := 17;
               most_common_words := [("hello", 2); ("world", 1)];
               largest_images := []; vacant_dirs := ["empty"] |}).
  - eapply reordered_listing; [apply perm_swap|].
    repeat constructor.
  - refine (bool_decide_unpack _ _). vm_compute. exact I.
  - vm_compute. reflexivity.
Defined.

Lemma larger_count_extends_witness :
  match analyzeDir 1 hello_tree globals_init,
        analyzeDir 2 hello_tree globals_init with
  | Returns res _, Returns res' _ =>
      most_common_words res = take 1 (most_common_words res')
  | _, _ => False
  end.
Proof.
  destruct (analyzeDir 1 hello_tree globals_init) as [res g1|msg] eqn:Hrun;
    [|vm_compute in Hrun; discriminate Hrun].
  destruct (analyzeDir 2 hello_tree globals_init) as [res' g1'|msg] eqn:Hrun';
    [|vm_compute in Hrun'; discriminate Hrun'].
  refine (proj1 (larger_count_extends 1 2 hello_tree globals_init res g1
                   res' g1' _ Hrun Hrun')).
  vm_compute. discriminate.
Defined.

Lemma omitted_never_outrank_witness : word_order ("hello", 2) ("world", 1).
Proof.
  destruct (analyzeDir 1 hello_tree globals_init) as [res g'|msg] eqn:Hrun;
    [|vm_compute in Hrun; discriminate Hrun].
  destruct (omitted_never_outrank 1 hello_tree globals_init res g' Hrun)
    as [Hwords _].
  vm_compute in Hrun. injection Hrun as <- <-.
  apply Hwords.
  - apply list_elem_of_here.
  - apply elem_of_map_to_list. vm_compute. reflexivity.
  - intros Hin. apply list_elem_of_singleton in Hin. discriminate Hin.
Defined.

Lemma ranked_lists_lengths_witness :
  match analyzeDir 2 gallery_tree globals_init with
  | Returns res _ =>
      Z.of_nat (length (most_common_words res)) = 2
      ∧ Z.of_nat (length (largest_images res)) = 2
  | Exits _ => False
  end.
Proof.
  destruct (analyzeDir 2 gallery_tree globals_init) as [res g'|msg] eqn:Hrun;
    [|vm_compute in Hrun; discriminate Hrun].
  pose proof (ranked_lists_lengths 2 gallery_tree globals_init res g')
    as Hlengths.
  vm_compute in Hrun. injection Hrun as <- <-.
  apply Hlengths.
  - vm_compute. discriminate.
  - vm_compute. discriminate.
  - vm_compute. reflexivity.
Defined.

Lemma tables_stay_linked_witness :
  ∃ res g',
    analyzeDir 1 hello_tree globals_init = Returns res g' ∧ tables_linked g'.
Proof.
  destruct (analyzeDir 1 hello_tree globals_init) as [res g'|msg] eqn:Hrun;
    [|vm_compute in Hrun; discriminate Hrun].
  exists res, g'. split; [reflexivity|].
  refine (proj1 (tables_stay_linked 1 hello_tree globals_init res g' _ Hrun)).
  split.
  - intros k p Hk. simpl in Hk. rewrite lookup_empty in Hk. discriminate Hk.
  - intros k [c Hk]. simpl in Hk. rewrite lookup_empty in Hk.
    discriminate Hk.
Defined.

